(** * Verification of the metagraph annotation matrices and alignment chainer

    Shallow embedding of the Multi-BRWT matrix
    ([annotation/binary_matrix/multi_brwt/brwt.cpp]), the row-diff wrappers
    ([annotation/int_matrix/row_diff/*.hpp]), the annotation buffer
    ([graph/alignment/annotation_buffer.cpp]), the seed chainer
    ([graph/alignment/aligner_chainer.cpp]) and the superbubble distance
    query ([graph/graph_extensions/path_index.cpp]). *)

From stdpp Require Import base gmap list sorting.
From Stdlib Require Import ZArith Lia QArith Qround Lqa Strings.Byte.

Open Scope nat_scope.
#[local] Set Warnings "-register-all".

(* ------------------------------------------------------------------ *)
(** ** Bit vectors (the rank/select contract of [bit_vector]) *)
(* ------------------------------------------------------------------ *)

Module BitVector.

Definition bv := list bool.

Definition bit (v : bv) (i : nat) : bool := nth i v false.

(** [rank1(i)]: number of set bits in positions [0, i] (inclusive). *)
Definition rank1 (v : bv) (i : nat) : nat :=
  length (List.filter (fun b : bool => b) (take (S i) v)).

(** [conditional_rank1(i)]: [rank1(i)] if bit [i] is set, else 0. *)
Definition conditional_rank1 (v : bv) (i : nat) : nat :=
  if bit v i then rank1 v i else 0.

Definition num_set_bits (v : bv) : nat :=
  length (List.filter (fun b : bool => b) v).

(** [get_int(i, w)]: the [w] bits starting at position [i], bit [k] of the
    word being position [i + k]. *)
Fixpoint get_int (v : bv) (i w : nat) : Z :=
  match w with
  | 0 => 0%Z
  | S w' => ((if bit v i then 1 else 0) + 2 * get_int v (S i) w')%Z
  end.

(** [sdsl::bits::cnt]: population count of a 64-bit word. *)
Definition popcount64 (x : Z) : nat :=
  length (List.filter (fun k => Z.testbit x (Z.of_nat k)) (seq 0 64)).

(** [sdsl::bits::lo_set[k]]: the [k] lowest bits set. *)
Definition lo_set (k : nat) : Z := Z.ones (Z.of_nat k).

(** [select1(r)]: position of the [r]-th set bit (1-based). *)
Fixpoint select1_from (v : bv) (pos r : nat) : nat :=
  match v with
  | [] => pos
  | b :: v' =>
      if b then (if r =? 1 then pos else select1_from v' (S pos) (pred r))
      else select1_from v' (S pos) r
  end.

Definition select1 (v : bv) (r : nat) : nat := select1_from v 0 r.

(** [call_ones]: positions of the set bits, in increasing order. *)
Fixpoint ones_from (v : bv) (pos : nat) : list nat :=
  match v with
  | [] => []
  | b :: v' => if b then pos :: ones_from v' (S pos) else ones_from v' (S pos)
  end.

Definition call_ones (v : bv) : list nat := ones_from v 0.

(** number of set positions among [lo, lo + n) *)
Definition cnt (v : bv) (lo n : nat) : nat :=
  length (List.filter (fun k => bit v k) (seq lo n)).

End BitVector.

Import BitVector.

(* ------------------------------------------------------------------ *)
(** ** Column assignments of a BRWT node *)
(* ------------------------------------------------------------------ *)

Definition Column := N.
Definition Row := nat.

(** Modelled from the spec: the [Assignments] structure of a BRWT node
    (its class is not part of the sources).  It maps every column of the
    node to a child ([group]) and a local column id inside that child
    ([rank]); [get(g, k)] is the inverse map.  It is stored as the group of
    every column, in column order, together with the number of groups. *)
Record Assignments := mkAssignments {
  assign_groups : list nat;
  assign_num_groups : nat;
}.

Definition assign_size (a : Assignments) : nat := length (assign_groups a).

Definition group (a : Assignments) (c : Column) : nat :=
  nth (N.to_nat c) (assign_groups a) 0.

(** local id: the number of earlier columns assigned to the same group *)
Definition rank (a : Assignments) (c : Column) : Column :=
  N.of_nat (length (List.filter (fun g => g =? group a c)
                           (take (N.to_nat c) (assign_groups a)))).

Fixpoint get_in_group (gs : list nat) (g k pos : nat) : nat :=
  match gs with
  | [] => pos
  | g' :: gs' =>
      if g' =? g then (if k =? 0 then pos else get_in_group gs' g (pred k) (S pos))
      else get_in_group gs' g k (S pos)
  end.

Definition assign_get (a : Assignments) (g : nat) (k : Column) : Column :=
  N.of_nat (get_in_group (assign_groups a) g (N.to_nat k) 0).

(** number of columns assigned to group [j] *)
Definition count_group (a : Assignments) (j : nat) : nat :=
  length (List.filter (fun g => g =? j) (assign_groups a)).

(* ------------------------------------------------------------------ *)
(** ** The Multi-BRWT node *)
(* ------------------------------------------------------------------ *)

Module BRWT.

(** [assignments_], [nonzero_rows_] and [child_nodes_] of class [BRWT] *)
Inductive brwt := Node {
  assignments : Assignments;
  nonzero_rows : bv;
  child_nodes : list brwt;
}.

Definition num_rows (t : brwt) : nat := length (nonzero_rows t).
Definition num_columns (t : brwt) : nat := assign_size (assignments t).

(** [std::numeric_limits<Column>::max()], the row delimiter of a slice *)
Definition delim : Column := (2 ^ 64 - 1)%N.

(** [BRWT::get] *)
Fixpoint get (t : brwt) (row : Row) (col : Column) : bool :=
  match t with
  | Node a nz ch =>
      match ch with
      | [] => bit nz row
      | _ =>
          let rk := conditional_rank1 nz row in
          if rk =? 0 then false
          else (fix child (cs : list brwt) (k : nat) : bool :=
                  match cs, k with
                  | c :: _, 0 => get c (rk - 1) (rank a col)
                  | _ :: cs', S k' => child cs' k'
                  | [], _ => false
                  end) ch (group a col)
      end
  end.

(** Modelled from the spec: [BRWT::get_row] (not part of the sources; it
    has the shape of [BRWT::get_column_ranks] and [BRWT_Disk::get_row]):
    descend into every child when the row's filter bit is set, and map the
    local columns back with [assignments_.get(child, local_col)]. *)
Fixpoint get_row (t : brwt) (row : Row) : list Column :=
  match t with
  | Node a nz ch =>
      if negb (bit nz row) then []
      else match ch with
           | [] => [0%N]
           | _ =>
               let idx := rank1 nz row - 1 in
               (fix children (cs : list brwt) (k : nat) : list Column :=
                  match cs with
                  | [] => []
                  | c :: cs' => map (assign_get a k) (get_row c idx) ++ children cs' (S k)
                  end) ch 0
           end
  end.

(** [BRWT::get_column] *)
Fixpoint get_column (t : brwt) (col : Column) : list Row :=
  match t with
  | Node a nz ch =>
      let n := num_set_bits nz in
      if n =? 0 then []
      else match ch with
           | [] => call_ones nz
           | _ =>
               let rows := (fix child (cs : list brwt) (k : nat) : list Row :=
                              match cs, k with
                              | c :: _, 0 => get_column c (rank a col)
                              | _ :: cs', S k' => child cs' k'
                              | [], _ => []
                              end) ch (group a col) in
               if n =? length nz then rows
               else map (fun r => select1 nz (r + 1)) rows
           end
  end.

(** *** The row projection loop of [BRWT::slice_rows] (lines 133-174) *)

(** the per-row branch: [conditional_rank1], then [rank - 1] *)
Definition per_row (nz : bv) (r : Row) : option Row :=
  let rk := conditional_rank1 nz r in
  if rk =? 0 then None else Some (rk - 1).

(** the guard of the word branch, for [row_ids[i] = go] followed by
    [rs_after = row_ids[i+1..]]: [i + 4 < row_ids.size()],
    [row_ids[i + 4]] inside [[go, go + 64)] and the word inside the vector *)
Definition window_ok (nz : bv) (go : Row) (rs_after : list Row) : bool :=
  match nth_error rs_after 3 with
  | Some r4 => (r4 <? go + 64) && (go <=? r4) && (go + 64 <=? length nz)
  | None => false
  end.

(** the [do { ... } while (++i < n && go <= row_ids[i] < go + 64)] loop over
    one word; [rank = -1ULL] is [None].  Returns the projected rows of the
    consumed input rows and the rows left for the outer loop. *)
Fixpoint window_rest (nz : bv) (go : Row) (word : Z) (rk : option nat)
    (rs : list Row) : list (option Row) * list Row :=
  match rs with
  | [] => ([], [])
  | r :: rs' =>
      if (r <? go + 64) && (go <=? r) then
        let offset := r - go in
        if Z.testbit word (Z.of_nat offset) then
          let rk' := match rk with
                     | Some k => k
                     | None => if 0 <? go then rank1 nz (go - 1) else 0
                     end in
          let '(outs, rest) := window_rest nz go word (Some rk') rs' in
          (Some (rk' + popcount64 (Z.land word (lo_set (offset + 1))) - 1) :: outs, rest)
        else
          let '(outs, rest) := window_rest nz go word rk rs' in
          (None :: outs, rest)
      else ([], rs)
  end.

(** The outer [for] loop.  The first component holds, for every input
    row, [Some child_row] when its filter bit is set ([skip_row[i] =
    false]) and [None] otherwise; the second lists, in order, the
    [global_offset] of every word read with [get_int(global_offset, 64)].  The first row of a word always passes
    the [do]-[while] test, so [window_rest] runs the body for it too. *)
Fixpoint project_rows_aux (fuel : nat) (nz : bv) (rs : list Row)
    : list (option Row) * list Row :=
  match fuel with
  | 0 => ([], [])
  | S f =>
      match rs with
      | [] => ([], [])
      | go :: rs' =>
          if window_ok nz go rs' then
            let word := get_int nz go 64 in
            let '(outs, rest) := window_rest nz go word None (go :: rs') in
            let '(outs', reads) := project_rows_aux f nz rest in
            (outs ++ outs', go :: reads)
          else
            let '(outs', reads) := project_rows_aux f nz rs' in
            (per_row nz go :: outs', reads)
      end
  end.

Definition project_rows (nz : bv) (rs : list Row) : list (option Row) * list Row :=
  project_rows_aux (length rs) nz rs.

(** The shape of a run of the outer loop, read off the source: the loop
    stands at a row [go]; if the guard fails there ([window_ok] false) the
    row goes through [conditional_rank1] and the loop moves to the next
    row; if it holds, the word at [go] is read, the [do]-[while] serves
    [go] and the maximal run [pre] of following rows inside
    [[go, go + 64)], each projected from the word, and the loop resumes at
    the first row outside the window.  The indices are the input rows, the
    projected rows and the offsets of the words read. *)
Inductive scan_blocks (nz : bv) : list Row -> list (option Row) -> list Row -> Prop :=
| blocks_nil : scan_blocks nz [] [] []
| blocks_row (go : Row) (rs : list Row) (outs : list (option Row)) (reads : list Row) :
    window_ok nz go rs = false ->
    scan_blocks nz rs outs reads ->
    scan_blocks nz (go :: rs) (per_row nz go :: outs) reads
| blocks_word (go : Row) (pre rest : list Row) (outs : list (option Row)) (reads : list Row) :
    window_ok nz go (pre ++ rest) = true ->
    Forall (fun r => go <= r < go + 64) pre ->
    (forall r rest', rest = r :: rest' -> ~ (go <= r < go + 64)) ->
    scan_blocks nz rest outs reads ->
    scan_blocks nz (go :: pre ++ rest)
      (fst (window_rest nz go (get_int nz go 64) None (go :: pre ++ rest)) ++ outs)
      (go :: reads).

(** *** Merging child slices (lines 184-213) *)

(** the [while] loop that copies a child's entries until its next
    delimiter: the segment up to the delimiter, and the slice after it *)
Fixpoint split_segment (p : list Column) : list Column * list Column :=
  match p with
  | [] => ([], [])
  | v :: p' =>
      if (v =? delim)%N then ([], p')
      else let '(s, r) := split_segment p' in (v :: s, r)
  end.

Fixpoint merge_rows (skip : list bool) (pos : list (list Column)) : list Column :=
  match skip with
  | [] => []
  | s :: skip' =>
      if s then delim :: merge_rows skip' pos
      else let segs := map split_segment pos in
           concat (map fst segs) ++ delim :: merge_rows skip' (map snd segs)
  end.

Definition skip_of (o : option Row) : bool :=
  match o with Some _ => false | None => true end.

(** [BRWT::slice_rows<Column>] *)
Fixpoint slice_rows (t : brwt) (row_ids : list Row) : list Column :=
  match t with
  | Node a nz ch =>
      match ch with
      | [] => flat_map (fun i => (if bit nz i then [0%N] else []) ++ [delim]) row_ids
      | _ =>
          let outs := fst (project_rows nz row_ids) in
          let child_row_ids := omap id outs in
          let skip_row := map skip_of outs in
          match child_row_ids with
          | [] => repeat delim (length row_ids)
          | _ =>
              let child_slices :=
                (fix children (cs : list brwt) (j : nat) : list (list Column) :=
                   match cs with
                   | [] => []
                   | c :: cs' =>
                       map (fun v => if (v =? delim)%N then v else assign_get a j v)
                           (slice_rows c child_row_ids) :: children cs' (S j)
                   end) ch 0 in
              merge_rows skip_row child_slices
          end
      end
  end.

(** [BRWT::num_nodes]: the nodes of the tree *)
Fixpoint num_nodes (t : brwt) : nat :=
  match t with
  | Node _ _ ch => S (list_sum (map num_nodes ch))
  end.

(** [BRWT::get_rows]: split the slice at the delimiters *)
Fixpoint split_rows (n : nat) (slice : list Column) : list (list Column) :=
  match n with
  | 0 => []
  | S n' => let '(r, rest) := split_segment slice in r :: split_rows n' rest
  end.

Definition get_rows (t : brwt) (row_ids : list Row) : list (list Column) :=
  split_rows (length row_ids) (slice_rows t row_ids).

(** Well-formedness of a BRWT as built by the constructors and asserted by
    [serialize]: every column id is below the delimiter; a leaf stores one
    column; an internal node has one child per group, every column's group
    is a valid child index, and child [j] has one row per set bit of the
    parent's [nonzero_rows] and one column per column of group [j]. *)
Fixpoint wf (t : brwt) : bool :=
  match t with
  | Node a nz ch =>
      (N.of_nat (assign_size a) <? delim)%N &&
      match ch with
      | [] => assign_size a =? 1
      | _ =>
          (length ch =? assign_num_groups a) &&
          forallb (fun g => g <? assign_num_groups a) (assign_groups a) &&
          (fix all_children (cs : list brwt) (j : nat) : bool :=
             match cs with
             | [] => true
             | c :: cs' =>
                 wf c && (num_rows c =? num_set_bits nz)
                 && (num_columns c =? count_group a j) && all_children cs' (S j)
             end) ch 0
      end
  end.

(** The trigger of the word scan as the spec words it: four consecutive
    input rows [go, r1, r2, r3] inside the window [[go, go + 64)] of
    [nonzero_rows] (the window fitting in the vector). *)
Definition four_in_window (nz : bv) (rs : list Row) : Prop :=
  exists pre go r1 r2 r3 post,
    rs = pre ++ go :: r1 :: r2 :: r3 :: post /\
    Forall (fun r => go <= r < go + 64) [r1; r2; r3] /\
    go + 64 <= length nz.

End BRWT.


(* ------------------------------------------------------------------ *)
(** ** Streams and serialization *)
(* ------------------------------------------------------------------ *)

Module Stream.

(** an input stream: its remaining bytes and whether it is [good()] *)
Record istream := mkIstream { good : bool; data : list byte }.

(** the result of a component loader: success with the stream after it, a
    [false] return, or an exception *)
Inductive outcome (A : Type) : Type :=
| Ok (a : A) (s : istream)
| Failed
| Thrown.
Arguments Ok {A} a s.
Arguments Failed {A}.
Arguments Thrown {A}.

(** [in.read(buf, k)]: a short read, or a read from a stream that is not
    good, sets the fail bit *)
Definition read (k : N) (s : istream) : option (list byte) * istream :=
  if good s && (k <=? N.of_nat (length (data s)))%N
  then (Some (take (N.to_nat k) (data s)), mkIstream true (drop (N.to_nat k) (data s)))
  else (None, mkIstream false []).

Definition byte_of_N (n : N) : byte :=
  match Byte.of_N n with Some b => b | None => Byte.x00 end.

Fixpoint le_bytes (k : nat) (n : N) : list byte :=
  match k with
  | 0 => []
  | S k' => byte_of_N (n mod 256) :: le_bytes k' (n / 256)
  end.

Fixpoint le_value (bs : list byte) : N :=
  match bs with
  | [] => 0
  | b :: bs' => Byte.to_N b + 256 * le_value bs'
  end.

(** Modelled from the spec: [serialize_number] / [load_number] of
    [common/serialization] (not part of the sources): a [uint64_t] as 8
    little-endian bytes; [load_number] throws on a short stream. *)
Definition serialize_number (n : N) : list byte := le_bytes 8 n.

Definition load_number (s : istream) : outcome N :=
  match read 8 s with
  | (Some bs, s') => Ok (le_value bs) s'
  | (None, _) => Thrown
  end.

(** [k] numbers in a row; [fuel] bounds the number of reads *)
Fixpoint load_numbers (fuel : nat) (k : N) (s : istream) : outcome (list N) :=
  if (k =? 0)%N then Ok [] s
  else match fuel with
       | 0 => Thrown
       | S f =>
           match load_number s with
           | Ok x s1 =>
               match load_numbers f (k - 1)%N s1 with
               | Ok xs s2 => Ok (x :: xs) s2
               | Failed => Failed
               | Thrown => Thrown
               end
           | Failed => Failed
           | Thrown => Thrown
           end
       end.

(** Modelled from the spec: the [bit_vector] serialization (its classes
    are not part of the sources): the length, then one byte per bit;
    [load] returns [false] on a short stream or a byte other than 0 or 1. *)
Definition serialize_bv (v : bv) : list byte :=
  serialize_number (N.of_nat (length v))
  ++ map (fun b : bool => if b then Byte.x01 else Byte.x00) v.

Fixpoint bits_of_bytes (bs : list byte) : option bv :=
  match bs with
  | [] => Some []
  | b :: bs' =>
      match bits_of_bytes bs' with
      | Some v =>
          if Byte.eqb b Byte.x00 then Some (false :: v)
          else if Byte.eqb b Byte.x01 then Some (true :: v)
          else None
      | None => None
      end
  end.

Definition load_bv (s : istream) : outcome bv :=
  match load_number s with
  | Ok n s1 =>
      match read n s1 with
      | (Some bs, s2) => match bits_of_bytes bs with Some v => Ok v s2 | None => Failed end
      | (None, _) => Failed
      end
  | Failed => Failed
  | Thrown => Thrown
  end.

(** Modelled from the spec: the [Assignments] serialization: the number of
    groups, the number of columns, then the group of every column. *)
Definition serialize_assignments (a : Assignments) : list byte :=
  serialize_number (N.of_nat (assign_num_groups a))
  ++ serialize_number (N.of_nat (assign_size a))
  ++ concat (map (fun g => serialize_number (N.of_nat g)) (assign_groups a)).

Definition load_assignments (s : istream) : outcome Assignments :=
  match load_number s with
  | Ok m s1 =>
      match load_number s1 with
      | Ok n s2 =>
          match load_numbers (length (data s2)) n s2 with
          | Ok gs s3 => Ok (mkAssignments (map N.to_nat gs) (N.to_nat m)) s3
          | Failed => Failed
          | Thrown => Thrown
          end
      | Failed => Failed
      | Thrown => Thrown
      end
  | Failed => Failed
  | Thrown => Thrown
  end.

End Stream.

Module BRWTSerialization.
Import BRWT Stream.

(** [BRWT::serialize] *)
Fixpoint serialize (t : brwt) : list byte :=
  match t with
  | Node a nz ch =>
      serialize_assignments a ++ serialize_bv nz
      ++ serialize_number (N.of_nat (length ch)) ++ concat (map serialize ch)
  end.

(** the [for] loop of [BRWT::load] reading [k] children with the child
    loader [load_child]; [g] bounds the number of iterations *)
Fixpoint load_children (load_child : istream -> option (brwt * istream))
    (g : nat) (k : N) (s : istream) : option (list brwt * istream) :=
  if (k =? 0)%N then Some ([], s)
  else match g with
       | 0 => None
       | S g' =>
           match load_child s with
           | Some (c, s') =>
               match load_children load_child g' (k - 1)%N s' with
               | Some (cs, s'') => Some (c :: cs, s'')
               | None => None
               end
           | None => None
           end
       end.

(** [BRWT::load]: [None] is [return false]; an exception of a component is
    caught and also gives [None].  [fuel] bounds the nesting depth and the
    number of children read; [load] gives it the stream length, enough
    since every node reads at least one byte. *)
Fixpoint load_brwt (fuel : nat) (s : istream) {struct fuel} : option (brwt * istream) :=
  match fuel with
  | 0 => None
  | S f =>
      if negb (good s) then None else
      match load_assignments s with
      | Ok a s1 =>
          match load_bv s1 with
          | Ok nz s2 =>
              match load_number s2 with
              | Ok n s3 =>
                  match load_children (load_brwt f) f n s3 with
                  | Some (ch, s4) =>
                      if (n =? 0)%N || (n =? N.of_nat (assign_num_groups a))%N
                      then Some (Node a nz ch, s4)
                      else None
                  | None => None
                  end
              | _ => None
              end
          | _ => None
          end
      | _ => None
      end
  end.

Definition load (s : istream) : option (brwt * istream) :=
  load_brwt (S (length (data s))) s.

(** every node has no children or one per group: what [load] accepts *)
Fixpoint children_ok (t : brwt) : bool :=
  match t with
  | Node a nz ch =>
      ((length ch =? 0) || (length ch =? assign_num_groups a))
      && forallb children_ok ch
  end.

(** every number [serialize] writes fits in a [uint64_t] *)
Fixpoint fits64 (t : brwt) : bool :=
  match t with
  | Node a nz ch =>
      (N.of_nat (assign_num_groups a) <? 2 ^ 64)%N
      && (N.of_nat (assign_size a) <? 2 ^ 64)%N
      && forallb (fun g => N.of_nat g <? 2 ^ 64)%N (assign_groups a)
      && (N.of_nat (length nz) <? 2 ^ 64)%N
      && forallb fits64 ch
  end.

End BRWTSerialization.

Module RowDiffSerialization.
Import Stream.

(** the members [IntRowDiff::load] / [TupleRowDiff::load] fill: the anchor
    and fork-successor bit vectors and the base matrix of the diffs *)
Record row_diff (B : Type) := mkRowDiff { anchor : bv; fork_succ : bv; diffs : B }.
Arguments mkRowDiff {B} anchor fork_succ diffs.
Arguments anchor {B} r.
Arguments fork_succ {B} r.
Arguments diffs {B} r.

(** the bytes of ["v2.0"] *)
Definition version_tag : list byte := [Byte.x76; Byte.x32; Byte.x2e; Byte.x30].

Section RowDiffCodec.
Variable B : Type.
(** [diffs_.serialize] and [diffs_.load] of the base matrix *)
Variable base_serialize : B -> list byte.
Variable base_load : istream -> outcome B.

(** [IntRowDiff::serialize] (and [TupleRowDiff::serialize]); the bit vectors
    as in [serialize_bv] *)
Definition rd_serialize (x : row_diff B) : list byte :=
  version_tag ++ serialize_bv (anchor x) ++ serialize_bv (fork_succ x)
  ++ base_serialize (diffs x).

(** [anchor_.load(in) && fork_succ_.load(in) && diffs_.load(in)]: [Ok] is
    [true], [Failed] is [false], [Thrown] an exception, which the row-diff
    loaders do not catch *)
Definition rd_load_members (s : istream) : outcome (row_diff B) :=
  match load_bv s with
  | Ok an s1 =>
      match load_bv s1 with
      | Ok fs s2 =>
          match base_load s2 with
          | Ok d s3 => Ok (mkRowDiff an fs d) s3
          | Failed => Failed
          | Thrown => Thrown
          end
      | Failed => Failed
      | Thrown => Thrown
      end
  | Failed => Failed
  | Thrown => Thrown
  end.

(** [IntRowDiff::load] (and [TupleRowDiff::load]): read 4 bytes into
    [version], then load the members *)
Definition rd_load (s : istream) : outcome (row_diff B) :=
  let '(_version, s0) := read 4 s in rd_load_members s0.

(** the [bool] that [load] returns, when it returns *)
Definition rd_load_result (s : istream) : option bool :=
  match rd_load s with
  | Ok _ _ => Some true
  | Failed => Some false
  | Thrown => None
  end.

End RowDiffCodec.

Arguments rd_serialize {B} base_serialize x.
Arguments rd_load_members {B} base_load s.
Arguments rd_load {B} base_load s.
Arguments rd_load_result {B} base_load s.

(** [BRWT::load] seen as a base-matrix loader: it catches every exception *)
Definition brwt_base_load (s : istream) : outcome BRWT.brwt :=
  match BRWTSerialization.load s with
  | Some (t, s') => Ok t s'
  | None => Failed
  end.

End RowDiffSerialization.

(* ------------------------------------------------------------------ *)
(** ** [IntRowDiff::get_row_values] *)
(* ------------------------------------------------------------------ *)

Module IntRowDiff.
Import BitVector RowDiffSerialization.

(** [RowValues]: pairs (column, [uint64_t] value) *)
Definition RowValues := list (N * N).

Definition u64 : N := (2 ^ 64)%N.

(** [encode_diff]: an [int64_t] delta to its code *)
Definition encode_diff (x : Z) : N :=
  Z.to_N ((Z.abs x - 1) * 2 + (if (x <? 0)%Z then 1 else 0)).

(** [decode_diff]: the [int64_t] result is stored back in a [uint64_t], so
    the negative branch is [-((c + 1) / 2)] modulo [2^64] *)
Definition decode_diff (c : N) : N :=
  if negb (N.testbit c 0) then ((c / 2 + 1) mod u64)%N
  else ((u64 - ((c + 1) mod u64) / 2) mod u64)%N.

Definition decode_diffs (row : RowValues) : RowValues :=
  map (fun '(j, v) => (j, decode_diff v)) row.

(** [std::sort] on pairs, in lexicographic order *)
Definition pair_ltb (p q : N * N) : bool :=
  (p.1 <? q.1)%N || ((p.1 =? q.1)%N && (p.2 <? q.2)%N).

Fixpoint insert_pair (p : N * N) (row : RowValues) : RowValues :=
  match row with
  | [] => [p]
  | q :: row' => if pair_ltb q p then q :: insert_pair p row' else p :: row
  end.

Fixpoint sort_row (row : RowValues) : RowValues :=
  match row with
  | [] => []
  | p :: row' => insert_pair p (sort_row row')
  end.

(** the merge loop of [add_diff]: [row] is walked by [it], [diff] by [it2] *)
Fixpoint merge_diff (row diff : RowValues) {struct row} : RowValues :=
  match row with
  | [] => diff
  | (c1, v1) :: row' =>
      (fix go (diff : RowValues) : RowValues :=
         match diff with
         | [] => row
         | (c2, v2) :: diff' =>
             if (c1 <? c2)%N then (c1, v1) :: merge_diff row' diff
             else if (c2 <? c1)%N then (c2, v2) :: go diff'
             else let sum := ((v1 + v2) mod u64)%N in
                  if (sum =? 0)%N then merge_diff row' diff'
                  else (c1, sum) :: merge_diff row' diff'
         end) diff
  end.

(** [add_diff(diff, &row)]: the new value of [row] *)
Definition add_diff (diff row : RowValues) : RowValues :=
  match diff with
  | [] => row
  | _ => merge_diff row diff
  end.

(** an entry of [rd_path]: [None] is the [-1] of the last entry *)
Definition rd_step := (option nat * nat)%type.

Section GetRowValues.
Variable B : Type.
(** [diffs_.get_row_values]: the stored row of the base matrix *)
Variable base_get_row : B -> Row -> RowValues.
(** Modelled from the spec: [graph_->call_row_diff_successors(node,
    fork_succ_, callback)] calls [callback] once, with the row-diff
    successor of the row chosen with [fork_succ] (the graph is not part of
    the sources). *)
Variable rd_succ : bv -> Row -> Row.

(** [while (depth < path.size())]: move the top of [path] to [rd_path];
    [path] has its last element first *)
Fixpoint unwind (depth : nat) (path : list nat) (rd_path : list rd_step)
    : list nat * list rd_step :=
  match path with
  | p1 :: ((p2 :: _) as rest) =>
      if depth <? length path then unwind depth rest (rd_path ++ [(Some p2, p1)])
      else (path, rd_path)
  | _ => (path, rd_path)
  end.

(** the [while (queue.size())] loop for one query row; [queue] has its back
    first, and [fuel] bounds the iterations *)
Fixpoint walk (x : row_diff B) (fuel : nat) (queue : list (nat * Row)) (path : list nat)
    (rd_path : list rd_step) (rd_ids : list Row) (node_to_rd : gmap Row nat)
    : option (list nat * list rd_step * list Row * gmap Row nat) :=
  match queue with
  | [] => Some (path, rd_path, rd_ids, node_to_rd)
  | (depth, row) :: queue' =>
      match fuel with
      | 0 => None
      | S f =>
          let '(path1, rd_path1) := unwind depth path rd_path in
          match node_to_rd !! row with
          | Some k => walk x f queue' (k :: path1) rd_path1 rd_ids node_to_rd
          | None =>
              let k := length rd_ids in
              if bit (anchor x) row
              then walk x f queue' (k :: path1) rd_path1 (rd_ids ++ [row])
                     (<[row := k]> node_to_rd)
              else walk x f ((S depth, rd_succ (fork_succ x) row) :: queue') (k :: path1)
                     rd_path1 (rd_ids ++ [row]) (<[row := k]> node_to_rd)
          end
      end
  end.

(** [while (path.size() > 1)] and [rd_path.emplace_back(-1, path[0])] *)
Fixpoint close_path (path : list nat) (rd_path : list rd_step) : list rd_step :=
  match path with
  | p1 :: ((p2 :: _) as rest) => close_path rest (rd_path ++ [(Some p2, p1)])
  | [p] => rd_path ++ [(None, p)]
  | [] => rd_path
  end.

(** the first [for] loop: the truncated paths of all query rows, and
    [rd_ids] *)
Fixpoint collect_paths (x : row_diff B) (fuel : nat) (row_ids : list Row)
    (rd_ids : list Row) (node_to_rd : gmap Row nat)
    : option (list (list rd_step) * list Row) :=
  match row_ids with
  | [] => Some ([], rd_ids)
  | r :: rs =>
      match walk x fuel [(0, r)] [] [] rd_ids node_to_rd with
      | Some (path, rd_path, rd_ids', node_to_rd') =>
          match collect_paths x fuel rs rd_ids' node_to_rd' with
          | Some (paths, ids) => Some (close_path path rd_path :: paths, ids)
          | None => None
          end
      | None => None
      end
  end.

(** [for (j = 0; j + 1 < rd_path.size(); ++j)]: add the diffs along a path *)
Fixpoint apply_path (rd_path : list rd_step) (rd_rows : list RowValues) : list RowValues :=
  match rd_path with
  | (node, succ) :: ((_ :: _) as rest) =>
      apply_path rest
        (match node with
         | Some n => <[n := add_diff (rd_rows !!! succ) (rd_rows !!! n)]> rd_rows
         | None => rd_rows
         end)
  | _ => rd_rows
  end.

(** the second [for] loop: [rows[i] = rd_rows[rd_path.back().second]] *)
Fixpoint reconstruct (paths : list (list rd_step)) (rd_rows : list RowValues)
    : list RowValues :=
  match paths with
  | [] => []
  | p :: ps =>
      let rd_rows' := apply_path p rd_rows in
      (match last p with Some (_, k) => rd_rows' !!! k | None => [] end)
      :: reconstruct ps rd_rows'
  end.

(** [IntRowDiff::get_row_values(row_ids)]; [None] when [fuel] runs out *)
Definition get_row_values (x : row_diff B) (fuel : nat) (row_ids : list Row)
    : option (list RowValues) :=
  match collect_paths x fuel row_ids [] ∅ with
  | Some (paths, rd_ids) =>
      let rd_rows := map (fun r => sort_row (decode_diffs (base_get_row (diffs x) r))) rd_ids in
      Some (reconstruct paths rd_rows)
  | None => None
  end.

(** [IntRowDiff::get_row(i)]: the columns of [get_row_values({i})[0]] *)
Definition get_row (x : row_diff B) (fuel : nat) (i : Row) : option (list N) :=
  match get_row_values x fuel [i] with
  | Some (row :: _) => Some (map fst row)
  | _ => None
  end.

End GetRowValues.

Arguments walk {B} rd_succ x fuel queue path rd_path rd_ids node_to_rd.
Arguments collect_paths {B} rd_succ x fuel row_ids rd_ids node_to_rd.
Arguments get_row_values {B} base_get_row rd_succ x fuel row_ids.
Arguments get_row {B} base_get_row rd_succ x fuel i.

(** Modelled from the spec: the row-diff transform of the build: an anchor
    stores its row, another row the per-column difference with the row of
    its successor (zero differences dropped), each value as
    [encode_diff] of the signed [int64_t] difference. *)
Definition to_int64 (v : N) : Z :=
  if (v <? 2 ^ 63)%N then Z.of_N v else (Z.of_N v - Z.of_N u64)%Z.

Definition negate_row (row : RowValues) : RowValues :=
  map (fun '(j, v) => (j, ((u64 - v) mod u64)%N)) row.

Definition rd_delta (L : Row -> RowValues) (an : bv) (succ : Row -> Row) (r : Row)
    : RowValues :=
  if bit an r then L r else add_diff (negate_row (L (succ r))) (L r).

Definition rd_store (L : Row -> RowValues) (an : bv) (succ : Row -> Row) (r : Row)
    : RowValues :=
  map (fun '(j, v) => (j, encode_diff (to_int64 v))) (rd_delta L an succ r).

End IntRowDiff.

(** the value a row holds in a column (0 when the column is absent), and
    the rows [get_row_values] produces: strictly sorted by column, with
    values in [1, 2^64) *)
Module RowValuesSemantics.
Import IntRowDiff.

Fixpoint val (row : RowValues) (c : N) : N :=
  match row with
  | [] => 0%N
  | (j, v) :: row' => if (j =? c)%N then v else val row' c
  end.

Definition col_lt (p q : N * N) : Prop := (p.1 < q.1)%N.

Definition canon (row : RowValues) : Prop :=
  StronglySorted col_lt row /\ Forall (fun p => 0 < p.2 < u64)%N row.

(** logical rows whose differences fit in an [int64_t] *)
Definition canon63 (row : RowValues) : Prop :=
  StronglySorted col_lt row /\ Forall (fun p => 0 < p.2 < 2 ^ 63)%N row.

End RowValuesSemantics.

(** the state of the first loop of [get_row_values]: [node_to_rd] maps
    every row of [rd_ids] to its position, and a truncated path (its last
    element first) steps from a row that is not an anchor to its successor *)
Module RowDiffPaths.
Import BitVector IntRowDiff.

Definition index_map (ids : list Row) (m : gmap Row nat) : Prop :=
  forall r k, m !! r = Some k <-> ids !! k = Some r.

Fixpoint links (an : bv) (succ : Row -> Row) (ids : list Row) (P : list nat) : Prop :=
  match P with
  | p1 :: ((p2 :: _) as rest) =>
      (exists r2, ids !! p2 = Some r2 /\ bit an r2 = false /\ ids !! p1 = Some (succ r2))
      /\ links an succ ids rest
  | _ => True
  end.

End RowDiffPaths.

(* ------------------------------------------------------------------ *)
(** ** [IPathIndex::get_dist] *)
(* ------------------------------------------------------------------ *)

Module PathIndex.

(** [size_t] arithmetic *)
Definition size_max : N := (2 ^ 64 - 1)%N.
Definition add64 (x y : N) : N := ((x + y) mod 2 ^ 64)%N.
Definition sub64 (x y : N) : N := ((x + (2 ^ 64 - y mod 2 ^ 64)) mod 2 ^ 64)%N.

Section GetDist.
(** the accessors [get_dist] calls: [get_superbubble_and_dist],
    [get_superbubble_terminus] (as the pair of [size_t] that [get_dist]
    destructures), [is_superbubble_source] and
    [can_reach_superbubble_terminus]; the first two are pure virtual in
    [IPathIndex], the third is not part of the sources *)
Variable get_superbubble_and_dist : N -> N * N.
Variable get_superbubble_terminus : N -> N * N.
Variable is_superbubble_source : N -> bool.
Variable can_reach_superbubble_terminus : N -> bool.

(** the [while] loop of [get_dist] on [(sb2, d)]; [fuel] bounds its
    iterations ([None]: the loop has not stopped) *)
Fixpoint chain_walk (fuel : nat) (t max_dist sb2 d : N) : option (N * N) :=
  if negb (sb2 =? 0)%N && negb (sb2 =? t)%N && (d <? max_dist)%N then
    match fuel with
    | 0 => None
    | S f =>
        let '(next_sb, next_d) := get_superbubble_and_dist sb2 in
        chain_walk f t max_dist next_sb (if (next_sb =? 0)%N then d else add64 d next_d)
    end
  else Some (sb2, d).

Definition get_dist (fuel : nat) (path_id_1 path_id_2 max_dist : N) : option N :=
  if (path_id_1 =? path_id_2)%N then Some 0%N else
  let '(sb1, d1) := get_superbubble_and_dist path_id_1 in
  let '(sb2, d2) := get_superbubble_and_dist path_id_2 in
  let is_source1 := is_superbubble_source path_id_1 in
  if is_source1 && (sb2 =? path_id_1)%N then Some d2 else
  if (sb1 =? sb2)%N then
    let '(t, d) := get_superbubble_terminus sb1 in
    if (t =? path_id_2)%N && can_reach_superbubble_terminus path_id_1
    then Some (sub64 d2 d1) else Some size_max
  else if negb (can_reach_superbubble_terminus path_id_1) then Some size_max else
  let '(t, d) := get_superbubble_terminus (if is_source1 then path_id_1 else sb1) in
  let d := sub64 d (if is_source1 then 0 else d1)%N in
  match chain_walk fuel t max_dist sb2 d with
  | Some (sb2', d') => Some (if (sb2' =? t)%N then add64 d' d2 else size_max)
  | None => None
  end.

(** the chain of superbubbles from [s], each one's recorded source and
    distance given by [get_superbubble_and_dist], reaches [t] with the
    running distance below [max_dist] at every step, [d] growing to [d'] *)
Inductive reaches (t max_dist : N) : N -> N -> N -> Prop :=
| reaches_here (d : N) : reaches t max_dist t d d
| reaches_step (s d d' : N) :
    s <> 0%N -> s <> t -> (d < max_dist)%N ->
    reaches t max_dist (get_superbubble_and_dist s).1
      (if ((get_superbubble_and_dist s).1 =? 0)%N then d
       else add64 d (get_superbubble_and_dist s).2) d' ->
    reaches t max_dist s d d'.

End GetDist.

End PathIndex.

(* ------------------------------------------------------------------ *)
(** ** The DP transition of [chain_seeds] *)
(* ------------------------------------------------------------------ *)

Module Chainer.

(** a row of the DP table: label, coordinate, seed_clipping, seed_end,
    chain_score, seed_i *)
Record TableElem := mkElem {
  label : N; coordinate : Z; seed_clipping : Z; seed_end : Z; chain_score : Z; seed_i : nat }.

(** the row [chain_seeds] emplaces for a seed of length [len] at query
    offset [clipping], labelled [label] at [coord]: its chain score starts
    at the seed length *)
Definition init_elem (label : N) (coord clipping len : Z) (seed_i : nat) : TableElem :=
  mkElem label coord clipping (clipping + len) len seed_i.

(** the low 32 bits of a 64-bit lane, as [epi64_to_epi32] keeps them *)
Definition to_i32 (z : Z) : Z := ((z + 2 ^ 31) mod 2 ^ 32 - 2 ^ 31)%Z.

(** [simde_mm256_cvtps_epi32] in the default rounding mode of MXCSR: to
    the nearest integer, ties to even *)
Definition cvtps_epi32 (x : Q) : Z :=
  let f := Qfloor x in
  let r := (x - inject_Z f)%Q in
  if negb (Qle_bool (1 # 2) r) then f
  else if negb (Qle_bool r (1 # 2)) then (f + 1)%Z
  else if Z.even f then f else (f + 1)%Z.

Section Transition.
(** [sl = static_cast<float>(config.min_seed_length) * 0.01] and one lane
    of [simde_mm256_log2_ps], as the float values they compute *)
Variable sl : Q.
Variable log2_ps : Q -> Q.

(** [gap_penalty_v]: the float penalty converted by [cvtps_epi32], blended
    to 0 where [coord_diff] is 0 *)
Definition gap_penalty (coord_diff : Z) : Z :=
  if (0 <? coord_diff)%Z
  then cvtps_epi32 (inject_Z coord_diff * sl + log2_ps (inject_Z (coord_diff + 1)) * (1 # 2))%Q
  else 0%Z.

(** one lane of the vectorized loop of [chain_seeds]: row [i] ([prev]) as
    the predecessor of row [j] ([cur], its backtrace [bt]), for a [j] in
    the window (below [it_end] and above the coordinate cutoff) *)
Definition dp_update (query_size : Z) (i : nat) (prev cur : TableElem) (bt : nat)
    : TableElem * nat :=
  let dist := (seed_clipping prev - seed_clipping cur)%Z in
  let coord_dist := to_i32 (coordinate prev - coordinate cur) in
  if (0 <? dist)%Z && (Z.max dist coord_dist <? query_size)%Z then
    let match_ := Z.min (Z.min dist coord_dist) (seed_end cur - seed_clipping cur) in
    let coord_diff := Z.abs (coord_dist - dist) in
    let cur_score := (chain_score prev + match_ - gap_penalty coord_diff)%Z in
    if (cur_score <? chain_score cur)%Z then (cur, bt)
    else (mkElem (label cur) (coordinate cur) (seed_clipping cur) (seed_end cur)
            cur_score (seed_i cur), i)
  else (cur, bt).

(** the transition as the spec words it: the penalty is the ceiling of
    [sl * gap + 0.5 * log2(gap + 1)], 0 when [gap] is 0, and [j] is
    updated when the candidate score beats its score *)
Definition spec_penalty (gap : Z) : Z :=
  if (gap =? 0)%Z then 0%Z
  else Qceiling (inject_Z gap * sl + log2_ps (inject_Z (gap + 1)) * (1 # 2))%Q.

Definition dp_update_spec (query_size : Z) (i : nat) (prev cur : TableElem) (bt : nat)
    : TableElem * nat :=
  let dist := (seed_clipping prev - seed_clipping cur)%Z in
  let coord_dist := (coordinate prev - coordinate cur)%Z in
  if (0 <? dist)%Z && (Z.max dist coord_dist <? query_size)%Z then
    let match_ := Z.min (Z.min dist coord_dist) (seed_end cur - seed_clipping cur) in
    let gap := Z.abs (coord_dist - dist) in
    let cand := (chain_score prev + match_ - spec_penalty gap)%Z in
    if (chain_score cur <? cand)%Z
    then (mkElem (label cur) (coordinate cur) (seed_clipping cur) (seed_end cur)
            cand (seed_i cur), i)
    else (cur, bt)
  else (cur, bt).

End Transition.

End Chainer.

(* ------------------------------------------------------------------ *)
(** ** The coverage filter of [call_seed_chains_both_strands] *)
(* ------------------------------------------------------------------ *)

Module ChainFlush.

Section Flush.
(** a [Chain] (its seeds with their coordinate sets), compared by
    [chain != last_chain] *)
Variable Chain : Type.
Context `{EqDecision Chain}.
(** the merge of the coordinate sets of [chain] into [last_chain] *)
Variable merge : Chain -> Chain -> Chain.
(** [get_num_char_matches_in_seeds] *)
Variable num_char_matches : Chain -> nat.
(** [forward.size()] and [config.min_exact_match] *)
Variable query_size : nat.
Variable min_exact_match : Q.
(** the iteration order of the [unordered_multiset] [chains] on the chains
    inserted in this order *)
Variable iter_order : list Chain -> list Chain.

(** [exact_match_fraction < config.min_exact_match] *)
Definition too_low (c : Chain) : bool :=
  negb (Qle_bool min_exact_match
          (inject_Z (Z.of_nat (num_char_matches c)) / inject_Z (Z.of_nat query_size))).

Record state := mkState {
  chains : list Chain; last_chain_score : Z; coverage_too_low : bool;
  emitted : list (Chain * Z) }.

(** the loop of [flush_chains] from [last_chain] over the rest of the
    chains: [(coverage_too_low, emitted)] *)
Fixpoint flush_scan (score : Z) (last_chain : Chain) (rest : list Chain)
    (out : list (Chain * Z)) : bool * list (Chain * Z) :=
  match rest with
  | [] => if too_low last_chain then (true, out) else (false, out ++ [(last_chain, score)])
  | c :: rest' =>
      if decide (c = last_chain) then flush_scan score (merge last_chain c) rest' out
      else if too_low last_chain then (true, out)
      else flush_scan score c rest' (out ++ [(last_chain, score)])
  end.

(** [flush_chains]; with no chain the code asserts, nothing is done *)
Definition flush_chains (st : state) : state :=
  if coverage_too_low st then st else
  match iter_order (chains st) with
  | [] => st
  | c :: cs =>
      let '(low, out) := flush_scan (last_chain_score st) c cs (emitted st) in
      mkState (if low then chains st else []) (last_chain_score st) low out
  end.

(** one iteration of the backtracking loop, for a start that yields the
    chain [ch] of score [s] (a start that yields no chain changes
    nothing); once [coverage_too_low] is set the loop breaks *)
Definition loop_step (st : state) (sc : Z * Chain) : state :=
  if coverage_too_low st then st else
  let '(s, ch) := sc in
  match chains st with
  | [] => mkState [ch] s (coverage_too_low st) (emitted st)
  | _ =>
      if (s =? last_chain_score st)%Z
      then mkState (chains st ++ [ch]) (last_chain_score st) (coverage_too_low st) (emitted st)
      else let st' := flush_chains st in
           mkState (chains st' ++ [ch]) s (coverage_too_low st') (emitted st')
  end.

(** the chains passed to [callback], with their scores, for the chains of
    the starts in decreasing score order *)
Definition call_seed_chains (cands : list (Z * Chain)) : list (Chain * Z) :=
  emitted (flush_chains (fold_left loop_step cands (mkState [] (- 2 ^ 31)%Z false []))).

(** the chains [flush_chains] checks for one group of equal score: the
    chains in the multiset's order, a chain equal to the one before merged
    into it *)
Fixpoint runs (last_chain : Chain) (rest : list Chain) : list Chain :=
  match rest with
  | [] => [last_chain]
  | c :: rest' =>
      if decide (c = last_chain) then runs (merge last_chain c) rest'
      else last_chain :: runs c rest'
  end.

Definition group_runs (g : list Chain) : list Chain :=
  match iter_order g with [] => [] | c :: cs => runs c cs end.

(** the candidates cut into maximal blocks of equal score *)
Fixpoint groups (cands : list (Z * Chain)) : list (Z * list Chain) :=
  match cands with
  | [] => []
  | (s, c) :: rest =>
      match groups rest with
      | (s', g) :: gs => if (s =? s')%Z then (s, c :: g) :: gs else (s, [c]) :: (s', g) :: gs
      | [] => [(s, [c])]
      end
  end.

(** every chain checked, in order, with its score *)
Definition checked (cands : list (Z * Chain)) : list (Chain * Z) :=
  concat (map (fun '(s, g) => map (fun c => (c, s)) (group_runs g)) (groups cands)).

(** the checked chains up to the first one whose coverage is too low *)
Fixpoint take_passing (l : list (Chain * Z)) : list (Chain * Z) :=
  match l with
  | [] => []
  | (c, s) :: l' => if too_low c then [] else (c, s) :: take_passing l'
  end.

End Flush.

End ChainFlush.

(* ------------------------------------------------------------------ *)
(** ** [AnnotationBuffer]: batched fetching of node annotations *)
(* ------------------------------------------------------------------ *)

Module AnnotationBuffer.

(** [DeBruijnGraph::Mode] *)
Inductive Mode := BASIC | PRIMARY | CANONICAL.

#[global] Instance Mode_eq_dec : EqDecision Mode.
Proof. solve_decision. Defined.

(** [DeBruijnGraph::npos] *)
Definition npos : N := 0%N.

(** dummy index for an unfetched annotations *)
Definition nannot : N := (2 ^ 64 - 1)%N.

(** [AnnotatedDBG::graph_to_anno_index], [AnnotatedDBG::anno_to_graph_index] *)
Definition graph_to_anno_index (node : N) : N := (node - 1)%N.
Definition anno_to_graph_index (row : N) : N := (row + 1)%N.

Definition Columns := list N.

(** the fields [node_to_cols_] and [column_sets_] (coordinates are not
    modelled) *)
Record buffer := mkBuffer {
  node_to_cols : gmap N N;
  column_sets : list Columns }.

(** [AnnotationBuffer::AnnotationBuffer]: [column_sets_({ {} })] *)
Definition init_buffer : buffer := mkBuffer ∅ [[]].

(** Modelled from the spec: [cache_column_set(set)] returns the index of
    [set] in the interning table, appending it on first sight. *)
Definition cache_column_set (s : Columns) (cs : list Columns) : N * list Columns :=
  match list_find (fun x => x = s) cs with
  | Some (i, _) => (N.of_nat i, cs)
  | None => (N.of_nat (length cs), cs ++ [s])
  end.

(** [std::unordered_map::try_emplace] (also [emplace]) *)
Definition try_emplace (k v : N) (m : gmap N N) : gmap N N :=
  match m !! k with Some _ => m | None => <[k:=v]> m end.

Section Fetch.
(** [graph_.get_mode()] and [base_graph->get_mode()] *)
Variables mode base_mode : Mode.
(** [canonical_] is set (the graph is a [CanonicalDBG]), the graph is an
    [RCDBG], [boss] is set *)
Variables (canonical_ is_rcdbg has_boss : bool).
(** [map_to_nodes] on the base graph of [spell_path(graph_, path)], node
    by node *)
Variable map_to_canonical : N -> N.
(** [canonical_->get_base_node] *)
Variable get_base_node : N -> N.
(** [!boss->get_W(dbg_succ->kmer_to_boss_index(node))] *)
Variable dummy_W : N -> bool.
(** [annotator_.get_matrix().get_rows], row by row *)
Variable get_row : N -> Columns.
Variable row_batch_size : nat.

Definition is_dummy (node : N) : bool := has_boss && dummy_W node.

(** [push_node_labels] *)
Definition push_node_labels (bf : buffer) (node row : N) (labels : Columns) : buffer :=
  let '(label_i, cs) := cache_column_set labels (column_sets bf) in
  let base_node := anno_to_graph_index row in
  let m := node_to_cols bf in
  mkBuffer
    (if decide (mode = BASIC) then <[node:=label_i]> m
     else if canonical_ then <[base_node:=label_i]> m
     else let m1 := <[node:=label_i]> m in
          if decide (base_node <> node) then try_emplace base_node label_i m1 else m1)
    cs.

(** [fetch_row_batch] without coordinates: the rows are fetched, each
    sorted and pushed with its node *)
Definition fetch_row_batch (bf : buffer) (queued_nodes queued_rows : list N) : buffer :=
  fold_left (fun b '(node, row) =>
               push_node_labels b node row (merge_sort (≤)%N (get_row row)))
    (zip queued_nodes queued_rows) bf.

Record fetch_state := mkFetchState {
  fs_buf : buffer;
  queued_nodes : list N;
  queued_rows : list N }.

(** [base_path] of a queued path *)
Definition compute_base_path (path : list N) : list N :=
  if decide (base_mode = CANONICAL) then map map_to_canonical path
  else if canonical_ then map get_base_node path
  else if is_rcdbg then reverse path else path.

(** the [CANONICAL] branch for [path[i] = n], [base_path[i] = b], before
    the batch-size check *)
Definition canonical_step (s : fetch_state) (n b row : N) : fetch_state :=
  let m := node_to_cols (fs_buf s) in
  let cs := column_sets (fs_buf s) in
  let qn := queued_nodes s in
  let qr := queued_rows s in
  match m !! n, m !! b with
  | None, None =>
      let m1 := <[n:=nannot]> m in
      if decide (n <> b)
      then mkFetchState (mkBuffer (<[b:=nannot]> m1) cs) (qn ++ [n; b]) (qr ++ [row; row])
      else mkFetchState (mkBuffer m1 cs) (qn ++ [n]) (qr ++ [row])
  | None, Some vb =>
      let m1 := <[n:=vb]> m in
      if decide (vb = nannot)
      then mkFetchState (mkBuffer m1 cs) (qn ++ [n]) (qr ++ [row])
      else mkFetchState (mkBuffer m1 cs) qn qr
  | Some va, None => mkFetchState (mkBuffer (<[b:=va]> m) cs) qn qr
  | Some va, Some vb =>
      let label_i := N.min va vb in
      if decide (label_i <> nannot)
      then mkFetchState (mkBuffer (<[b:=label_i]> (<[n:=label_i]> m)) cs) qn qr
      else s
  end.

(** the body of the loop over [i] *)
Definition process_node (s : fetch_state) (n b : N) : fetch_state :=
  let bf := fs_buf s in
  let m := node_to_cols bf in
  let cs := column_sets bf in
  if decide (b = npos) then
    mkFetchState (mkBuffer (try_emplace n 0 m) cs) (queued_nodes s) (queued_rows s)
  else if is_dummy b then
    let m1 := try_emplace b 0 m in
    let m2 := if decide (mode = CANONICAL /\ b <> n) then try_emplace n 0 m1 else m1 in
    mkFetchState (mkBuffer m2 cs) (queued_nodes s) (queued_rows s)
  else
    let row := graph_to_anno_index b in
    if canonical_ || bool_decide (mode = BASIC) then
      match m !! b with
      | Some _ => s
      | None => mkFetchState (mkBuffer (<[b:=nannot]> m) cs)
                  (queued_nodes s ++ [b]) (queued_rows s ++ [row])
      end
    else
      let s' := canonical_step s n b row in
      if decide (row_batch_size <= length (queued_rows s'))
      then mkFetchState (fetch_row_batch (fs_buf s') (queued_nodes s') (queued_rows s')) [] []
      else s'.

Definition process_path (s : fetch_state) (path : list N) : fetch_state :=
  fold_left (fun s '(n, b) => process_node s n b) (zip path (compute_base_path path)) s.

(** [fetch_queued_annotations] on the queued paths *)
Definition fetch_queued_annotations (queued_paths : list (list N)) (bf : buffer) : buffer :=
  let s := fold_left process_path queued_paths (mkFetchState bf [] []) in
  fetch_row_batch (fs_buf s) (queued_nodes s) (queued_rows s).

End Fetch.

(** the column set returned by [get_labels_and_coords] (coordinates are
    not modelled): [None] for a node without an entry or with an
    unfetched one *)
Definition get_labels (canonical_ : bool) (get_base_node : N -> N) (bf : buffer) (node : N)
    : option Columns :=
  let node := if canonical_ then get_base_node node else node in
  match node_to_cols bf !! node with
  | None => None
  | Some v => if (v =? nannot)%N then None else column_sets bf !! N.to_nat v
  end.

End AnnotationBuffer.

(* ------------------------------------------------------------------ *)
(** ** [IntRowDiff::get], [get_column] and [get_rows] *)
(* ------------------------------------------------------------------ *)

Module RowDiffQueries.
Import BitVector RowDiffSerialization IntRowDiff.

(** [std::lower_bound] on a sorted range: the range from the first
    element not less than [j] *)
Fixpoint lower_bound (l : list N) (j : N) : list N :=
  match l with
  | [] => []
  | x :: l' => if (x <? j)%N then lower_bound l' j else l
  end.

(** [v != set_bits.end() && *v == j] for [v = lower_bound(..., j)] *)
Definition found (set_bits : list N) (j : N) : bool :=
  match lower_bound set_bits j with
  | x :: _ => (x =? j)%N
  | [] => false
  end.

Section Queries.
Variable B : Type.
Variable base_get_row : B -> Row -> RowValues.
Variable rd_succ : bv -> Row -> Row.

(** [IntRowDiff::get] *)
Definition get (x : row_diff B) (fuel : nat) (i : Row) (j : N) : option bool :=
  match get_row base_get_row rd_succ x fuel i with
  | Some set_bits => Some (found set_bits j)
  | None => None
  end.

(** the loop of [IntRowDiff::get_column] over the rows [i] *)
Fixpoint column_rows (x : row_diff B) (fuel : nat) (rows : list Row) (j : N)
    : option (list Row) :=
  match rows with
  | [] => Some []
  | i :: rows' =>
      match get x fuel i j, column_rows x fuel rows' j with
      | Some b, Some result => Some (if b then i :: result else result)
      | _, _ => None
      end
  end.

(** [IntRowDiff::get_column], for [num_rows() = n] *)
Definition get_column (x : row_diff B) (fuel : nat) (n : nat) (j : N) : option (list Row) :=
  column_rows x fuel (seq 0 n) j.

(** [IntRowDiff::get_rows]: the columns of every row of [get_row_values] *)
Definition get_rows (x : row_diff B) (fuel : nat) (row_ids : list Row)
    : option (list (list N)) :=
  match get_row_values base_get_row rd_succ x fuel row_ids with
  | Some rows => Some (map (map fst) rows)
  | None => None
  end.

End Queries.

Arguments get {B} base_get_row rd_succ x fuel i j.
Arguments column_rows {B} base_get_row rd_succ x fuel rows j.
Arguments get_column {B} base_get_row rd_succ x fuel n j.
Arguments get_rows {B} base_get_row rd_succ x fuel row_ids.

End RowDiffQueries.

(* ------------------------------------------------------------------ *)
(** ** [TupleRowDiff::add_diff] *)
(* ------------------------------------------------------------------ *)

Module TupleRowDiff.

(** [MultiIntMatrix::Tuple] and [MultiIntMatrix::RowTuples] *)
Definition Tuple := list N.
Definition RowTuples := list (N * Tuple).

Definition SHIFT : N := 1%N.

(** [std::set_symmetric_difference] of two sorted ranges *)
Fixpoint set_symmetric_difference (t1 t2 : Tuple) {struct t1} : Tuple :=
  match t1 with
  | [] => t2
  | x :: t1' =>
      (fix go (t2 : Tuple) : Tuple :=
         match t2 with
         | [] => t1
         | y :: t2' =>
             if (x <? y)%N then x :: set_symmetric_difference t1' t2
             else if (y <? x)%N then y :: go t2'
             else set_symmetric_difference t1' t2'
         end) t2
  end.

(** the merge loop of [add_diff], [it] on [row] and [it2] on [diff],
    followed by the two [std::copy] *)
Fixpoint merge_tuples (row diff : RowTuples) {struct row} : RowTuples :=
  match row with
  | [] => diff
  | (c1, t1) :: row' =>
      (fix go (diff : RowTuples) : RowTuples :=
         match diff with
         | [] => row
         | (c2, t2) :: diff' =>
             if (c1 <? c2)%N then (c1, t1) :: merge_tuples row' diff
             else if (c2 <? c1)%N then (c2, t2) :: go diff'
             else match t2 with
                  | [] => merge_tuples row' diff'
                  | _ => (c1, set_symmetric_difference t1 t2) :: merge_tuples row' diff'
                  end
         end) diff
  end.

(** [c -= SHIFT] on a [uint64_t] *)
Definition unshift (c : N) : N := ((c + (2 ^ 64 - SHIFT)) mod 2 ^ 64)%N.

(** [TupleRowDiff::add_diff(diff, &row)]: the new value of [row] *)
Definition add_diff (diff row : RowTuples) : RowTuples :=
  map (fun '(j, t) => (j, map unshift t))
    (match diff with [] => row | _ => merge_tuples row diff end).

End TupleRowDiff.

(* ------------------------------------------------------------------ *)
(** ** [TupleRowDiff::get_row_tuples] and [get_rows] *)
(* ------------------------------------------------------------------ *)

Module TupleRowDiffQuery.
Import BitVector RowDiffSerialization TupleRowDiff.

(** [operator<] of [std::vector<uint64_t>]: lexicographic *)
Fixpoint tuple_ltb (t1 t2 : Tuple) : bool :=
  match t1, t2 with
  | [], [] => false
  | [], _ :: _ => true
  | _ :: _, [] => false
  | x :: t1', y :: t2' => (x <? y)%N || ((x =? y)%N && tuple_ltb t1' t2')
  end.

(** [operator<] of [std::pair<Column, Tuple>] *)
Definition row_tuple_ltb (p q : N * Tuple) : bool :=
  (p.1 <? q.1)%N || ((p.1 =? q.1)%N && tuple_ltb p.2 q.2).

Fixpoint insert_tuple (p : N * Tuple) (row : RowTuples) : RowTuples :=
  match row with
  | [] => [p]
  | q :: row' => if row_tuple_ltb q p then q :: insert_tuple p row' else p :: row
  end.

(** [std::sort] on a [RowTuples] *)
Fixpoint sort_tuples (row : RowTuples) : RowTuples :=
  match row with
  | [] => []
  | p :: row' => insert_tuple p (sort_tuples row')
  end.

(** [TupleRowDiff::decode_diffs]: no encoding *)
Definition decode_diffs (row : RowTuples) : RowTuples := row.

Section GetRowTuples.
Variable B : Type.
(** [diffs_.get_row_tuples]: the stored row of the base matrix *)
Variable base_get_row_tuples : B -> Row -> RowTuples.
(** Modelled from the spec, as for [IntRowDiff]: the row-diff successor
    of a row, chosen with [fork_succ] (the graph is not part of the
    sources). *)
Variable rd_succ : bv -> Row -> Row.

(** Modelled on the [while (true)] loop of [get_row_tuple_diffs]
    ([IRowDiff::get_rd_ids] is not part of the sources and follows the
    same path): [try_emplace(row, rd_ids.size())], push the index to the
    path, stop at a row reached before or at an anchor, else move to the
    row-diff successor; [fuel] bounds the iterations *)
Fixpoint rd_chain (x : row_diff B) (fuel : nat) (row : Row) (path : list nat)
    (rd_ids : list Row) (node_to_rd : gmap Row nat)
    : option (list nat * list Row * gmap Row nat) :=
  match fuel with
  | 0 => None
  | S f =>
      match node_to_rd !! row with
      | Some k => Some (path ++ [k], rd_ids, node_to_rd)
      | None =>
          let k := length rd_ids in
          if bit (anchor x) row
          then Some (path ++ [k], rd_ids ++ [row], <[row := k]> node_to_rd)
          else rd_chain x f (rd_succ (fork_succ x) row) (path ++ [k]) (rd_ids ++ [row])
                 (<[row := k]> node_to_rd)
      end
  end.

(** [get_rd_ids(row_ids)]: [rd_ids] and the truncated paths
    [rd_paths_trunc], one per query row *)
Fixpoint get_rd_ids_aux (x : row_diff B) (fuel : nat) (row_ids : list Row)
    (rd_ids : list Row) (node_to_rd : gmap Row nat) : option (list Row * list (list nat)) :=
  match row_ids with
  | [] => Some (rd_ids, [])
  | r :: rs =>
      match rd_chain x fuel r [] rd_ids node_to_rd with
      | Some (path, rd_ids', node_to_rd') =>
          match get_rd_ids_aux x fuel rs rd_ids' node_to_rd' with
          | Some (ids, paths) => Some (ids, path :: paths)
          | None => None
          end
      | None => None
      end
  end.

Definition get_rd_ids (x : row_diff B) (fuel : nat) (row_ids : list Row)
    : option (list Row * list (list nat)) :=
  get_rd_ids_aux x fuel row_ids [] ∅.

(** the inner [for] loop over the rest of [rd_paths_trunc[i]], walked from
    its back: [std::sort(rd_rows[*it])], [add_diff(rd_rows[*it], &result)],
    [rd_rows[*it] = result] *)
Fixpoint propagate (idxs : list nat) (result : RowTuples) (rd_rows : list RowTuples)
    : RowTuples * list RowTuples :=
  match idxs with
  | [] => (result, rd_rows)
  | k :: ks =>
      let result' := add_diff (sort_tuples (rd_rows !!! k)) result in
      propagate ks result' (<[k := result']> rd_rows)
  end.

(** the reconstruction loop: for row [i], [it = rd_paths_trunc[i].rbegin()],
    [std::sort(rd_rows[*it])], [result = rd_rows[*it]], then [propagate] *)
Fixpoint reconstruct_tuples (paths : list (list nat)) (rd_rows : list RowTuples)
    : list RowTuples :=
  match paths with
  | [] => []
  | p :: ps =>
      match rev p with
      | [] => [] :: reconstruct_tuples ps rd_rows
      | k :: ks =>
          let first := sort_tuples (rd_rows !!! k) in
          let '(result, rd_rows') := propagate ks first (<[k := first]> rd_rows) in
          result :: reconstruct_tuples ps rd_rows'
      end
  end.

(** [TupleRowDiff::get_row_tuples(row_ids)]; [None] when [fuel] runs out *)
Definition get_row_tuples (x : row_diff B) (fuel : nat) (row_ids : list Row)
    : option (list RowTuples) :=
  match get_rd_ids x fuel row_ids with
  | Some (rd_ids, paths) =>
      let rd_rows := map (fun r => decode_diffs (base_get_row_tuples (diffs x) r)) rd_ids in
      Some (reconstruct_tuples paths rd_rows)
  | None => None
  end.

(** [TupleRowDiff::get_rows]: the columns of every row of [get_row_tuples] *)
Definition get_rows (x : row_diff B) (fuel : nat) (row_ids : list Row)
    : option (list (list N)) :=
  match get_row_tuples x fuel row_ids with
  | Some rows => Some (map (map fst) rows)
  | None => None
  end.

(** [get_row(i)] of the [BinaryMatrix] interface, as [get_rows({i})[0]]
    (the interface is not part of the sources) *)
Definition get_row (x : row_diff B) (fuel : nat) (i : Row) : option (list N) :=
  match get_rows x fuel [i] with
  | Some (row :: _) => Some row
  | _ => None
  end.

(** [TupleRowDiff::get(i, j)] *)
Definition get (x : row_diff B) (fuel : nat) (i : Row) (j : N) : option bool :=
  match get_row x fuel i with
  | Some set_bits => Some (RowDiffQueries.found set_bits j)
  | None => None
  end.

(** the loop of [TupleRowDiff::get_column] over the rows [i]: a row is
    kept when [boss.get_W(edge)] is nonzero ([has_W], the graph is not part
    of the sources) and [get(i, j)] *)
Fixpoint column_rows (has_W : Row -> bool) (x : row_diff B) (fuel : nat) (rows : list Row)
    (j : N) : option (list Row) :=
  match rows with
  | [] => Some []
  | i :: rows' =>
      let here := if has_W i then get x fuel i j else Some false in
      match here, column_rows has_W x fuel rows' j with
      | Some b, Some result => Some (if b then i :: result else result)
      | _, _ => None
      end
  end.

(** [TupleRowDiff::get_column], for [num_rows() = n] *)
Definition get_column (has_W : Row -> bool) (x : row_diff B) (fuel : nat) (n : nat) (j : N)
    : option (list Row) :=
  column_rows has_W x fuel (seq 0 n) j.

End GetRowTuples.

Arguments rd_chain {B} rd_succ x fuel row path rd_ids node_to_rd.
Arguments get_rd_ids_aux {B} rd_succ x fuel row_ids rd_ids node_to_rd.
Arguments get_rd_ids {B} rd_succ x fuel row_ids.
Arguments get_row_tuples {B} base_get_row_tuples rd_succ x fuel row_ids.
Arguments get_rows {B} base_get_row_tuples rd_succ x fuel row_ids.
Arguments get_row {B} base_get_row_tuples rd_succ x fuel i.
Arguments get {B} base_get_row_tuples rd_succ x fuel i j.
Arguments column_rows {B} base_get_row_tuples rd_succ has_W x fuel rows j.
Arguments get_column {B} base_get_row_tuples rd_succ has_W x fuel n j.

(** Modelled from the spec: the row-diff transform of the build for
    coordinate tuples.  An anchor stores its row; another row stores, per
    column, the symmetric difference of the successor's tuple and its own
    tuple shifted by [SHIFT] (a column only in the row stores the shifted
    tuple, a column only in the successor an empty tuple, a column with
    equal tuples nothing). *)
Definition shift (c : N) : N := ((c + SHIFT) mod 2 ^ 64)%N.

Definition shift_row (row : RowTuples) : RowTuples :=
  map (fun '(j, t) => (j, map shift t)) row.

Fixpoint delta_merge (succ_row row : RowTuples) {struct succ_row} : RowTuples :=
  match succ_row with
  | [] => row
  | (c1, t1) :: succ_row' =>
      (fix go (row : RowTuples) : RowTuples :=
         match row with
         | [] => map (fun '(j, _) => (j, [])) succ_row
         | (c2, t2) :: row' =>
             if (c1 <? c2)%N then (c1, []) :: delta_merge succ_row' row
             else if (c2 <? c1)%N then (c2, t2) :: go row'
             else if bool_decide (t1 = t2) then delta_merge succ_row' row'
             else (c1, set_symmetric_difference t1 t2) :: delta_merge succ_row' row'
         end) row
  end.

Definition tuple_delta (succ_row row : RowTuples) : RowTuples :=
  delta_merge succ_row (shift_row row).

Definition tuple_store (T : Row -> RowTuples) (an : bv) (succ : Row -> Row) (r : Row)
    : RowTuples :=
  if bit an r then T r else tuple_delta (T (succ r)) (T r).

End TupleRowDiffQuery.

(* ------------------------------------------------------------------ *)
(** ** [BRWT::get_column_ranks], [num_relations] and the [BFT] statistics *)
(* ------------------------------------------------------------------ *)

Module BRWTQueries.
Import BRWT.

(** [BRWT::get_column_ranks(i)] *)
Fixpoint get_column_ranks (t : brwt) (i : Row) : list (Column * nat) :=
  match t with
  | Node a nz ch =>
      let rk := conditional_rank1 nz i in
      if rk =? 0 then []
      else match ch with
           | [] => [(0%N, rk)]
           | _ =>
               (fix children (cs : list brwt) (k : nat) : list (Column * nat) :=
                  match cs with
                  | [] => []
                  | c :: cs' =>
                      map (fun '(col_id, r) => (assign_get a k col_id, r))
                        (get_column_ranks c (rk - 1)) ++ children cs' (S k)
                  end) ch 0
           end
  end.

(** [BRWT::num_relations] *)
Fixpoint num_relations (t : brwt) : nat :=
  match t with
  | Node _ nz ch =>
      match ch with
      | [] => num_set_bits nz
      | _ => list_sum (map num_relations ch)
      end
  end.

(** the [nodes_queue] loop of [BRWT::BFT]: the nodes in the order the
    callback is called on them ([fuel] bounds the iterations) *)
Fixpoint bft (fuel : nat) (queue : list brwt) : list brwt :=
  match fuel, queue with
  | S f, t :: queue' => t :: bft f (queue' ++ child_nodes t)
  | _, _ => []
  end.

Definition BFT (t : brwt) : list brwt := bft (num_nodes t) [t].

(** [BRWT::num_nodes], [total_column_size] and [total_num_set_bits] as
    computed by [BFT] *)
Definition bft_num_nodes (t : brwt) : nat := length (BFT t).

Definition total_column_size (t : brwt) : nat :=
  list_sum (map (fun node => length (nonzero_rows node)) (BFT t)).

Definition total_num_set_bits (t : brwt) : nat :=
  list_sum (map (fun node => num_set_bits (nonzero_rows node)) (BFT t)).

End BRWTQueries.

(* ------------------------------------------------------------------ *)
(** ** Path boundaries and superbubble accessors of [PathIndex] *)
(* ------------------------------------------------------------------ *)

Module PathIndexStorage.
Import PathIndex.

(** [coord_to_path_id] and [path_id_to_coord]: [rank1] and [select1] on
    [path_boundaries_] *)
Definition coord_to_path_id (path_boundaries : bv) (coord : nat) : nat :=
  rank1 path_boundaries coord.

Definition path_id_to_coord (path_boundaries : bv) (path_id : nat) : nat :=
  select1 path_boundaries path_id.

(** [IPathIndex::path_length] *)
Definition path_length (path_boundaries : bv) (path_id : nat) : N :=
  sub64 (N.of_nat (path_id_to_coord path_boundaries (path_id + 1)))
    (N.of_nat (path_id_to_coord path_boundaries path_id)).

(** [PathIndex::get_superbubble_terminus]: [--path_id] on a [size_t] *)
Definition get_superbubble_terminus (is_superbubble_start : bv) (superbubble_termini : list N)
    (path_id : N) : N * N :=
  let p := sub64 path_id 1 in
  if (p <? N.of_nat (length is_superbubble_start))%N && bit is_superbubble_start (N.to_nat p)
  then (nth (N.to_nat ((p * 2) mod 2 ^ 64)) superbubble_termini 0%N,
        nth (N.to_nat ((p * 2 + 1) mod 2 ^ 64)) superbubble_termini 0%N)
  else (0%N, 0%N).

(** [PathIndex::get_superbubble_and_dist] *)
Definition get_superbubble_and_dist (is_superbubble_start : bv) (superbubble_sources : list N)
    (path_id : N) : N * N :=
  let p := sub64 path_id 1 in
  if (p <? N.of_nat (length is_superbubble_start))%N
  then (nth (N.to_nat ((p * 2) mod 2 ^ 64)) superbubble_sources 0%N,
        nth (N.to_nat ((p * 2 + 1) mod 2 ^ 64)) superbubble_sources 0%N)
  else (0%N, 0%N).

End PathIndexStorage.

(* ================================================================== *)
(** * Proofs *)
(* ================================================================== *)

Module BRWTExamples.
Import BRWT.

(** Scenario 1 of the spec: columns A, B, C, D = 0..3 and rows
    r0 = {A}, r1 = {B, D}, r2 = {}, r3 = {A, C}; A and B under the first
    child, C and D under the second. *)
Definition leaf (v : bv) : brwt := Node (mkAssignments [0] 1) v [].
Definition ex4 : brwt :=
  Node (mkAssignments [0; 0; 1; 1] 2) [true; true; false; true]
    [ Node (mkAssignments [0; 1] 2) [true; true; true]
        [leaf [true; false; true]; leaf [false; true; false]];
      Node (mkAssignments [0; 1] 2) [false; true; true]
        [leaf [false; true]; leaf [true; false]] ].

Example ex4_row1 : get_row ex4 1 = [1%N; 3%N].
Proof. reflexivity. Qed.
Example ex4_colA : get_column ex4 0%N = [0; 3].
Proof. reflexivity. Qed.
Example ex4_rows : get_rows ex4 [3; 2; 1; 0] = [[0%N; 2%N]; []; [1%N; 3%N]; [0%N]].
Proof. vm_compute. reflexivity. Qed.
Example ex4_get : get ex4 3 2%N = true /\ get ex4 2 2%N = false.
Proof. split; reflexivity. Qed.

Example ex4_wf : wf ex4 = true.
Proof. reflexivity. Qed.

End BRWTExamples.

(** a three-row row-diff example: row 0 steps to row 1, every other row to
    row 2, the only anchor *)
Module RowDiffExamples.
Import BitVector IntRowDiff.

Definition ex_L (r : Row) : RowValues :=
  match r with
  | 0 => [(0, 5); (2, 7)]%N
  | 1 => [(0, 3)]%N
  | 2 => [(1, 4); (2, 9)]%N
  | _ => []
  end.

Definition ex_succ (fs : bv) (r : Row) : Row := match r with 0 => 1 | _ => 2 end.

Definition ex_anchor : bv := [false; false; true].

Definition ex_rank (r : Row) : nat := match r with 0 => 2 | 1 => 1 | 2 => 0 | _ => 1 end.

(** coordinate tuples along the path 0 -> 1 -> 2 *)
Definition ex_T (r : Row) : TupleRowDiff.RowTuples :=
  match r with
  | 0 => [(0, [3]); (2, [18]); (3, [7])]%N
  | 1 => [(0, [4]); (2, [19; 29])]%N
  | 2 => [(1, [10]); (2, [20; 30])]%N
  | _ => []
  end.

End RowDiffExamples.

(** Scenario 5 of the spec: unitig 1 sources a superbubble of branches 2
    and 3 (the source 5 long) closed by the terminus 4, 10 further on;
    unitig 5 is unrelated *)
Module PathIndexExamples.

Definition ex_sbd (p : N) : N * N :=
  match p with 2%N | 3%N => (1, 5)%N | 4%N => (1, 15)%N | _ => (0, 0)%N end.

Definition ex_term (p : N) : N * N := match p with 1%N => (4, 15)%N | _ => (0, 0)%N end.

Definition ex_src (p : N) : bool := (p =? 1)%N.

Definition ex_reach (p : N) : bool := (1 <=? p)%N && (p <=? 4)%N.

End PathIndexExamples.

(* ------------------------------------------------------------------ *)
(** ** Facts about the bit-vector operations *)
(* ------------------------------------------------------------------ *)

Module BitVectorFacts.

Lemma length_filter_map {A B} (p : B -> bool) (f : A -> B) (l : list A) :
  length (List.filter p (map f l)) = length (List.filter (fun x => p (f x)) l).
Proof.
  induction l as [|x l IH]; [done|]. simpl.
  destruct (p (f x)); simpl; lia.
Qed.

Lemma length_filter_ext {A} (p q : A -> bool) (l : list A) :
  (forall x, In x l -> p x = q x) ->
  length (List.filter p l) = length (List.filter q l).
Proof.
  induction l as [|x l IH]; intros H; [done|].
  simpl. rewrite (H x (or_introl eq_refl)).
  destruct (q x); simpl; rewrite IH; auto; intros y Hy; apply H; right; done.
Qed.

Lemma length_filter_app {A} (p : A -> bool) (l1 l2 : list A) :
  length (List.filter p (l1 ++ l2)) = length (List.filter p l1) + length (List.filter p l2).
Proof.
  induction l1 as [|x l1 IH]; [done|]. simpl. destruct (p x); simpl; lia.
Qed.

Lemma seq_shift_add (lo n : nat) : seq lo n = map (fun k => lo + k) (seq 0 n).
Proof.
  revert lo. induction n as [|n IH]; intros lo; [done|].
  simpl. rewrite Nat.add_0_r. f_equal. rewrite IH, (IH 1), map_map.
  apply map_ext. intros; lia.
Qed.

Lemma count_take (v : bv) (n : nat) :
  length (List.filter (fun b : bool => b) (take n v)) = cnt v 0 n.
Proof.
  unfold cnt. revert n. induction v as [|b v IH]; intros n.
  - rewrite take_nil. simpl.
    rewrite (length_filter_ext _ (fun _ => false)).
    + clear. induction (seq 0 n); simpl; auto.
    + intros k _. unfold bit. destruct k; done.
  - destruct n as [|n]; [done|]. cbn [take seq].
    rewrite <- seq_shift. cbn [List.filter].
    change (bit (b :: v) 0) with b.
    destruct b; cbn [length]; rewrite length_filter_map;
      change (fun x => bit (b :: v) (S x)) with (fun x => bit v x) || idtac;
      rewrite IH; reflexivity.
Qed.

Lemma rank1_cnt (v : bv) (i : nat) : rank1 v i = cnt v 0 (S i).
Proof. apply count_take. Qed.

Lemma cnt_app (v : bv) (lo n m : nat) : cnt v lo (n + m) = cnt v lo n + cnt v (lo + n) m.
Proof. unfold cnt. rewrite seq_app, length_filter_app. done. Qed.

Lemma cnt_S (v : bv) (lo n : nat) :
  cnt v lo (S n) = cnt v lo n + (if bit v (lo + n) then 1 else 0).
Proof.
  replace (S n) with (n + 1) by lia. rewrite cnt_app. unfold cnt at 2. simpl.
  destruct (bit v (lo + n)); simpl; lia.
Qed.

Lemma rank1_S (v : bv) (i : nat) :
  rank1 v (S i) = rank1 v i + (if bit v (S i) then 1 else 0).
Proof. rewrite !rank1_cnt, cnt_S. done. Qed.

Lemma rank1_pos (v : bv) (i : nat) : bit v i = true -> 1 <= rank1 v i.
Proof.
  intros H. rewrite rank1_cnt, cnt_S. simpl. rewrite H. lia.
Qed.

(** [get_int]: bit [k] of the word is position [i + k] *)
Lemma testbit_get_int (v : bv) (i w k : nat) :
  k < w -> Z.testbit (get_int v i w) (Z.of_nat k) = bit v (i + k).
Proof.
  revert i k. induction w as [|w IH]; intros i k Hk; [lia|].
  simpl get_int. destruct k as [|k].
  - rewrite Nat.add_0_r. simpl Z.of_nat.
    destruct (bit v i).
    + rewrite Z.add_comm. apply Z.testbit_odd_0.
    + rewrite Z.add_0_l. apply Z.testbit_even_0.
  - rewrite Nat2Z.inj_succ.
    replace (i + S k) with (S i + k) by lia.
    rewrite <- (IH (S i) k) by lia.
    destruct (bit v i).
    + rewrite Z.add_comm. apply Z.testbit_odd_succ. lia.
    + rewrite Z.add_0_l. apply Z.testbit_even_succ. lia.
Qed.

Lemma testbit_get_int_high (v : bv) (i w : nat) (k : Z) :
  (Z.of_nat w <= k)%Z -> Z.testbit (get_int v i w) k = false.
Proof.
  revert i k. induction w as [|w IH]; intros i k Hk; [apply Z.bits_0|].
  simpl get_int.
  replace k with (Z.succ (Z.pred k)) by lia.
  assert (0 <= Z.pred k)%Z by lia.
  destruct (bit v i).
  - rewrite Z.add_comm, Z.testbit_odd_succ by lia. apply IH. lia.
  - rewrite Z.add_0_l, Z.testbit_even_succ by lia. apply IH. lia.
Qed.

(** the popcount of the word below [lo_set(off + 1)] counts the set
    positions in [go, go + off] *)
Lemma popcount_window (v : bv) (go off : nat) :
  off < 64 ->
  popcount64 (Z.land (get_int v go 64) (lo_set (off + 1))) = cnt v go (off + 1).
Proof.
  intros Hoff. unfold popcount64, cnt, lo_set.
  replace 64 with ((off + 1) + (64 - (off + 1))) at 1 by lia.
  rewrite seq_app, length_filter_app.
  rewrite (length_filter_ext _ (fun _ => false) (seq (0 + (off + 1)) _)).
  2:{ intros k Hk. apply list_elem_of_In, elem_of_seq in Hk.
      rewrite Z.land_spec, Z.testbit_ones_nonneg by lia.
      replace (Z.of_nat k <? Z.of_nat (off + 1))%Z with false by (symmetry; apply Z.ltb_ge; lia).
      apply andb_false_r. }
  rewrite (seq_shift_add go), length_filter_map.
  assert (Hz : forall l : list nat, length (List.filter (fun _ : nat => false) l) = 0)
    by (induction l; simpl; auto).
  rewrite Hz, Nat.add_0_r.
  apply length_filter_ext. intros k Hk. apply list_elem_of_In, elem_of_seq in Hk.
  rewrite Z.land_spec, Z.testbit_ones_nonneg by lia.
  replace (Z.of_nat k <? Z.of_nat (off + 1))%Z with true by (symmetry; apply Z.ltb_lt; lia).
  rewrite andb_true_r. apply testbit_get_int. lia.
Qed.

End BitVectorFacts.

Module SliceFacts.
Import BRWT BitVectorFacts.

Lemma per_row_spec (nz : bv) (r : Row) :
  per_row nz r = if bit nz r then Some (rank1 nz r - 1) else None.
Proof.
  unfold per_row, conditional_rank1. destruct (bit nz r) eqn:E; [|done].
  pose proof (rank1_pos nz r E). destruct (rank1 nz r =? 0) eqn:E0; [|done].
  apply Nat.eqb_eq in E0. lia.
Qed.

(** One word of the scan: the consumed rows are a prefix of the input and
    each is projected exactly as by the per-row branch. *)
Lemma window_rest_spec (nz : bv) (go : Row) (rs : list Row) (rk : option nat) :
  go + 64 <= length nz ->
  (rk = None \/ rk = Some (cnt nz 0 go)) ->
  exists pre, rs = pre ++ snd (window_rest nz go (get_int nz go 64) rk rs) /\
    fst (window_rest nz go (get_int nz go 64) rk rs) = map (per_row nz) pre.
Proof.
  intros Hlen. remember (get_int nz go 64) as word eqn:Hword.
  revert rk. induction rs as [|r rs IH]; intros rk Hrk.
  - exists []. done.
  - simpl window_rest.
    destruct ((r <? go + 64) && (go <=? r)) eqn:Hin.
    2:{ exists []. done. }
    apply andb_true_iff in Hin as [Hlt Hge].
    apply Nat.ltb_lt in Hlt. apply Nat.leb_le in Hge.
    rewrite Hword, testbit_get_int by lia. rewrite <- Hword.
    replace (go + (r - go)) with r by lia.
    destruct (bit nz r) eqn:Hb.
    + set (rk' := match rk with Some k => k | None => if 0 <? go then rank1 nz (go - 1) else 0 end).
      assert (Hrk' : rk' = cnt nz 0 go).
      { subst rk'. destruct Hrk as [-> | ->]; [|done].
        destruct (0 <? go) eqn:Hg.
        - apply Nat.ltb_lt in Hg. rewrite rank1_cnt. f_equal. lia.
        - apply Nat.ltb_ge in Hg. replace go with 0 by lia. done. }
      destruct (IH (Some rk')) as [pre [Hpre Hout]]; [right; rewrite Hrk'; done|].
      destruct (window_rest nz go word (Some rk') rs) as [outs rest] eqn:Ew.
      cbn [fst snd] in *. exists (r :: pre). split; [rewrite Hpre; done|].
      cbn [map]. rewrite <- Hout, per_row_spec, Hb. do 2 f_equal.
      rewrite Hword, popcount_window by lia. rewrite Hrk', rank1_cnt.
      replace (S r) with (go + (r - go + 1)) by lia. rewrite (cnt_app nz 0 go). reflexivity.
    + destruct (IH rk Hrk) as [pre [Hpre Hout]].
      destruct (window_rest nz go word rk rs) as [outs rest] eqn:Ew.
      cbn [fst snd] in *. exists (r :: pre). split; [rewrite Hpre; done|].
      cbn [map]. rewrite <- Hout, per_row_spec, Hb. done.
Qed.

(** the first row of a word is always consumed *)
Lemma window_rest_head (nz : bv) (go : Row) (word : Z) (rk : option nat) (rs : list Row) :
  length (snd (window_rest nz go word rk (go :: rs))) <= length rs.
Proof.
  assert (Hsuf : forall rk' l, length (snd (window_rest nz go word rk' l)) <= length l).
  { intros rk' l. revert rk'. induction l as [|x l IH]; intros rk'; simpl; [lia|].
    destruct ((x <? go + 64) && (go <=? x)); [|simpl; lia].
    destruct (Z.testbit word (Z.of_nat (x - go))).
    - destruct (window_rest nz go word _ l) as [o r] eqn:E.
      specialize (IH (Some match rk' with Some k => k | None => if 0 <? go then rank1 nz (go - 1) else 0 end)).
      rewrite E in IH. simpl in *. lia.
    - specialize (IH rk'). destruct (window_rest nz go word rk' l) as [o r] eqn:E.
      simpl in *. lia. }
  simpl. replace ((go <? go + 64) && (go <=? go)) with true
    by (symmetry; apply andb_true_iff; split; [apply Nat.ltb_lt | apply Nat.leb_le]; lia).
  destruct (Z.testbit word (Z.of_nat (go - go))).
  - destruct (window_rest nz go word _ rs) as [o r] eqn:E.
    pose proof (Hsuf (Some match rk with Some k => k | None => if 0 <? go then rank1 nz (go - 1) else 0 end) rs) as H.
    rewrite E in H. exact H.
  - pose proof (Hsuf rk rs) as H. destruct (window_rest nz go word rk rs) as [o r] eqn:E.
    exact H.
Qed.

Lemma project_rows_aux_spec (fuel : nat) (nz : bv) (rs : list Row) :
  length rs <= fuel ->
  fst (project_rows_aux fuel nz rs) = map (per_row nz) rs.
Proof.
  revert rs. induction fuel as [|f IH]; intros rs Hf.
  - destruct rs; [done | simpl in Hf; lia].
  - destruct rs as [|go rs']; [done|]. cbn [project_rows_aux length] in *.
    destruct (window_ok nz go rs') eqn:Hw.
    + assert (Hlen : go + 64 <= length nz).
      { unfold window_ok in Hw. destruct (nth_error rs' 3); [|done].
        apply andb_true_iff in Hw as [_ Hw]. apply Nat.leb_le in Hw. done. }
      destruct (window_rest_spec nz go (go :: rs') None Hlen (or_introl eq_refl))
        as [pre [Hpre Hout]].
      pose proof (window_rest_head nz go (get_int nz go 64) None rs') as Hhd.
      destruct (window_rest nz go (get_int nz go 64) None (go :: rs')) as [outs rest].
      cbn [fst snd] in *.
      specialize (IH rest ltac:(lia)).
      destruct (project_rows_aux f nz rest) as [outs' n]. cbn [fst snd] in *.
      rewrite Hout, IH, Hpre, map_app. done.
    + specialize (IH rs' ltac:(lia)).
      destruct (project_rows_aux f nz rs') as [outs' n]. cbn [fst snd] in *.
      rewrite IH. done.
Qed.

Lemma project_rows_spec (nz : bv) (rs : list Row) :
  fst (project_rows nz rs) = map (per_row nz) rs.
Proof. apply project_rows_aux_spec. done. Qed.

(** [window_rest] consumes exactly the maximal run of rows inside
    [[go, go + 64)] *)
Lemma window_rest_split (nz : bv) (go : Row) (word : Z) (rk : option nat) (l : list Row) :
  exists pre, l = pre ++ snd (window_rest nz go word rk l) /\
    Forall (fun r => go <= r < go + 64) pre /\
    (forall r rest', snd (window_rest nz go word rk l) = r :: rest' -> ~ (go <= r < go + 64)).
Proof.
  revert rk. induction l as [|x l IH]; intros rk.
  - exists []. split; [done|]. split; [constructor|]. intros r rest' H. discriminate.
  - simpl window_rest. destruct ((x <? go + 64) && (go <=? x)) eqn:Hin.
    + apply andb_true_iff in Hin as [Hlt Hge].
      apply Nat.ltb_lt in Hlt. apply Nat.leb_le in Hge.
      destruct (Z.testbit word (Z.of_nat (x - go))).
      * set (rk' := match rk with Some k => k | None => if 0 <? go then rank1 nz (go - 1) else 0 end).
        destruct (IH (Some rk')) as (pre & Hl & Hf & Hr).
        destruct (window_rest nz go word (Some rk') l) as [o r] eqn:E. cbn [snd] in *.
        exists (x :: pre). split; [rewrite Hl at 1; done|]. split; [constructor; [lia|done]|].
        exact Hr.
      * destruct (IH rk) as (pre & Hl & Hf & Hr).
        destruct (window_rest nz go word rk l) as [o r] eqn:E. cbn [snd] in *.
        exists (x :: pre). split; [rewrite Hl at 1; done|]. split; [constructor; [lia|done]|].
        exact Hr.
    + exists []. cbn [snd]. split; [done|]. split; [constructor|].
      intros r rest' [= -> ->] Hr. apply andb_false_iff in Hin as [H | H].
      * apply Nat.ltb_ge in H. lia.
      * apply Nat.leb_gt in H. lia.
Qed.

Lemma project_rows_aux_blocks (fuel : nat) (nz : bv) (rs : list Row) :
  length rs <= fuel ->
  scan_blocks nz rs (fst (project_rows_aux fuel nz rs)) (snd (project_rows_aux fuel nz rs)).
Proof.
  revert rs. induction fuel as [|f IH]; intros rs Hf.
  - destruct rs; [constructor | simpl in Hf; lia].
  - destruct rs as [|go rs']; [constructor|]. cbn [project_rows_aux length] in *.
    destruct (window_ok nz go rs') eqn:Hw.
    + pose proof (window_rest_head nz go (get_int nz go 64) None rs') as Hhd.
      destruct (window_rest_split nz go (get_int nz go 64) None (go :: rs'))
        as (pre_all & Hsplit & Hin & Hout).
      destruct (window_rest nz go (get_int nz go 64) None (go :: rs')) as [outs rest] eqn:EW.
      cbn [fst snd] in *.
      destruct pre_all as [|p pre].
      { cbn in Hsplit. rewrite <- Hsplit in Hhd. cbn in Hhd. lia. }
      injection Hsplit as <- Hrs'. inversion Hin as [|? ? Hp Hpre]; subst.
      specialize (IH rest ltac:(rewrite length_app in Hf; lia)).
      destruct (project_rows_aux f nz rest) as [outs' reads]. cbn [fst snd] in *.
      replace outs with (fst (window_rest nz go (get_int nz go 64) None (go :: pre ++ rest)))
        by (rewrite EW; done).
      apply blocks_word; done.
    + specialize (IH rs' ltac:(lia)).
      destruct (project_rows_aux f nz rs') as [outs' reads]. cbn [fst snd] in *.
      apply blocks_row; done.
Qed.

Lemma project_rows_blocks (nz : bv) (rs : list Row) :
  scan_blocks nz rs (fst (project_rows nz rs)) (snd (project_rows nz rs)).
Proof. apply project_rows_aux_blocks. done. Qed.

End SliceFacts.

Module SliceWindowClaims.
Import BRWT SliceFacts.

(** C6 (counterexample): four consecutive rows inside one 64-bit window
    do not make [slice_rows] read the word: with [nonzero_rows] all ones
    over 128 positions and rows [0; 1; 2; 3; 100], rows 0..3 lie in the
    window [[0, 64)], yet no [get_int] call is made (the guard looks at
    [row_ids[i + 4]], a fifth row). *)
Lemma four_rows_no_word_read :
  ~ (forall nz rs, four_in_window nz rs -> snd (project_rows nz rs) <> []).
Proof.
  intros H.
  assert (Hw : four_in_window (repeat true 128) [0; 1; 2; 3; 100]).
  { exists [], 0, 1, 2, 3, [100]. split; [done|]. split.
    - repeat constructor; lia.
    - rewrite repeat_length. lia. }
  specialize (H _ _ Hw). vm_compute in H. apply H. reflexivity.
Qed.

(** C6 (amended): the run of the outer loop of [slice_rows] splits the
    input rows into blocks ([scan_blocks]).  At every row [row_ids[i] = go]
    where the loop stands (the first row, the row after a per-row step,
    the first row after a word's run), the word branch is taken exactly
    when a fifth row [row_ids[i + 4]] exists, lies in [[go, go + 64)], and
    [go + 64 <= nonzero_rows.size()] ([window_ok]); the word is then read
    with [get_int(go, 64)] and serves [go] and every following row as long
    as they stay in [[go, go + 64)], their projections being computed from
    the word by [window_rest] (popcount of the low mask).  Otherwise the
    row takes the per-row branch.  The words read are exactly those of the
    word blocks.  Whichever branch runs, the projected rows are those of
    the per-row [conditional_rank1] branch: [Some (rank1 r - 1)] for a row
    whose filter bit is set and [None] (skipped) otherwise. *)
Theorem window_scan_projection (nz : bv) (rs : list Row) :
  scan_blocks nz rs (fst (project_rows nz rs)) (snd (project_rows nz rs)) /\
  fst (project_rows nz rs) = map (per_row nz) rs /\
  (forall r, per_row nz r = if bit nz r then Some (rank1 nz r - 1) else None).
Proof.
  split; [apply project_rows_blocks|].
  split; [apply project_rows_spec | apply per_row_spec].
Qed.

(** witness for claim C6: with [nonzero_rows] all ones over 128 positions
    and rows [70; 0; 1; 2; 3; 4; 100], the loop takes the per-row branch at
    row 70, reads the word at 0 at the second position, serves rows 0..4
    from it and resumes at row 100 *)
Lemma window_scan_projection_witness :
  snd (project_rows (repeat true 128) [70; 0; 1; 2; 3; 4; 100]) = [0] /\
  scan_blocks (repeat true 128) [70; 0; 1; 2; 3; 4; 100]
    (fst (project_rows (repeat true 128) [70; 0; 1; 2; 3; 4; 100]))
    (snd (project_rows (repeat true 128) [70; 0; 1; 2; 3; 4; 100])).
Proof.
  split; [vm_compute; reflexivity|].
  apply (proj1 (window_scan_projection (repeat true 128) [70; 0; 1; 2; 3; 4; 100])).
Defined.

End SliceWindowClaims.

(* ------------------------------------------------------------------ *)
(** ** Rank, select and [call_ones] *)
(* ------------------------------------------------------------------ *)

Module RankSelectFacts.
Import BitVectorFacts.

Lemma rank1_cons_0 (b : bool) (v : bv) : rank1 (b :: v) 0 = if b then 1 else 0.
Proof. unfold rank1. destruct b; reflexivity. Qed.

Lemma rank1_cons_S (b : bool) (v : bv) (i : nat) :
  rank1 (b :: v) (S i) = (if b then 1 else 0) + rank1 v i.
Proof. unfold rank1. destruct b; reflexivity. Qed.

Lemma bit_lt_length (v : bv) (i : nat) : bit v i = true -> i < length v.
Proof.
  unfold bit. intros H. destruct (decide (i < length v)); [done|].
  rewrite nth_overflow in H by lia. done.
Qed.

Lemma num_set_bits_cons (b : bool) (v : bv) :
  num_set_bits (b :: v) = (if b then 1 else 0) + num_set_bits v.
Proof. unfold num_set_bits. destruct b; reflexivity. Qed.

Lemma num_set_bits_zero (v : bv) (i : nat) : num_set_bits v = 0 -> bit v i = false.
Proof.
  revert i. induction v as [|b v IH]; intros i H; [unfold bit; destruct i; done|].
  rewrite num_set_bits_cons in H. destruct b; [lia|].
  destruct i; [done|]. apply IH. done.
Qed.

Lemma num_set_bits_le (v : bv) : num_set_bits v <= length v.
Proof.
  induction v as [|b v IH]; [done|]. rewrite num_set_bits_cons. simpl.
  destruct b; lia.
Qed.

(** a vector with all bits set *)
Lemma all_ones_rank (v : bv) (i : nat) :
  num_set_bits v = length v -> i < length v -> bit v i = true /\ rank1 v i = S i.
Proof.
  revert i. induction v as [|b v IH]; intros i Hn Hi; [simpl in Hi; lia|].
  rewrite num_set_bits_cons in Hn. simpl in Hn, Hi.
  pose proof (num_set_bits_le v).
  destruct b; [|lia].
  destruct i as [|i].
  - rewrite rank1_cons_0. done.
  - rewrite rank1_cons_S. destruct (IH i) as [H1 H2]; [lia|lia|].
    split; [done|]. lia.
Qed.

Lemma select1_from_shift (v : bv) (pos r : nat) :
  select1_from v (S pos) r = S (select1_from v pos r).
Proof.
  revert pos r. induction v as [|b v IH]; intros pos r; [done|].
  simpl. destruct b; [destruct (r =? 1)|]; auto.
Qed.

(** [select1(r)] for [1 <= r <= num_set_bits] is a set position of rank [r] *)
Lemma select1_spec (v : bv) (r : nat) :
  1 <= r <= num_set_bits v ->
  bit v (select1 v r) = true /\ rank1 v (select1 v r) = r.
Proof.
  unfold select1. revert r. induction v as [|b v IH]; intros r Hr;
    [unfold num_set_bits in Hr; simpl in Hr; lia|].
  rewrite num_set_bits_cons in Hr. simpl.
  destruct b.
  - destruct (r =? 1) eqn:E.
    + apply Nat.eqb_eq in E. subst. rewrite rank1_cons_0. done.
    + apply Nat.eqb_neq in E. rewrite select1_from_shift.
      destruct (IH (pred r)) as [H1 H2]; [lia|].
      rewrite rank1_cons_S. split; [exact H1|]. lia.
  - rewrite select1_from_shift. destruct (IH r) as [H1 H2]; [lia|].
    rewrite rank1_cons_S. split; [exact H1|]. lia.
Qed.

Lemma select1_rank1 (v : bv) (q : nat) :
  bit v q = true -> select1 v (rank1 v q) = q.
Proof.
  unfold select1. revert q. induction v as [|b v IH]; intros q Hq;
    [unfold bit in Hq; destruct q; done|].
  destruct q as [|q].
  - unfold bit in Hq. simpl in Hq. subst b. rewrite rank1_cons_0. done.
  - unfold bit in Hq. simpl in Hq. fold (bit v q) in Hq.
    pose proof (rank1_pos v q Hq).
    rewrite rank1_cons_S. simpl. destruct b.
    + replace (1 + rank1 v q =? 1) with false by (symmetry; apply Nat.eqb_neq; lia).
      rewrite select1_from_shift. f_equal. replace (pred (1 + rank1 v q)) with (rank1 v q) by lia.
      apply IH. done.
    + rewrite select1_from_shift. f_equal. apply IH. done.
Qed.

Lemma rank1_le_num_set_bits (v : bv) (i : nat) : rank1 v i <= num_set_bits v.
Proof.
  revert i. induction v as [|b v IH]; intros i; [unfold rank1; rewrite take_nil; done|].
  rewrite num_set_bits_cons. destruct i as [|i].
  - rewrite rank1_cons_0. destruct b; lia.
  - rewrite rank1_cons_S. specialize (IH i). destruct b; lia.
Qed.

Lemma in_ones_from (v : bv) (pos r : nat) :
  In r (ones_from v pos) <-> pos <= r /\ bit v (r - pos) = true.
Proof.
  revert pos. induction v as [|b v IH]; intros pos.
  - simpl. split; [done|]. intros [_ H]. unfold bit in H. destruct (r - pos); done.
  - simpl. assert (Hb : forall k, bit (b :: v) (S k) = bit v k) by done.
    destruct b.
    + simpl. rewrite IH. split.
      * intros [<- | [H1 H2]]; [rewrite Nat.sub_diag; split; [lia | done]|].
        split; [lia|]. replace (r - pos) with (S (r - S pos)) by lia. rewrite Hb. done.
      * intros [H1 H2]. destruct (decide (r = pos)) as [->|Hne]; [left; done|].
        right. split; [lia|]. replace (r - pos) with (S (r - S pos)) in H2 by lia.
        rewrite Hb in H2. done.
    + rewrite IH. split.
      * intros [H1 H2]. split; [lia|]. replace (r - pos) with (S (r - S pos)) by lia.
        rewrite Hb. done.
      * intros [H1 H2]. destruct (decide (r = pos)) as [->|Hne].
        { rewrite Nat.sub_diag in H2. done. }
        split; [lia|]. replace (r - pos) with (S (r - S pos)) in H2 by lia.
        rewrite Hb in H2. done.
Qed.

Lemma in_call_ones (v : bv) (r : nat) : In r (call_ones v) <-> bit v r = true.
Proof.
  unfold call_ones. rewrite in_ones_from. rewrite Nat.sub_0_r. split; [tauto|].
  intros H. split; [lia | done].
Qed.

End RankSelectFacts.

(* ------------------------------------------------------------------ *)
(** ** Laws of the column assignments *)
(* ------------------------------------------------------------------ *)

Module AssignmentFacts.
Import BitVectorFacts.

Lemma get_in_group_shift (gs : list nat) (g k pos : nat) :
  get_in_group gs g k (S pos) = S (get_in_group gs g k pos).
Proof.
  revert k pos. induction gs as [|g' gs IH]; intros k pos; [done|].
  simpl. destruct (g' =? g); [destruct (k =? 0)|]; auto.
Qed.

Lemma get_in_group_group_rank (gs : list nat) (c : nat) :
  c < length gs ->
  get_in_group gs (nth c gs 0)
    (length (List.filter (fun g => g =? nth c gs 0) (take c gs))) 0 = c.
Proof.
  revert c. induction gs as [|g gs IH]; intros c Hc; [simpl in Hc; lia|].
  destruct c as [|c].
  - simpl. rewrite Nat.eqb_refl. done.
  - simpl in Hc |- *. specialize (IH c ltac:(lia)).
    destruct (g =? nth c gs 0) eqn:E; simpl.
    + rewrite get_in_group_shift, IH. done.
    + rewrite get_in_group_shift, IH. done.
Qed.

Lemma get_in_group_spec (gs : list nat) (j k : nat) :
  k < length (List.filter (fun g => g =? j) gs) ->
  get_in_group gs j k 0 < length gs /\
  nth (get_in_group gs j k 0) gs 0 = j /\
  length (List.filter (fun g => g =? nth (get_in_group gs j k 0) gs 0)
            (take (get_in_group gs j k 0) gs)) = k.
Proof.
  revert k. induction gs as [|g gs IH]; intros k Hk; [simpl in Hk; lia|].
  simpl in Hk |- *. destruct (g =? j) eqn:E.
  - apply Nat.eqb_eq in E. subst g. simpl in Hk. destruct (k =? 0) eqn:Ek.
    + apply Nat.eqb_eq in Ek. subst. simpl. split; [lia|]. done.
    + apply Nat.eqb_neq in Ek. rewrite get_in_group_shift.
      destruct (IH (pred k)) as [H1 [H2 H3]]; [lia|].
      simpl. split; [lia|]. rewrite H2. split; [done|].
      simpl. rewrite Nat.eqb_refl. simpl. rewrite H2 in H3. rewrite H3. lia.
  - rewrite get_in_group_shift. destruct (IH k) as [H1 [H2 H3]]; [done|].
    simpl. split; [lia|]. rewrite H2. split; [done|].
    simpl. rewrite H2 in H3. rewrite E. done.
Qed.

Lemma rank_lt_count (gs : list nat) (c : nat) :
  c < length gs ->
  length (List.filter (fun g => g =? nth c gs 0) (take c gs))
  < length (List.filter (fun g => g =? nth c gs 0) gs).
Proof.
  intros Hc. rewrite <- (take_drop c gs) at 2.
  rewrite length_filter_app.
  destruct (drop c gs) as [|x l] eqn:E.
  - apply (f_equal length) in E. rewrite length_drop in E. simpl in E. lia.
  - assert (x = nth c gs 0).
    { rewrite <- (take_drop c gs), app_nth2; rewrite length_take; [|lia].
      rewrite E. replace (c - c `min` length gs) with 0 by lia. done. }
    subst x. simpl. rewrite Nat.eqb_refl. simpl. lia.
Qed.

Lemma assign_get_group_rank (a : Assignments) (c : Column) :
  N.to_nat c < assign_size a -> assign_get a (group a c) (rank a c) = c.
Proof.
  intros H. unfold rank, assign_get, group. rewrite Nat2N.id.
  rewrite get_in_group_group_rank by done. apply N2Nat.id.
Qed.

Lemma assign_get_spec (a : Assignments) (j : nat) (k : Column) :
  N.to_nat k < count_group a j ->
  N.to_nat (assign_get a j k) < assign_size a /\
  group a (assign_get a j k) = j /\ rank a (assign_get a j k) = k.
Proof.
  intros H. unfold count_group in H.
  destruct (get_in_group_spec (assign_groups a) j (N.to_nat k) H) as [H1 [H2 H3]].
  unfold rank, assign_get, group, assign_size.
  remember (N.to_nat (N.of_nat (get_in_group (assign_groups a) j (N.to_nat k) 0))) as q eqn:Hq.
  rewrite Nat2N.id in Hq. subst q.
  split; [done|]. split; [done|]. rewrite H3. apply N2Nat.id.
Qed.

Lemma rank_lt_count_group (a : Assignments) (c : Column) :
  N.to_nat c < assign_size a -> N.to_nat (rank a c) < count_group a (group a c).
Proof.
  intros H. unfold rank, count_group, group. rewrite Nat2N.id.
  apply rank_lt_count. done.
Qed.

End AssignmentFacts.

(* ------------------------------------------------------------------ *)
(** ** Structure of BRWT nodes *)
(* ------------------------------------------------------------------ *)

Module BRWTStructure.
Import BRWT AssignmentFacts.

(** induction over the tree, with the hypothesis for every child *)
Lemma brwt_ind' (P : brwt -> Prop) :
  (forall a nz ch, Forall P ch -> P (Node a nz ch)) -> forall t, P t.
Proof.
  intros H. fix IH 1. intros [a nz ch]. apply H.
  induction ch as [|c ch IHch]; constructor; [apply IH | exact IHch].
Qed.

Lemma fix_child_eq {B} (g : brwt -> B) (d : B) (cs : list brwt) (k : nat) :
  (fix child (cs : list brwt) (k : nat) : B :=
     match cs, k with
     | c :: _, 0 => g c
     | _ :: cs', S k' => child cs' k'
     | [], _ => d
     end) cs k = match cs !! k with Some c => g c | None => d end.
Proof.
  revert k. induction cs as [|c cs IH]; intros k; [done|]. destruct k; [done|].
  simpl. apply IH.
Qed.

Lemma fix_concat_eq {B} (f : nat -> brwt -> list B) (cs : list brwt) (j : nat) :
  (fix children (cs : list brwt) (k : nat) : list B :=
     match cs with
     | [] => []
     | c :: cs' => f k c ++ children cs' (S k)
     end) cs j = concat (imap (fun i c => f (j + i) c) cs).
Proof.
  revert j. induction cs as [|c cs IH]; intros j; [done|].
  rewrite imap_cons. simpl. rewrite Nat.add_0_r, IH. f_equal. f_equal.
  apply imap_ext. intros i x _. simpl. f_equal. lia.
Qed.

Lemma fix_map_eq {B} (f : nat -> brwt -> B) (cs : list brwt) (j : nat) :
  (fix children (cs : list brwt) (k : nat) : list B :=
     match cs with
     | [] => []
     | c :: cs' => f k c :: children cs' (S k)
     end) cs j = imap (fun i c => f (j + i) c) cs.
Proof.
  revert j. induction cs as [|c cs IH]; intros j; [done|].
  rewrite imap_cons. simpl. rewrite Nat.add_0_r, IH. f_equal.
  apply imap_ext. intros i x _. simpl. f_equal. lia.
Qed.

Lemma fix_all_eq (f : nat -> brwt -> bool) (cs : list brwt) (j : nat) :
  (fix all_children (cs : list brwt) (k : nat) : bool :=
     match cs with
     | [] => true
     | c :: cs' => f k c && all_children cs' (S k)
     end) cs j = true <-> forall i c, cs !! i = Some c -> f (j + i) c = true.
Proof.
  revert j. induction cs as [|c cs IH]; intros j; [split; [intros _ i c H; done | done]|].
  simpl. rewrite andb_true_iff, IH. split.
  - intros [H1 H2] i c' Hi. destruct i as [|i].
    + simpl in Hi. injection Hi as <-. rewrite Nat.add_0_r. done.
    + simpl in Hi. rewrite <- (H2 i c' Hi). f_equal. lia.
  - intros H. split; [rewrite <- (Nat.add_0_r j); apply (H 0); done|].
    intros i c' Hi. rewrite <- (H (S i) c' Hi). f_equal. lia.
Qed.

Lemma get_node (a : Assignments) (nz : bv) (ch : list brwt) (row : Row) (col : Column) :
  get (Node a nz ch) row col =
  match ch with
  | [] => bit nz row
  | _ => if conditional_rank1 nz row =? 0 then false
         else match ch !! group a col with
              | Some c => get c (conditional_rank1 nz row - 1) (rank a col)
              | None => false
              end
  end.
Proof.
  destruct ch as [|c0 ch]; [done|]. cbn [get].
  destruct (conditional_rank1 nz row =? 0); [done|].
  exact (fix_child_eq (fun c => get c (conditional_rank1 nz row - 1) (rank a col))
           false (c0 :: ch) (group a col)).
Qed.

Lemma get_row_node (a : Assignments) (nz : bv) (ch : list brwt) (row : Row) :
  get_row (Node a nz ch) row =
  if negb (bit nz row) then []
  else match ch with
       | [] => [0%N]
       | _ => concat (imap (fun k c => map (assign_get a k) (get_row c (rank1 nz row - 1))) ch)
       end.
Proof.
  destruct ch as [|c0 ch]; cbn [get_row]; [done|].
  destruct (negb (bit nz row)); [done|].
  exact (fix_concat_eq (fun k c => map (assign_get a k) (get_row c (rank1 nz row - 1)))
           (c0 :: ch) 0).
Qed.

Lemma get_column_node (a : Assignments) (nz : bv) (ch : list brwt) (col : Column) :
  get_column (Node a nz ch) col =
  if num_set_bits nz =? 0 then []
  else match ch with
       | [] => call_ones nz
       | _ =>
           let rows := match ch !! group a col with
                       | Some c => get_column c (rank a col)
                       | None => []
                       end in
           if num_set_bits nz =? length nz then rows
           else map (fun r => select1 nz (r + 1)) rows
       end.
Proof.
  destruct ch as [|c0 ch]; cbn [get_column]; [done|].
  destruct (num_set_bits nz =? 0); [done|].
  rewrite (fix_child_eq (fun c => get_column c (rank a col)) [] (c0 :: ch) (group a col)).
  done.
Qed.

Lemma slice_rows_node (a : Assignments) (nz : bv) (ch : list brwt) (row_ids : list Row) :
  ch <> [] ->
  slice_rows (Node a nz ch) row_ids =
  let outs := fst (project_rows nz row_ids) in
  match omap id outs with
  | [] => repeat delim (length row_ids)
  | child_row_ids =>
      merge_rows (map skip_of outs)
        (imap (fun j c => map (fun v => if (v =? delim)%N then v else assign_get a j v)
                               (slice_rows c child_row_ids)) ch)
  end.
Proof.
  intros Hch. destruct ch as [|c0 ch]; [done|]. cbn [slice_rows]. cbv zeta.
  destruct (omap id (fst (project_rows nz row_ids))) as [|x xs]; [done|].
  f_equal.
  exact (fix_map_eq (fun j c => map (fun v => if (v =? delim)%N then v else assign_get a j v)
                                   (slice_rows c (x :: xs))) (c0 :: ch) 0).
Qed.

(** what [wf] says about one node *)
Lemma wf_node (a : Assignments) (nz : bv) (ch : list brwt) :
  wf (Node a nz ch) = true <->
  (N.of_nat (assign_size a) < delim)%N /\
  match ch with
  | [] => assign_size a = 1
  | _ => length ch = assign_num_groups a /\
         (forall c, N.to_nat c < assign_size a -> group a c < assign_num_groups a) /\
         (forall j c, ch !! j = Some c ->
            wf c = true /\ num_rows c = num_set_bits nz /\ num_columns c = count_group a j)
  end.
Proof.
  cbn [wf].
  match goal with |- context [ ?F ch 0 ] => remember (F ch 0) as ac eqn:Hac end.
  rewrite andb_true_iff, N.ltb_lt.
  destruct ch as [|c0 ch]; [rewrite Nat.eqb_eq; done|].
  rewrite !andb_true_iff, Nat.eqb_eq, forallb_forall.
  assert (Hall : ac = true <-> forall i c, (c0 :: ch) !! i = Some c ->
            (wf c && (num_rows c =? num_set_bits nz)
             && (num_columns c =? count_group a (0 + i))) = true).
  { subst ac. apply (fix_all_eq (fun j c => wf c && (num_rows c =? num_set_bits nz)
                                      && (num_columns c =? count_group a j)) (c0 :: ch) 0). }
  rewrite Hall. clear Hall Hac.
  assert (Hg : (forall x, In x (assign_groups a) -> (x <? assign_num_groups a) = true) <->
               (forall c, N.to_nat c < assign_size a -> group a c < assign_num_groups a)).
  { split.
    - intros H c Hc. apply Nat.ltb_lt, H. unfold group. apply nth_In. done.
    - intros H x Hx. apply Nat.ltb_lt.
      apply In_nth with (d := 0) in Hx as [n [Hn <-]].
      specialize (H (N.of_nat n)). unfold group in H. rewrite Nat2N.id in H. apply H. done. }
  rewrite Hg. clear Hg.
  split.
  - intros [Hd [[Hl Hgr] Hc]]. split; [done|]. split; [done|]. split; [done|].
    intros j c Hj. specialize (Hc j c Hj). simpl in Hc.
    rewrite !andb_true_iff, !Nat.eqb_eq in Hc. tauto.
  - intros [Hd [Hl [Hgr Hc]]]. split; [done|]. split; [split; done|].
    intros j c Hj. specialize (Hc j c Hj). simpl.
    rewrite !andb_true_iff, !Nat.eqb_eq. tauto.
Qed.

End BRWTStructure.

(* ------------------------------------------------------------------ *)
(** ** Slices: splitting and merging at the delimiters *)
(* ------------------------------------------------------------------ *)

Module SliceListFacts.
Import BRWT.

Lemma in_concat_imap {A B} (f : nat -> A -> list B) (l : list A) (x : B) :
  In x (concat (imap f l)) <-> exists i y, l !! i = Some y /\ In x (f i y).
Proof.
  rewrite in_concat. split.
  - intros [s [Hs Hx]]. apply list_elem_of_In, elem_of_lookup_imap in Hs as [i [y [-> Hi]]].
    exists i, y. done.
  - intros [i [y [Hi Hx]]]. exists (f i y). split; [|done].
    apply list_elem_of_In, elem_of_lookup_imap. exists i, y. done.
Qed.

Lemma map_imap {A B C} (g : B -> C) (f : nat -> A -> B) (l : list A) :
  map g (imap f l) = imap (fun i x => g (f i x)) l.
Proof.
  revert f. induction l as [|x l IH]; intros f; [done|].
  rewrite !imap_cons. simpl. rewrite IH. done.
Qed.

Lemma split_segment_app (l rest : list Column) :
  (forall v, In v l -> v <> delim) -> split_segment (l ++ delim :: rest) = (l, rest).
Proof.
  induction l as [|v l IH]; intros H; simpl; [rewrite ?N.eqb_refl; done|].
  replace (v =? delim)%N with false by (symmetry; apply N.eqb_neq, H; left; done).
  rewrite IH; [done|]. intros w Hw. apply H. right. done.
Qed.

Lemma split_rows_concat {A} (g : A -> list Column) (rs : list A) :
  (forall r v, In v (g r) -> v <> delim) ->
  split_rows (length rs) (concat (map (fun r => g r ++ [delim]) rs)) = map g rs.
Proof.
  intros H. induction rs as [|r rs IH]; [done|]. simpl.
  rewrite <- app_assoc. simpl. rewrite split_segment_app by apply H. rewrite IH. done.
Qed.

Lemma split_segments {P} (seg G : P -> list Column) (ps : list P) :
  (forall p v, In p ps -> In v (seg p) -> v <> delim) ->
  map split_segment (map (fun p => (seg p ++ [delim]) ++ G p) ps)
  = map (fun p => (seg p, G p)) ps.
Proof.
  intros H. induction ps as [|p ps IH]; [done|]. simpl.
  rewrite <- app_assoc. simpl.
  rewrite split_segment_app by (intros v Hv; apply (H p v); [left | ]; done).
  rewrite IH; [done|]. intros q v Hq. apply H. right. done.
Qed.

Lemma merge_rows_some (skip : list bool) (pos : list (list Column)) :
  merge_rows (false :: skip) pos =
  concat (map fst (map split_segment pos)) ++ delim :: merge_rows skip (map snd (map split_segment pos)).
Proof. reflexivity. Qed.

(** [merge_rows] over children whose slices consist of one delimited
    segment per child row *)
Lemma merge_rows_segments {P} (seg : P -> Row -> list Column) (ps : list P)
    (outs : list (option Row)) :
  (forall p x v, In p ps -> In v (seg p x) -> v <> delim) ->
  merge_rows (map skip_of outs)
    (map (fun p => concat (map (fun x => seg p x ++ [delim]) (omap id outs))) ps)
  = concat (map (fun o => match o with
                          | Some x => concat (map (fun p => seg p x) ps)
                          | None => []
                          end ++ [delim]) outs).
Proof.
  intros Hseg. induction outs as [|[x|] outs IH]; [done| |].
  - change (map skip_of (Some x :: outs)) with (false :: map skip_of outs).
    change (omap id (Some x :: outs)) with (x :: omap id outs).
    rewrite merge_rows_some.
    cbn [map concat].
    rewrite (split_segments (fun p => seg p x)
               (fun p => concat (map (fun x => seg p x ++ [delim]) (omap id outs))))
      by (intros p v Hp; apply Hseg; done).
    rewrite !map_map. cbn [fst snd]. rewrite IH. cbn [map concat].
    rewrite <- app_assoc. done.
  - change (map skip_of (None :: outs)) with (true :: map skip_of outs).
    change (omap id (None :: outs)) with (omap id outs).
    cbn [merge_rows map concat]. rewrite IH. done.
Qed.

End SliceListFacts.

(* ------------------------------------------------------------------ *)
(** ** Consistency of the BRWT queries *)
(* ------------------------------------------------------------------ *)

Module BRWTFacts.
Import BRWT BitVectorFacts RankSelectFacts AssignmentFacts BRWTStructure
  SliceFacts SliceListFacts.

Lemma conditional_rank1_spec (nz : bv) (r : Row) :
  conditional_rank1 nz r = if bit nz r then rank1 nz r else 0.
Proof. reflexivity. Qed.

Lemma get_lt_num_rows (t : brwt) (r : Row) (c : Column) :
  get t r c = true -> r < num_rows t.
Proof.
  destruct t as [a nz ch]. rewrite get_node. unfold num_rows. cbn [nonzero_rows].
  destruct ch as [|c0 ch]; [apply bit_lt_length|].
  rewrite conditional_rank1_spec. destruct (bit nz r) eqn:Hb; [intros _; apply bit_lt_length; done|].
  done.
Qed.

Lemma wf_child (a : Assignments) (nz : bv) (ch : list brwt) (j : nat) (c : brwt) :
  wf (Node a nz ch) = true -> ch !! j = Some c ->
  wf c = true /\ num_rows c = num_set_bits nz /\ num_columns c = count_group a j.
Proof.
  intros Hwf Hj. apply wf_node in Hwf as [_ Hwf].
  destruct ch as [|c0 ch]; [done|]. destruct Hwf as [_ [_ H]]. apply H. done.
Qed.

Lemma wf_group_child (a : Assignments) (nz : bv) (ch : list brwt) (col : Column) :
  wf (Node a nz ch) = true -> ch <> [] -> N.to_nat col < assign_size a ->
  exists c, ch !! group a col = Some c.
Proof.
  intros Hwf Hch Hc. apply wf_node in Hwf as [_ Hwf].
  destruct ch as [|c0 ch]; [done|]. destruct Hwf as [Hl [Hg _]].
  apply lookup_lt_is_Some_2. rewrite Hl. apply Hg. done.
Qed.

(** every column reported by [get_row] is a column of the node *)
Lemma get_row_lt (t : brwt) :
  wf t = true -> forall r c, In c (get_row t r) -> N.to_nat c < num_columns t.
Proof.
  induction t as [a nz ch IH] using brwt_ind'.
  intros Hwf r c. rewrite get_row_node. unfold num_columns. cbn [assignments].
  destruct (bit nz r); cbn [negb]; [|done].
  destruct ch as [|c0 ch].
  - apply wf_node in Hwf as [_ Hs]. intros [<- | []]. simpl. lia.
  - intros Hin. apply in_concat_imap in Hin as [k [y [Hk Hin]]].
    apply in_map_iff in Hin as [c' [<- Hc']].
    destruct (wf_child _ _ _ _ _ Hwf Hk) as [Hwy [_ Hcy]].
    pose proof (Forall_lookup_1 _ _ _ _ IH Hk) as IHy.
    specialize (IHy Hwy _ _ Hc'). rewrite Hcy in IHy.
    apply assign_get_spec. done.
Qed.

Lemma get_row_no_delim (t : brwt) :
  wf t = true -> forall r v, In v (get_row t r) -> v <> delim.
Proof.
  intros Hwf r v Hv. pose proof (get_row_lt t Hwf r v Hv) as H.
  destruct t as [a nz ch]. apply wf_node in Hwf as [Hd _].
  unfold num_columns in H. cbn [assignments] in H.
  intros ->. lia.
Qed.

(** [get(r, c)] holds iff [get_row(r)] lists [c] *)
Lemma get_iff_get_row (t : brwt) :
  wf t = true -> forall r c, N.to_nat c < num_columns t ->
  get t r c = true <-> In c (get_row t r).
Proof.
  induction t as [a nz ch IH] using brwt_ind'.
  intros Hwf r c Hc. rewrite get_node, get_row_node.
  unfold num_columns in Hc. cbn [assignments] in Hc.
  destruct ch as [|c0 ch].
  - apply wf_node in Hwf as [_ Hs]. assert (c = 0%N) as -> by lia.
    destruct (bit nz r); simpl; split; [intros _; left; done | done | done | intros []].
  - rewrite conditional_rank1_spec. destruct (bit nz r) eqn:Hb; [|simpl; split; [done | intros []]].
    pose proof (rank1_pos nz r Hb) as Hpos.
    replace (rank1 nz r =? 0) with false by (symmetry; apply Nat.eqb_neq; lia).
    cbn [negb]. set (ch' := c0 :: ch) in *.
    destruct (wf_group_child a nz ch' c Hwf ltac:(done) Hc) as [y Hy]. rewrite Hy.
    destruct (wf_child _ _ _ _ _ Hwf Hy) as [Hwy [_ Hcy]].
    pose proof (Forall_lookup_1 _ _ _ _ IH Hy) as IHy.
    rewrite (IHy Hwy) by (rewrite Hcy; apply rank_lt_count_group; done).
    rewrite in_concat_imap. split.
    + intros Hin. exists (group a c), y. split; [done|].
      apply in_map_iff. exists (rank a c). split; [apply assign_get_group_rank; done | done].
    + intros [k [z [Hk Hin]]]. apply in_map_iff in Hin as [c' [<- Hc']].
      destruct (wf_child _ _ _ _ _ Hwf Hk) as [Hwz [_ Hcz]].
      pose proof (get_row_lt z Hwz _ _ Hc') as Hlt. rewrite Hcz in Hlt.
      destruct (assign_get_spec a k c' Hlt) as [_ [Hg Hr]].
      rewrite Hg in Hy. rewrite Hk in Hy. injection Hy as ->. rewrite Hr. done.
Qed.

(** [get(r, c)] holds iff [get_column(c)] lists [r] *)
Lemma get_iff_get_column (t : brwt) :
  wf t = true -> forall r c, N.to_nat c < num_columns t ->
  get t r c = true <-> In r (get_column t c).
Proof.
  induction t as [a nz ch IH] using brwt_ind'.
  intros Hwf r c Hc. rewrite get_node, get_column_node.
  unfold num_columns in Hc. cbn [assignments] in Hc.
  destruct (num_set_bits nz =? 0) eqn:H0.
  { apply Nat.eqb_eq in H0. pose proof (num_set_bits_zero nz r H0) as Hb.
    destruct ch as [|c0 ch]; [rewrite Hb; split; [done | intros []]|].
    rewrite conditional_rank1_spec, Hb. split; [done | intros []]. }
  apply Nat.eqb_neq in H0.
  destruct ch as [|c0 ch]; [rewrite in_call_ones; done|].
  set (ch' := c0 :: ch) in *.
  destruct (wf_group_child a nz ch' c Hwf ltac:(done) Hc) as [y Hy]. rewrite Hy.
  destruct (wf_child _ _ _ _ _ Hwf Hy) as [Hwy [Hry Hcy]].
  pose proof (Forall_lookup_1 _ _ _ _ IH Hy) as IHy.
  assert (Hrk : N.to_nat (rank a c) < num_columns y)
    by (rewrite Hcy; apply rank_lt_count_group; done).
  specialize (IHy Hwy). rewrite conditional_rank1_spec.
  destruct (num_set_bits nz =? length nz) eqn:Hall.
  - apply Nat.eqb_eq in Hall. rewrite <- (IHy r (rank a c) Hrk).
    destruct (bit nz r) eqn:Hb.
    + destruct (all_ones_rank nz r Hall (bit_lt_length nz r Hb)) as [_ ->].
      replace (S r =? 0) with false by done. rewrite Nat.sub_1_r. done.
    + split; [done|]. intros Hg. apply get_lt_num_rows in Hg. rewrite Hry, Hall in Hg.
      destruct (all_ones_rank nz r Hall Hg) as [Hb' _]. congruence.
  - rewrite in_map_iff. split.
    + destruct (bit nz r) eqn:Hb; [|done].
      pose proof (rank1_pos nz r Hb) as Hpos.
      replace (rank1 nz r =? 0) with false by (symmetry; apply Nat.eqb_neq; lia).
      intros Hg. exists (rank1 nz r - 1). split.
      * replace (rank1 nz r - 1 + 1) with (rank1 nz r) by lia. apply select1_rank1. done.
      * apply IHy; done.
    + intros [x [<- Hx]]. apply IHy in Hx; [|done].
      pose proof (get_lt_num_rows y x _ Hx) as Hxl. rewrite Hry in Hxl.
      destruct (select1_spec nz (x + 1) ltac:(lia)) as [Hb Hr].
      rewrite Hb, Hr. replace (x + 1 =? 0) with false by (symmetry; apply Nat.eqb_neq; lia).
      replace (x + 1 - 1) with x by lia. done.
Qed.

Lemma omap_per_row_nil (nz : bv) (rs : list Row) :
  omap id (map (per_row nz) rs) = [] -> forall r, In r rs -> bit nz r = false.
Proof.
  induction rs as [|r0 rs IH]; intros H r Hr; [done|].
  cbn [map] in H. rewrite per_row_spec in H.
  destruct (bit nz r0) eqn:Hb; [done|].
  destruct Hr as [<- | Hr]; [done|]. apply IH; done.
Qed.

(** [slice_rows] lists each requested row followed by the delimiter *)
Lemma slice_rows_spec (t : brwt) :
  wf t = true -> forall rs,
  slice_rows t rs = concat (map (fun r => get_row t r ++ [delim]) rs).
Proof.
  induction t as [a nz ch IH] using brwt_ind'.
  intros Hwf rs. destruct ch as [|c0 ch].
  - cbn [slice_rows]. rewrite flat_map_concat_map. f_equal. apply map_ext.
    intros r. rewrite get_row_node. destruct (bit nz r); done.
  - rewrite slice_rows_node by done. cbv zeta. rewrite project_rows_spec.
    set (ch' := c0 :: ch) in *.
    destruct (omap id (map (per_row nz) rs)) as [|x xs] eqn:Hom.
    + pose proof (omap_per_row_nil nz rs Hom) as Hnil.
      transitivity (concat (map (fun _ => [delim]) rs)).
      * clear. induction rs; simpl; [done|]. rewrite IHrs. done.
      * f_equal. apply map_ext_in. intros r Hr. rewrite get_row_node, Hnil; done.
    + rewrite <- Hom.
      (* the children's slices, column ids mapped to the parent *)
      set (ps := imap (fun j c => (j, c)) ch').
      set (seg := fun (p : nat * brwt) x => map (assign_get a p.1) (get_row p.2 x)).
      assert (Hch : imap (fun j c => map (fun v => if (v =? delim)%N then v else assign_get a j v)
                                         (slice_rows c (omap id (map (per_row nz) rs)))) ch'
                    = map (fun p => concat (map (fun x => seg p x ++ [delim])
                                                (omap id (map (per_row nz) rs)))) ps).
      { subst ps. rewrite map_imap. apply imap_ext. intros j c Hj.
        destruct (wf_child _ _ _ _ _ Hwf Hj) as [Hwc [_ _]].
        pose proof (Forall_lookup_1 _ _ _ _ IH Hj) as IHc.
        rewrite (IHc Hwc). rewrite concat_map, map_map. f_equal. apply map_ext_in.
        intros x' _. rewrite map_app. cbn [map]. rewrite N.eqb_refl. f_equal.
        apply map_ext_in. intros v Hv.
        replace (v =? delim)%N with false
          by (symmetry; apply N.eqb_neq, (get_row_no_delim c Hwc x'); done).
        done. }
      rewrite Hch. rewrite merge_rows_segments.
      2:{ intros [j c] x' v Hp Hv. subst seg ps. cbn [fst snd] in Hv.
          apply list_elem_of_In, elem_of_lookup_imap in Hp as [j' [c'' [Hjc Hj]]].
          injection Hjc as <- <-.
          apply in_map_iff in Hv as [c' [<- Hc']].
          destruct (wf_child _ _ _ _ _ Hwf Hj) as [Hwc [_ Hcc]].
          pose proof (get_row_lt c Hwc x' c' Hc') as Hlt. rewrite Hcc in Hlt.
          destruct (assign_get_spec a j c' Hlt) as [Hb _].
          apply wf_node in Hwf as [Hd _]. intros He. rewrite He in Hb. lia. }
      rewrite map_map. f_equal. apply map_ext. intros r.
      rewrite per_row_spec, get_row_node. destruct (bit nz r); [|done].
      cbn [negb]. f_equal. subst ps seg. rewrite map_imap. cbn [fst snd]. done.
Qed.

End BRWTFacts.

Module BRWTClaims.
Import BRWT BRWTFacts SliceListFacts.

(** C3: for a well-formed BRWT, every row [r] and every column
    [c < num_columns]: [get(r, c)] holds iff [get_row(r)] contains [c] iff
    [get_column(c)] contains [r]; and [get_rows(row_ids)] is the list of
    the [get_row] of each requested row. *)
Theorem brwt_queries_consistent (t : brwt) (Hwf : wf t = true) :
  (forall r c, N.to_nat c < num_columns t ->
     (get t r c = true <-> In c (get_row t r)) /\
     (In c (get_row t r) <-> In r (get_column t c))) /\
  (forall row_ids, get_rows t row_ids = map (get_row t) row_ids).
Proof.
  split.
  - intros r c Hc. split; [apply get_iff_get_row; done|].
    rewrite <- get_iff_get_row, get_iff_get_column by done. done.
  - intros rs. unfold get_rows. rewrite slice_rows_spec by done.
    apply split_rows_concat. intros r v. apply get_row_no_delim. done.
Qed.

Lemma brwt_queries_consistent_witness :
  wf BRWTExamples.ex4 = true /\
  get_rows BRWTExamples.ex4 [3; 2; 1; 0] = map (get_row BRWTExamples.ex4) [3; 2; 1; 0].
Proof.
  split; [reflexivity|].
  apply (brwt_queries_consistent BRWTExamples.ex4 ltac:(reflexivity)).
Defined.

End BRWTClaims.

(* ------------------------------------------------------------------ *)
(** ** The serialization glue: loading what was serialized *)
(* ------------------------------------------------------------------ *)

Module StreamFacts.
Import Stream.

Lemma byte_of_N_to_N (n : N) : (n <= 255)%N -> Byte.to_N (byte_of_N n) = n.
Proof.
  intros H. unfold byte_of_N. destruct (Byte.of_N n) eqn:E.
  - apply Byte.to_of_N. done.
  - apply Byte.of_N_None_iff in E. lia.
Qed.

Lemma length_le_bytes (k : nat) (n : N) : length (le_bytes k n) = k.
Proof. revert n. induction k as [|k IH]; intros n; simpl; [done|]. rewrite IH. done. Qed.

Lemma le_value_le_bytes (k : nat) (n : N) : le_value (le_bytes k n) = (n mod 256 ^ N.of_nat k)%N.
Proof.
  revert n. induction k as [|k IH]; intros n.
  - simpl. rewrite N.mod_1_r. done.
  - cbn [le_bytes le_value]. rewrite IH.
    rewrite byte_of_N_to_N by (pose proof (N.mod_lt n 256); lia).
    rewrite Nat2N.inj_succ, N.pow_succ_r' by lia.
    rewrite N.Div0.mod_mul_r. done.
Qed.

Lemma read_app (k : nat) (bs rest : list byte) :
  length bs = k ->
  read (N.of_nat k) (mkIstream true (bs ++ rest)) = (Some bs, mkIstream true rest).
Proof.
  intros Hk. unfold read. cbn [good data].
  replace (N.of_nat k <=? N.of_nat (length (bs ++ rest)))%N with true
    by (symmetry; apply N.leb_le; rewrite length_app; lia).
  cbn [andb]. rewrite Nat2N.id, take_app_length', drop_app_length' by done. done.
Qed.

Lemma load_number_serialize (n : N) (rest : list byte) :
  (n < 2 ^ 64)%N ->
  load_number (mkIstream true (serialize_number n ++ rest)) = Ok n (mkIstream true rest).
Proof.
  intros Hn. unfold load_number, serialize_number.
  rewrite (read_app 8) by apply length_le_bytes.
  rewrite le_value_le_bytes. rewrite N.mod_small; [done|]. exact Hn.
Qed.

Lemma load_numbers_serialize (fuel : nat) (xs : list N) (rest : list byte) :
  length xs <= fuel -> Forall (fun x => x < 2 ^ 64)%N xs ->
  load_numbers fuel (N.of_nat (length xs))
    (mkIstream true (concat (map serialize_number xs) ++ rest))
  = Ok xs (mkIstream true rest).
Proof.
  revert fuel. induction xs as [|x xs IH]; intros fuel Hf Hxs; [destruct fuel; done|].
  inversion Hxs as [|? ? Hx Hxs']; subst.
  destruct fuel as [|f]; [simpl in Hf; lia|].
  cbn [load_numbers length map concat].
  replace (N.of_nat (S (length xs)) =? 0)%N with false by (symmetry; apply N.eqb_neq; lia).
  rewrite <- app_assoc, load_number_serialize by done.
  replace (N.of_nat (S (length xs)) - 1)%N with (N.of_nat (length xs)) by lia.
  rewrite IH; [done | simpl in Hf; lia | done].
Qed.

Lemma bits_of_bytes_map (v : bv) :
  bits_of_bytes (map (fun b : bool => if b then Byte.x01 else Byte.x00) v) = Some v.
Proof. induction v as [|b v IH]; [done|]. simpl. rewrite IH. destruct b; done. Qed.

Lemma load_bv_serialize (v : bv) (rest : list byte) :
  (N.of_nat (length v) < 2 ^ 64)%N ->
  load_bv (mkIstream true (serialize_bv v ++ rest)) = Ok v (mkIstream true rest).
Proof.
  intros Hv. unfold load_bv, serialize_bv.
  rewrite <- app_assoc, load_number_serialize by done.
  rewrite read_app by apply length_map. rewrite bits_of_bytes_map. done.
Qed.

Lemma length_concat_serialize_number (xs : list N) :
  length (concat (map serialize_number xs)) = 8 * length xs.
Proof.
  induction xs as [|x xs IH]; [done|]. cbn [map concat length]. rewrite length_app, IH.
  unfold serialize_number. rewrite length_le_bytes. lia.
Qed.

Lemma load_assignments_serialize (a : Assignments) (rest : list byte) :
  (N.of_nat (assign_num_groups a) < 2 ^ 64)%N ->
  (N.of_nat (assign_size a) < 2 ^ 64)%N ->
  Forall (fun g => N.of_nat g < 2 ^ 64)%N (assign_groups a) ->
  load_assignments (mkIstream true (serialize_assignments a ++ rest)) = Ok a (mkIstream true rest).
Proof.
  intros Hm Hs Hgs. destruct a as [gs m]. unfold load_assignments, serialize_assignments.
  cbn [assign_num_groups assign_size assign_groups] in *. unfold assign_size in Hs. cbn in Hs.
  rewrite <- !app_assoc, load_number_serialize by done.
  rewrite load_number_serialize by done.
  rewrite <- map_map with (g := serialize_number) (f := N.of_nat).
  cbn [data]. unfold assign_size. cbn [assign_groups].
  replace (N.of_nat (length gs)) with (N.of_nat (length (map N.of_nat gs))) by (rewrite length_map; done).
  rewrite load_numbers_serialize.
  - rewrite map_map, Nat2N.id. rewrite (map_ext _ id) by (intros; apply Nat2N.id).
    rewrite map_id. done.
  - rewrite length_app, length_concat_serialize_number. lia.
  - apply Forall_map. done.
Qed.

End StreamFacts.

(* ------------------------------------------------------------------ *)
(** ** Serialization of the BRWT: roundtrip *)
(* ------------------------------------------------------------------ *)

Module BRWTSerializationFacts.
Import BRWT Stream StreamFacts BRWTSerialization BRWTStructure.

Lemma num_nodes_pos (t : brwt) : 1 <= num_nodes t.
Proof. destruct t. simpl. lia. Qed.

Lemma length_ch_le_sum (ch : list brwt) : length ch <= list_sum (map num_nodes ch).
Proof.
  induction ch as [|c ch IH]; [done|]. cbn [map length].
  change (list_sum (num_nodes c :: map num_nodes ch))
    with (num_nodes c + list_sum (map num_nodes ch)).
  pose proof (num_nodes_pos c). lia.
Qed.

Lemma num_nodes_le_serialize (t : brwt) : num_nodes t <= length (serialize t).
Proof.
  induction t as [a nz ch IH] using brwt_ind'.
  cbn [num_nodes serialize]. rewrite !length_app.
  assert (list_sum (map num_nodes ch) <= length (concat (map serialize ch))) as Hc.
  { clear a nz. induction ch as [|c ch IHch]; [done|].
    inversion IH as [|? ? Hcs Hch]; subst. cbn [map concat].
    change (list_sum (num_nodes c :: map num_nodes ch))
      with (num_nodes c + list_sum (map num_nodes ch)).
    rewrite length_app. specialize (IHch Hch). lia. }
  unfold serialize_number. rewrite length_le_bytes. lia.
Qed.

(** the children loop reads back the serialized children *)
Lemma load_children_serialize (f g : nat) (ch : list brwt) (rest : list byte) :
  Forall (fun c => forall rest, load_brwt f (mkIstream true (serialize c ++ rest))
                                = Some (c, mkIstream true rest)) ch ->
  length ch <= g ->
  load_children (load_brwt f) g (N.of_nat (length ch))
    (mkIstream true (concat (map serialize ch) ++ rest)) = Some (ch, mkIstream true rest).
Proof.
  revert g. induction ch as [|c ch IH]; intros g Hch Hg; [destruct g; done|].
  inversion Hch as [|? ? Hc Hch']; subst.
  destruct g as [|g]; [simpl in Hg; lia|].
  cbn [load_children length map concat].
  replace (N.of_nat (S (length ch)) =? 0)%N with false by (symmetry; apply N.eqb_neq; lia).
  rewrite <- app_assoc, Hc.
  replace (N.of_nat (S (length ch)) - 1)%N with (N.of_nat (length ch)) by lia.
  rewrite IH; [done | done | simpl in Hg; lia].
Qed.

Lemma load_brwt_serialize (t : brwt) (fuel : nat) (rest : list byte) :
  children_ok t = true -> fits64 t = true -> num_nodes t <= fuel ->
  load_brwt fuel (mkIstream true (serialize t ++ rest)) = Some (t, mkIstream true rest).
Proof.
  revert fuel rest. induction t as [a nz ch IH] using brwt_ind'.
  intros fuel rest Hok Hfits Hfuel.
  destruct fuel as [|f]; [simpl in Hfuel; lia|].
  cbn [children_ok] in Hok. apply andb_prop in Hok as [Hlen Hoks].
  cbn [fits64] in Hfits. apply andb_prop in Hfits as [Hfits Hfch].
  apply andb_prop in Hfits as [Hfits Hnz]. apply andb_prop in Hfits as [Hfits Hgs].
  apply andb_prop in Hfits as [Hm Hs].
  apply N.ltb_lt in Hm, Hs, Hnz. rewrite forallb_forall in Hgs, Hoks, Hfch.
  cbn [num_nodes] in Hfuel.
  cbn [load_brwt serialize good negb].
  rewrite <- !app_assoc, load_assignments_serialize; [| done | done |].
  2:{ apply List.Forall_forall. intros g Hg. apply N.ltb_lt, Hgs, Hg. }
  rewrite load_bv_serialize by done.
  assert (Hch : (N.of_nat (length ch) < 2 ^ 64)%N).
  { apply orb_prop in Hlen as [H|H]; apply Nat.eqb_eq in H; rewrite H; [|done]. lia. }
  rewrite load_number_serialize by done.
  rewrite load_children_serialize.
  - apply orb_prop in Hlen as [H|H]; apply Nat.eqb_eq in H; rewrite H.
    + done.
    + rewrite N.eqb_refl, orb_true_r. done.
  - apply List.Forall_forall. intros c Hc rest'. rewrite List.Forall_forall in IH. apply IH; [done | | |].
    + apply Hoks, Hc.
    + apply Hfch, Hc.
    + assert (num_nodes c <= list_sum (map num_nodes ch)); [|lia].
      clear -Hc. induction ch as [|c' ch IHch]; [done|].
      cbn [map]. change (list_sum (num_nodes c' :: map num_nodes ch))
        with (num_nodes c' + list_sum (map num_nodes ch)).
      destruct Hc as [->|Hc]; [lia|]. specialize (IHch Hc). lia.
  - pose proof (length_ch_le_sum ch). lia.
Qed.

Lemma load_serialize (t : brwt) (rest : list byte) :
  children_ok t = true -> fits64 t = true ->
  load (mkIstream true (serialize t ++ rest)) = Some (t, mkIstream true rest).
Proof.
  intros Hok Hfits. unfold load. apply load_brwt_serialize; [done | done |].
  cbn [data]. rewrite length_app. pose proof (num_nodes_le_serialize t). lia.
Qed.

End BRWTSerializationFacts.

(* ------------------------------------------------------------------ *)
(** ** [BRWT::load] rejects malformed nodes (claim C7) *)
(* ------------------------------------------------------------------ *)

Module BRWTLoadClaims.
Import BRWT Stream BRWTSerialization.

Lemma load_children_spec (lc : istream -> option (brwt * istream)) (g : nat) (k : N)
    (s : istream) (cs : list brwt) (s' : istream) :
  load_children lc g k s = Some (cs, s') ->
  length cs = N.to_nat k /\ (forall c, In c cs -> exists s0 s1, lc s0 = Some (c, s1)).
Proof.
  revert k s cs s'. induction g as [|g IH]; intros k s cs s' H.
  - cbn in H. destruct (k =? 0)%N eqn:Ek; [|done].
    injection H as <- <-. apply N.eqb_eq in Ek. subst. done.
  - cbn [load_children] in H. destruct (k =? 0)%N eqn:Ek.
    + injection H as <- <-. apply N.eqb_eq in Ek. subst. done.
    + apply N.eqb_neq in Ek.
      destruct (lc s) as [[c s1]|] eqn:Ec; [|done].
      destruct (load_children lc g (k - 1)%N s1) as [[cs' s2]|] eqn:Ecs; [|done].
      injection H as <- <-. apply IH in Ecs as [Hlen Hin].
      split; [cbn [length]; rewrite Hlen; lia|].
      intros c' [<-|Hc']; [eauto | apply Hin, Hc'].
Qed.

(** claim C7: [load] reports success for a node only when the stream is
    good, its assignments, bit vector, children count and every child load,
    and the children count is 0 or the number of groups; a tree it returns
    satisfies this count condition at every node. *)
Theorem brwt_load_rejects (f : nat) (s : istream) :
  load_brwt 0 s = None /\
  (good s = false -> load_brwt (S f) s = None) /\
  (forall t s', load_brwt (S f) s = Some (t, s') <->
     good s = true /\
     exists a s1 nz s2 n s3 ch,
       load_assignments s = Ok a s1 /\ load_bv s1 = Ok nz s2 /\
       load_number s2 = Ok n s3 /\
       load_children (load_brwt f) f n s3 = Some (ch, s') /\
       (n = 0 \/ n = N.of_nat (assign_num_groups a))%N /\
       length ch = N.to_nat n /\
       t = Node a nz ch) /\
  (forall fuel t s', load_brwt fuel s = Some (t, s') -> children_ok t = true).
Proof.
  split; [done|]. split.
  { intros Hg. cbn [load_brwt]. rewrite Hg. done. }
  split.
  - intros t s'. cbn [load_brwt]. split.
    + destruct (good s) eqn:Hg; [|done]. cbn [negb].
      destruct (load_assignments s) as [a s1| |] eqn:Ea; try done.
      destruct (load_bv s1) as [nz s2| |] eqn:Eb; try done.
      destruct (load_number s2) as [n s3| |] eqn:En; try done.
      destruct (load_children (load_brwt f) f n s3) as [[ch s4]|] eqn:Ec; [|done].
      destruct ((n =? 0)%N || (n =? N.of_nat (assign_num_groups a))%N) eqn:Ecnt; [|done].
      intros H. injection H as <- <-. split; [done|].
      exists a, s1, nz, s2, n, s3, ch. repeat split; try done.
      * apply orb_prop in Ecnt as [H|H]; apply N.eqb_eq in H; [left|right]; done.
      * apply load_children_spec in Ec. apply Ec.
    + intros [Hg (a & s1 & nz & s2 & n & s3 & ch & Ea & Eb & En & Ec & Hcnt & _ & ->)].
      rewrite Hg, Ea, Eb, En, Ec. cbn [negb].
      destruct Hcnt as [->| ->]; [done|]. rewrite N.eqb_refl, orb_true_r. done.
  - clear f. intros fuel. revert s. induction fuel as [|f IH]; intros s t s' H; [done|].
    cbn [load_brwt] in H.
    destruct (negb (good s)); [done|].
    destruct (load_assignments s) as [a s1| |]; try done.
    destruct (load_bv s1) as [nz s2| |]; try done.
    destruct (load_number s2) as [n s3| |]; try done.
    destruct (load_children (load_brwt f) f n s3) as [[ch s4]|] eqn:Ec; [|done].
    destruct ((n =? 0)%N || (n =? N.of_nat (assign_num_groups a))%N) eqn:Ecnt; [|done].
    injection H as <- <-. apply load_children_spec in Ec as [Hlen Hin].
    cbn [children_ok]. apply andb_true_intro. split.
    + rewrite Hlen. apply orb_prop in Ecnt as [E|E]; apply N.eqb_eq in E; rewrite E.
      * done.
      * rewrite Nat2N.id, Nat.eqb_refl, orb_true_r. done.
    + apply forallb_forall. intros c Hc. destruct (Hin c Hc) as (s0 & s5 & Hl).
      apply (IH s0 c s5 Hl).
Qed.

End BRWTLoadClaims.

(* ------------------------------------------------------------------ *)
(** ** The row-diff loaders ignore the version prefix (claim C10) *)
(* ------------------------------------------------------------------ *)

Module RowDiffLoadClaims.
Import Stream RowDiffSerialization.

(** claim C10: after any 4 bytes, [IntRowDiff::load] / [TupleRowDiff::load]
    behave as the member loads on the rest of the stream, whatever the
    bytes are; [load] returns [true] exactly when the anchor, the
    fork-successor vector and the base matrix all load. *)
Theorem rd_load_ignores_version {B : Type} (base_load : istream -> outcome B)
    (b0 b1 b2 b3 : byte) (rest : list byte) :
  rd_load base_load (mkIstream true ([b0; b1; b2; b3] ++ rest))
    = rd_load_members base_load (mkIstream true rest) /\
  (rd_load_result base_load (mkIstream true ([b0; b1; b2; b3] ++ rest)) = Some true <->
   exists an s1 fs s2 d s3,
     load_bv (mkIstream true rest) = Ok an s1 /\ load_bv s1 = Ok fs s2 /\
     base_load s2 = Ok d s3).
Proof.
  assert (Hr : rd_load base_load (mkIstream true ([b0; b1; b2; b3] ++ rest))
               = rd_load_members base_load (mkIstream true rest)).
  { unfold rd_load. rewrite (StreamFacts.read_app 4) by done. done. }
  split; [exact Hr|]. unfold rd_load_result. rewrite Hr. unfold rd_load_members.
  split.
  - destruct (load_bv (mkIstream true rest)) as [an s1| |] eqn:E1; try done.
    destruct (load_bv s1) as [fs s2| |] eqn:E2; try done.
    destruct (base_load s2) as [d s3| |] eqn:E3; try done.
    intros _. exists an, s1, fs, s2, d, s3. done.
  - intros (an & s1 & fs & s2 & d & s3 & E1 & E2 & E3). rewrite E1, E2, E3. done.
Qed.

End RowDiffLoadClaims.

(* ------------------------------------------------------------------ *)
(** ** Row values: [add_diff], sorting and the diff codes *)
(* ------------------------------------------------------------------ *)

Module RowValuesFacts.
Import BitVector IntRowDiff RowValuesSemantics.

Lemma merge_diff_nil_r (row : RowValues) : merge_diff row [] = row.
Proof. destruct row as [|[c v] row]; done. Qed.

Lemma merge_diff_cons_cons (c1 v1 : N) (r : RowValues) (c2 v2 : N) (d : RowValues) :
  merge_diff ((c1, v1) :: r) ((c2, v2) :: d) =
  if (c1 <? c2)%N then (c1, v1) :: merge_diff r ((c2, v2) :: d)
  else if (c2 <? c1)%N then (c2, v2) :: merge_diff ((c1, v1) :: r) d
  else if ((v1 + v2) mod u64 =? 0)%N then merge_diff r d
  else (c1, ((v1 + v2) mod u64)%N) :: merge_diff r d.
Proof. reflexivity. Qed.

Lemma merge_diff_ind' (P : RowValues -> RowValues -> Prop) :
  (forall d, P [] d) -> (forall r, P r []) ->
  (forall c1 v1 r c2 v2 d, P r ((c2, v2) :: d) -> P ((c1, v1) :: r) d -> P r d ->
     P ((c1, v1) :: r) ((c2, v2) :: d)) ->
  forall r d, P r d.
Proof.
  intros H0 H1 H2. induction r as [|[c1 v1] r IH]; [done|].
  induction d as [|[c2 v2] d IHd]; [apply H1|]. apply H2; done.
Qed.

Ltac merge_diff_induction r d := pattern r, d; revert r d; apply merge_diff_ind'.

(** the columns of a merge are columns of its inputs *)
Lemma merge_diff_cols (Q : N -> Prop) (r d : RowValues) :
  Forall (fun p => Q p.1) r -> Forall (fun p => Q p.1) d ->
  Forall (fun p => Q p.1) (merge_diff r d).
Proof.
  merge_diff_induction r d.
  - intros d _ Hd. exact Hd.
  - intros r Hr _. rewrite merge_diff_nil_r. done.
  - intros c1 v1 r c2 v2 d IH1 IH2 IH3 Hr Hd. rewrite merge_diff_cons_cons.
    inversion Hr as [|? ? Hc1 Hr']; inversion Hd as [|? ? Hc2 Hd']; subst.
    destruct (c1 <? c2)%N; [constructor; [done | apply IH1; done]|].
    destruct (c2 <? c1)%N; [constructor; [done | apply IH2; done]|].
    destruct ((v1 + v2) mod u64 =? 0)%N; [apply IH3; done|].
    constructor; [done | apply IH3; done].
Qed.

Lemma merge_diff_vals (r d : RowValues) :
  Forall (fun p => 0 < p.2 < u64)%N r -> Forall (fun p => 0 < p.2 < u64)%N d ->
  Forall (fun p => 0 < p.2 < u64)%N (merge_diff r d).
Proof.
  merge_diff_induction r d.
  - intros d _ Hd. exact Hd.
  - intros r Hr _. rewrite merge_diff_nil_r. done.
  - intros c1 v1 r c2 v2 d IH1 IH2 IH3 Hr Hd. rewrite merge_diff_cons_cons.
    inversion Hr as [|? ? Hc1 Hr']; inversion Hd as [|? ? Hc2 Hd']; subst.
    destruct (c1 <? c2)%N; [constructor; [done | apply IH1; done]|].
    destruct (c2 <? c1)%N; [constructor; [done | apply IH2; done]|].
    destruct ((v1 + v2) mod u64 =? 0)%N eqn:E; [apply IH3; done|].
    constructor; [|apply IH3; done].
    apply N.eqb_neq in E. cbn [fst snd]. split; [remember ((v1 + v2) mod u64)%N; lia|]. apply N.mod_lt. unfold u64. lia.
Qed.

Lemma Forall_col_lt_weaken (c c' : N) (v : N) (l : RowValues) :
  (c' <= c)%N -> Forall (col_lt (c, v)) l -> Forall (fun p => c' < p.1)%N l.
Proof.
  intros Hle H. eapply Forall_impl; [exact H|]. intros [j w]. unfold col_lt. cbn. lia.
Qed.

Lemma merge_diff_sorted (r d : RowValues) :
  StronglySorted col_lt r -> StronglySorted col_lt d -> StronglySorted col_lt (merge_diff r d).
Proof.
  merge_diff_induction r d.
  - intros d _ Hd. exact Hd.
  - intros r Hr _. rewrite merge_diff_nil_r. done.
  - intros c1 v1 r c2 v2 d IH1 IH2 IH3 Hr Hd. rewrite merge_diff_cons_cons.
    apply StronglySorted_inv in Hr as [Hr Hr1].
    apply StronglySorted_inv in Hd as [Hd Hd1].
    destruct (c1 <? c2)%N eqn:E12.
    { apply N.ltb_lt in E12. constructor; [apply IH1; [done | constructor; done]|].
      apply merge_diff_cols.
      - eapply Forall_impl; [exact Hr1|]. done.
      - constructor; [unfold col_lt; done|].
        eapply Forall_impl; [exact Hd1|]. intros [j w]. unfold col_lt. cbn. lia. }
    destruct (c2 <? c1)%N eqn:E21.
    { apply N.ltb_lt in E21. constructor; [apply IH2; [constructor; done | done]|].
      apply merge_diff_cols.
      - constructor; [unfold col_lt; done|].
        eapply Forall_impl; [exact Hr1|]. intros [j w]. unfold col_lt. cbn. lia.
      - eapply Forall_impl; [exact Hd1|]. done. }
    apply N.ltb_ge in E12, E21. assert (c1 = c2) as <- by lia.
    destruct ((v1 + v2) mod u64 =? 0)%N; [apply IH3; done|].
    constructor; [apply IH3; done|]. apply merge_diff_cols.
    + eapply Forall_impl; [exact Hr1|]. done.
    + eapply Forall_impl; [exact Hd1|]. done.
Qed.

Lemma val_absent (row : RowValues) (c : N) :
  Forall (fun p => p.1 <> c) row -> val row c = 0%N.
Proof.
  induction row as [|[j v] row IH]; intros H; [done|].
  inversion H as [|? ? Hj H']; subst. cbn. cbn in Hj.
  replace (j =? c)%N with false by (symmetry; apply N.eqb_neq; done). apply IH, H'.
Qed.

Lemma val_lt (row : RowValues) (c : N) :
  Forall (fun p => 0 < p.2 < u64)%N row -> (val row c < u64)%N.
Proof.
  induction row as [|[j v] row IH]; intros H; [cbn; unfold u64; lia|].
  inversion H as [|? ? Hj H']; subst. cbn. cbn in Hj.
  destruct (j =? c)%N; [lia | apply IH, H'].
Qed.

Lemma val_head_gt (c : N) (v : N) (row : RowValues) (c' : N) :
  Forall (col_lt (c, v)) row -> (c' <= c)%N -> val row c' = 0%N.
Proof.
  intros H Hle. apply val_absent. eapply Forall_impl; [exact H|].
  intros [j w]. unfold col_lt. cbn. lia.
Qed.

Lemma merge_diff_val (r d : RowValues) (c : N) :
  StronglySorted col_lt r -> StronglySorted col_lt d ->
  Forall (fun p => 0 < p.2 < u64)%N r -> Forall (fun p => 0 < p.2 < u64)%N d ->
  val (merge_diff r d) c = ((val r c + val d c) mod u64)%N.
Proof.
  merge_diff_induction r d.
  - intros d _ Hd _ Hv. cbn [merge_diff val]. rewrite N.mod_small; [done|].
    apply val_lt, Hv.
  - intros r Hr _ Hv _. rewrite merge_diff_nil_r. cbn [val].
    rewrite N.add_0_r, N.mod_small; [done|]. apply val_lt, Hv.
  - intros c1 v1 r c2 v2 d IH1 IH2 IH3 Hr Hd Hvr Hvd. rewrite merge_diff_cons_cons.
    pose proof Hr as Hr0. pose proof Hd as Hd0.
    apply StronglySorted_inv in Hr as [Hr Hr1].
    apply StronglySorted_inv in Hd as [Hd Hd1].
    inversion Hvr as [|? ? Hv1 Hvr']; inversion Hvd as [|? ? Hv2 Hvd']; subst.
    cbn [fst snd] in Hv1, Hv2.
    destruct (c1 <? c2)%N eqn:E12.
    { apply N.ltb_lt in E12. cbn [val]. destruct (c1 =? c)%N eqn:Ec.
      - apply N.eqb_eq in Ec. subst c.
        replace (c2 =? c1)%N with false by (symmetry; apply N.eqb_neq; lia).
        rewrite (val_head_gt c2 v2 d c1) by (done || lia).
        rewrite N.add_0_r, N.mod_small; [done | lia].
      - rewrite IH1 by (done || constructor; done). cbn [val]. done. }
    destruct (c2 <? c1)%N eqn:E21.
    { apply N.ltb_lt in E21. cbn [val]. destruct (c2 =? c)%N eqn:Ec.
      - apply N.eqb_eq in Ec. subst c.
        replace (c1 =? c2)%N with false by (symmetry; apply N.eqb_neq; lia).
        rewrite (val_head_gt c1 v1 r c2) by (done || lia).
        rewrite N.mod_small; [done | lia].
      - rewrite IH2 by (done || constructor; done). cbn [val]. done. }
    apply N.ltb_ge in E12, E21. assert (c1 = c2) as <- by lia.
    destruct ((v1 + v2) mod u64 =? 0)%N eqn:Es.
    + rewrite IH3 by done. cbn [val]. destruct (c1 =? c)%N eqn:Ec; [|done].
      apply N.eqb_eq in Ec. subst c.
      rewrite (val_head_gt c1 v1 r c1), (val_head_gt c1 v2 d c1) by (done || lia).
      apply N.eqb_eq in Es. rewrite Es. done.
    + cbn [val]. destruct (c1 =? c)%N eqn:Ec; [|apply IH3; done].
      apply N.eqb_eq in Ec. subst c.
      done.
Qed.

(** [add_diff] sums the two rows column by column, modulo [2^64] *)
Lemma add_diff_canon (diff row : RowValues) :
  canon diff -> canon row ->
  canon (add_diff diff row) /\
  (forall c, val (add_diff diff row) c = ((val diff c + val row c) mod u64)%N).
Proof.
  intros [Hsd Hvd] [Hsr Hvr]. destruct diff as [|p diff'].
  - split; [split; done|]. intros c. cbn [add_diff val].
    rewrite N.mod_small; [done | apply val_lt, Hvr].
  - cbn [add_diff]. split; [split|].
    + apply merge_diff_sorted; done.
    + apply merge_diff_vals; done.
    + intros c. rewrite merge_diff_val by done. rewrite N.add_comm. done.
Qed.

Lemma canon_ext (a b : RowValues) :
  canon a -> canon b -> (forall c, val a c = val b c) -> a = b.
Proof.
  revert b. induction a as [|[c v] a IH]; intros b [Hsa Hva] [Hsb Hvb] Hab.
  - destruct b as [|[d w] b]; [done|]. specialize (Hab d). cbn in Hab.
    rewrite N.eqb_refl in Hab. inversion Hvb; subst. cbn in *. lia.
  - apply StronglySorted_inv in Hsa as [Hsa Ha1].
    inversion Hva as [|? ? Hv Hva']; subst. cbn [fst snd] in Hv.
    destruct b as [|[d w] b].
    { specialize (Hab c). cbn in Hab. rewrite N.eqb_refl in Hab. lia. }
    apply StronglySorted_inv in Hsb as [Hsb Hb1].
    inversion Hvb as [|? ? Hw Hvb']; subst. cbn [fst snd] in Hw.
    assert (c = d) as <-.
    { destruct (N.lt_trichotomy c d) as [Hlt|[Heq|Hgt]]; [|done|].
      - specialize (Hab c). cbn in Hab. rewrite N.eqb_refl in Hab.
        replace (d =? c)%N with false in Hab by (symmetry; apply N.eqb_neq; lia).
        rewrite (val_head_gt d w b c) in Hab by (done || lia). lia.
      - specialize (Hab d). cbn in Hab. rewrite N.eqb_refl in Hab.
        replace (c =? d)%N with false in Hab by (symmetry; apply N.eqb_neq; lia).
        rewrite (val_head_gt c v a d) in Hab by (done || lia). lia. }
    assert (v = w) as <-.
    { specialize (Hab c). cbn in Hab. rewrite N.eqb_refl in Hab. done. }
    f_equal. apply IH; [split; done | split; done|].
    intros e. specialize (Hab e). cbn in Hab. destruct (c =? e)%N eqn:Ee; [|done].
    apply N.eqb_eq in Ee. subst e.
    rewrite (val_head_gt c v a c), (val_head_gt c v b c) by (done || lia). done.
Qed.

Lemma sort_row_sorted (row : RowValues) : StronglySorted col_lt row -> sort_row row = row.
Proof.
  induction row as [|p row IH]; intros H; [done|].
  apply StronglySorted_inv in H as [H Hp]. cbn [sort_row]. rewrite IH by done.
  destruct row as [|q row]; [done|]. cbn [insert_pair].
  inversion Hp as [|? ? Hq _]; subst. unfold col_lt in Hq.
  unfold pair_ltb. replace (q.1 <? p.1)%N with false by (symmetry; apply N.ltb_ge; lia).
  replace (q.1 =? p.1)%N with false by (symmetry; apply N.eqb_neq; lia). done.
Qed.

Lemma val_in (row : RowValues) (c v : N) :
  StronglySorted col_lt row -> In (c, v) row -> val row c = v.
Proof.
  induction row as [|[j w] row IH]; intros Hs Hin; [done|].
  apply StronglySorted_inv in Hs as [Hs H1]. cbn [val].
  destruct Hin as [Heq|Hin].
  - injection Heq as -> ->. rewrite N.eqb_refl. done.
  - rewrite List.Forall_forall in H1. specialize (H1 _ Hin). unfold col_lt in H1. cbn in H1.
    replace (j =? c)%N with false by (symmetry; apply N.eqb_neq; lia). apply IH; done.
Qed.

Lemma val_negate_row (row : RowValues) (c : N) :
  val (negate_row row) c = ((u64 - val row c) mod u64)%N.
Proof.
  induction row as [|[j v] row IH]; cbn.
  - rewrite N.sub_0_r, N.Div0.mod_same. done.
  - destruct (j =? c)%N; done.
Qed.

Lemma negate_row_canon (row : RowValues) : canon row -> canon (negate_row row).
Proof.
  intros [Hs Hv]. split.
  - induction Hs as [|[j v] row Hs IH Hall]; cbn; constructor.
    + apply IH. inversion Hv; done.
    + clear -Hall. induction Hall as [|[j' v'] row' Hh _ IH']; cbn; constructor; done.
  - induction row as [|[j v] row IH]; cbn; [done|].
    inversion Hv as [|? ? Hjv Hv']; subst. cbn in Hjv. constructor.
    + cbn. rewrite N.mod_small by lia. lia.
    + apply IH; [|done]. apply StronglySorted_inv in Hs. apply Hs.
Qed.

Lemma decode_encode (v : N) :
  (0 < v < u64)%N -> v <> (2 ^ 63)%N -> decode_diff (encode_diff (to_int64 v)) = v.
Proof.
  intros Hv Hne. unfold u64 in Hv. unfold decode_diff, encode_diff, to_int64, u64.
  destruct (v <? 2 ^ 63)%N eqn:Elt.
  - apply N.ltb_lt in Elt.
    replace (Z.to_N ((Z.abs (Z.of_N v) - 1) * 2 + (if (Z.of_N v <? 0)%Z then 1 else 0)))
      with (2 * (v - 1))%N by (replace (Z.of_N v <? 0)%Z with false by (symmetry; apply Z.ltb_ge; lia); lia).
    rewrite N.testbit_even_0. cbn [negb].
    rewrite (N.mul_comm 2), N.div_mul by lia. rewrite N.mod_small; lia.
  - apply N.ltb_ge in Elt.
    replace (Z.to_N ((Z.abs (Z.of_N v - Z.of_N (2 ^ 64)) - 1) * 2
                     + (if (Z.of_N v - Z.of_N (2 ^ 64) <? 0)%Z then 1 else 0)))
      with (2 * (2 ^ 64 - v - 1) + 1)%N
      by (replace (Z.of_N v - Z.of_N (2 ^ 64) <? 0)%Z with true by (symmetry; apply Z.ltb_lt; lia); lia).
    rewrite N.testbit_odd_0. cbn [negb].
    replace (2 * (2 ^ 64 - v - 1) + 1 + 1)%N with ((2 ^ 64 - v) * 2)%N by lia.
    rewrite (N.mod_small ((2 ^ 64 - v) * 2)) by lia.
    rewrite N.div_mul by lia. rewrite N.mod_small; lia.
Qed.

End RowValuesFacts.

(* ------------------------------------------------------------------ *)
(** ** The first loop of [get_row_values]: truncated paths *)
(* ------------------------------------------------------------------ *)

Module RowDiffWalkFacts.
Import BitVector RowDiffSerialization IntRowDiff RowDiffPaths.

Lemma unwind_noop (d : nat) (path : list nat) (rp : list rd_step) :
  length path <= d -> unwind d path rp = (path, rp).
Proof.
  intros H. destruct path as [|p1 [|p2 rest]]; [done | done|].
  cbn [unwind]. replace (d <? length (p1 :: p2 :: rest)) with false; [done|].
  symmetry. apply Nat.ltb_ge. done.
Qed.

Lemma index_map_empty : index_map [] ∅.
Proof. intros r k. rewrite lookup_empty. split; [done|]. intros H. done. Qed.

Lemma index_map_snoc (ids : list Row) (m : gmap Row nat) (r : Row) :
  index_map ids m -> m !! r = None ->
  index_map (ids ++ [r]) (<[r := length ids]> m).
Proof.
  intros Hm Hr r' k. rewrite lookup_insert_Some, lookup_app_Some, list_lookup_singleton_Some.
  split.
  - intros [[-> <-] | [Hne Hk]].
    + right. split; [lia|]. rewrite Nat.sub_diag. done.
    + left. apply Hm, Hk.
  - intros [Hk | [Hle [Hk <-]]].
    + right. split; [|apply Hm, Hk]. intros ->. apply Hm in Hk. congruence.
    + left. split; [done | lia].
Qed.

Lemma links_app (an : bv) (succ : Row -> Row) (ids more : list Row) (P : list nat) :
  links an succ ids P -> links an succ (ids ++ more) P.
Proof.
  induction P as [|p1 [|p2 rest] IH]; [done | done|].
  intros [(r2 & H2 & Ha & H1) Hrest]. split; [|apply IH, Hrest].
  exists r2. split; [apply lookup_app_l_Some, H2|]. split; [done|]. apply lookup_app_l_Some, H1.
Qed.

Lemma links_snoc (an : bv) (succ : Row -> Row) (ids : list Row) (P : list nat) (p n : nat) :
  links an succ ids P -> last P = Some p ->
  (exists r2, ids !! n = Some r2 /\ bit an r2 = false /\ ids !! p = Some (succ r2)) ->
  links an succ ids (P ++ [n]).
Proof.
  induction P as [|p1 [|p2 rest] IH]; intros HP Hlast Hn; [done| |].
  - cbn in Hlast. injection Hlast as ->. cbn. split; done.
  - destruct HP as [H12 Hrest]. cbn [app]. split; [done|].
    apply IH; [done | | done]. rewrite last_cons_cons in Hlast. done.
Qed.

Lemma rev_seq_snoc (n k : nat) : rev (seq (S n) k) ++ [n] = rev (seq n (S k)).
Proof. reflexivity. Qed.

Section Walk.
Variable B : Type.
Variable rd_succ : bv -> Row -> Row.
Variable x : row_diff B.
Variable h : Row -> nat.
(** the row-diff successors form a DAG: a rank decreases along them *)
Hypothesis Hh : forall r, bit (anchor x) r = false -> h (rd_succ (fork_succ x) r) < h r.

Lemma walk_nil (f : nat) (path : list nat) (rp : list rd_step) (ids : list Row)
    (m : gmap Row nat) :
  walk rd_succ x f [] path rp ids m = Some (path, rp, ids, m).
Proof. destruct f; done. Qed.

Lemma walk_chain (f : nat) (r : Row) (path : list nat) (ids : list Row) (m : gmap Row nat) :
  index_map ids m -> h r < f ->
  exists hd tl news m',
    walk rd_succ x f [(length path, r)] path [] ids m
      = Some (hd :: tl ++ path, [], ids ++ news, m') /\
    index_map (ids ++ news) m' /\
    links (anchor x) (rd_succ (fork_succ x)) (ids ++ news) (hd :: tl) /\
    (exists p0, last (hd :: tl) = Some p0 /\ (ids ++ news) !! p0 = Some r) /\
    (exists rk, (ids ++ news) !! hd = Some rk /\ h rk <= h r) /\
    tl = rev (seq (length ids) (length tl)) /\
    ((hd < length ids /\ length news = length tl) \/
     (hd = length ids + length tl /\ length news = S (length tl) /\
      exists ra, (ids ++ news) !! hd = Some ra /\ bit (anchor x) ra = true)).
Proof.
  revert r path ids m. induction f as [|f IH]; intros r path ids m Hm Hf; [lia|].
  cbn [walk]. rewrite unwind_noop by done.
  destruct (m !! r) as [k|] eqn:Ek.
  - exists k, [], [], m. rewrite !app_nil_r.
    apply Hm in Ek. split; [apply walk_nil|]. split; [done|]. split; [done|].
    split; [exists k; done|]. split; [exists r; done|]. split; [done|].
    left. split; [|done]. apply lookup_lt_Some in Ek. done.
  - assert (Hl : (ids ++ [r]) !! length ids = Some r).
    { rewrite lookup_app_r by lia. rewrite Nat.sub_diag. done. }
    destruct (bit (anchor x) r) eqn:Ea.
    + exists (length ids), [], [r], (<[r := length ids]> m). cbn [app].
      split; [apply walk_nil|]. split; [apply index_map_snoc; done|]. split; [done|].
      split; [exists (length ids); done|]. split; [exists r; done|]. split; [done|].
      right. split; [cbn; lia|]. split; [done|]. exists r. done.
    + destruct (IH (rd_succ (fork_succ x) r) (length ids :: path) (ids ++ [r])
                  (<[r := length ids]> m)) as
        (hd & tl & news & m' & Hw & Hm' & Hlinks & (p0 & Hlast & Hp0) & (rk & Hrk & Hhrk)
         & Htl & Hcase).
      { apply index_map_snoc; done. }
      { specialize (Hh r Ea). lia. }
      specialize (Hh r Ea).
      exists hd, (tl ++ [length ids]), (r :: news), m'.
      assert (Hids : (ids ++ [r]) ++ news = ids ++ r :: news) by (rewrite <- app_assoc; done).
      rewrite Hids in Hm', Hlinks, Hp0, Hrk, Hcase.
      assert (Hr : (ids ++ r :: news) !! length ids = Some r).
      { rewrite lookup_app_r by lia. rewrite Nat.sub_diag. done. }
      split.
      { refine (eq_trans Hw _). rewrite Hids, <- app_assoc. done. }
      split; [exact Hm'|]. split.
      { change (hd :: tl ++ [length ids]) with ((hd :: tl) ++ [length ids]).
        apply (links_snoc _ _ _ _ p0); [done | done|]. exists r. done. }
      split.
      { exists (length ids). split; [|done].
        change (hd :: tl ++ [length ids]) with ((hd :: tl) ++ [length ids]).
        apply last_snoc. }
      split; [exists rk; split; [done | lia]|].
      rewrite length_app in Htl, Hcase. cbn [length] in Htl, Hcase.
      split.
      { rewrite length_app. cbn [length]. rewrite Htl at 1.
        replace (length ids + 1) with (S (length ids)) by lia.
        rewrite rev_seq_snoc. f_equal. f_equal. lia. }
      rewrite length_app. cbn [length].
      destruct Hcase as [[Hhd Hn] | [Hhd [Hn Ha]]].
      * left. split; [|lia].
        enough (hd <> length ids) by lia. intros ->.
        rewrite Hr in Hrk. injection Hrk as <-. lia.
      * right. split; [lia|]. split; [lia|]. exact Ha.
Qed.

End Walk.

End RowDiffWalkFacts.

(* ------------------------------------------------------------------ *)
(** ** The second loop of [get_row_values]: reconstruction *)
(* ------------------------------------------------------------------ *)

Module RowDiffReconstructFacts.
Import BitVector RowDiffSerialization IntRowDiff RowDiffPaths RowDiffWalkFacts.

Lemma close_path_eq2 (p1 p2 : nat) (rest : list nat) (acc : list rd_step) :
  close_path (p1 :: p2 :: rest) acc = close_path (p2 :: rest) (acc ++ [(Some p2, p1)]).
Proof. reflexivity. Qed.

Lemma close_path_acc (P : list nat) (acc : list rd_step) :
  close_path P acc = acc ++ close_path P [].
Proof.
  revert acc. induction P as [|p1 [|p2 rest] IH]; intros acc.
  - cbn. rewrite app_nil_r. done.
  - done.
  - rewrite !close_path_eq2, IH, (IH ([] ++ _)), app_assoc. done.
Qed.

Lemma close_path_cons2 (p1 p2 : nat) (rest : list nat) :
  close_path (p1 :: p2 :: rest) [] = (Some p2, p1) :: close_path (p2 :: rest) [].
Proof. rewrite close_path_eq2, close_path_acc. done. Qed.

Lemma close_path_nonempty (p : nat) (rest : list nat) :
  exists y ys, close_path (p :: rest) [] = y :: ys.
Proof.
  revert p. induction rest as [|p2 rest IH]; intros p; [eexists _, _; done|].
  rewrite close_path_cons2. eexists _, _; done.
Qed.

Lemma last_close_path (P : list nat) (p0 : nat) :
  last P = Some p0 -> last (close_path P []) = Some (None, p0).
Proof.
  induction P as [|p1 [|p2 rest] IH]; intros H; [done | cbn in H; injection H as ->; done|].
  rewrite last_cons_cons in H. rewrite close_path_cons2.
  destruct (close_path_nonempty p2 rest) as (y & ys & E). rewrite E, last_cons_cons, <- E.
  apply IH, H.
Qed.

Lemma apply_path_cons2 (n s : nat) (y : rd_step) (ys : list rd_step) (rows : list RowValues) :
  apply_path ((Some n, s) :: y :: ys) rows
  = apply_path (y :: ys) (<[n := add_diff (rows !!! s) (rows !!! n)]> rows).
Proof. reflexivity. Qed.

Section Reconstruct.
Variable an : bv.
Variable succ : Row -> Row.
(** the logical rows and the decoded, sorted stored rows *)
Variables L D : Row -> RowValues.
Hypothesis HDa : forall r, bit an r = true -> D r = L r.
Hypothesis HDn : forall r, bit an r = false -> add_diff (L (succ r)) (D r) = L r.

Lemma apply_close_path (ids : list Row) (rows : list RowValues) (P : list nat) :
  links an succ ids P -> NoDup P -> (forall p, In p P -> p < length rows) ->
  (forall hd, head P = Some hd -> exists r, ids !! hd = Some r /\ rows !!! hd = L r) ->
  (forall p r, In p (tl P) -> ids !! p = Some r -> rows !!! p = D r) ->
  length (apply_path (close_path P []) rows) = length rows /\
  (forall p r, In p P -> ids !! p = Some r -> apply_path (close_path P []) rows !!! p = L r) /\
  (forall q, ~ In q (tl P) -> apply_path (close_path P []) rows !!! q = rows !!! q).
Proof.
  revert rows. induction P as [|p1 [|p2 rest] IH]; intros rows Hl Hnd Hlt Hhd Htl.
  - done.
  - split; [done|]. split; [|done].
    intros p r [<-|[]] Hr. destruct (Hhd p1 eq_refl) as (r1 & Hr1 & Hrow).
    cbn. rewrite Hr1 in Hr. injection Hr as <-. done.
  - destruct Hl as [(r2 & H2 & Ha & H1) Hl].
    destruct (Hhd p1 eq_refl) as (r1 & Hr1 & Hrow1). rewrite H1 in Hr1. injection Hr1 as <-.
    apply NoDup_cons in Hnd as [Hp1 Hnd]. pose proof Hnd as Hnd2.
    apply NoDup_cons in Hnd2 as [Hp2 _].
    rewrite list_elem_of_In in Hp1, Hp2.
    assert (Hlt2 : p2 < length rows) by (apply Hlt; right; left; done).
    assert (Hne : p1 <> p2) by (intros ->; apply Hp1; left; done).
    set (rows1 := <[p2 := add_diff (rows !!! p1) (rows !!! p2)]> rows).
    assert (Hrows1 : rows1 !!! p2 = L r2).
    { unfold rows1. rewrite list_lookup_total_insert_eq by done.
      rewrite Hrow1, (Htl p2 r2) by (done || (left; done)). apply HDn, Ha. }
    assert (Hrows1' : forall q, q <> p2 -> rows1 !!! q = rows !!! q).
    { intros q Hq. unfold rows1. apply list_lookup_total_insert_ne. done. }
    destruct (IH rows1) as (IHlen & IHin & IHout).
    + exact Hl.
    + exact Hnd.
    + intros p Hp. unfold rows1. rewrite length_insert. apply Hlt. right. done.
    + intros hd [= <-]. exists r2. done.
    + intros p r Hp Hr. rewrite Hrows1' by (intros ->; done).
      apply Htl; [right; done | done].
    + rewrite close_path_cons2. destruct (close_path_nonempty p2 rest) as (y & ys & E).
      rewrite E, apply_path_cons2, <- E. fold rows1.
      split; [rewrite IHlen; unfold rows1; apply length_insert|]. split.
      * intros p r [<-|Hp] Hr.
        -- rewrite IHout by (intros Hin; apply Hp1; right; done).
           rewrite Hrows1' by done. rewrite H1 in Hr. injection Hr as <-. done.
        -- apply IHin; done.
      * intros q Hq. rewrite IHout by (intros Hin; apply Hq; right; done).
        apply Hrows1'. intros ->. apply Hq. left. done.
Qed.

End Reconstruct.

End RowDiffReconstructFacts.

Module RowDiffCorrectness.
Import BitVector RowDiffSerialization IntRowDiff RowDiffPaths RowDiffWalkFacts
  RowDiffReconstructFacts.

Lemma in_rev_seq (p n k : nat) : In p (rev (seq n k)) <-> n <= p < n + k.
Proof. rewrite <- in_rev, in_seq. lia. Qed.

Lemma NoDup_rev_seq (n k : nat) : NoDup (rev (seq n k)).
Proof. apply NoDup_ListNoDup, List.NoDup_rev, seq_NoDup. Qed.

Section Correctness.
Variable B : Type.
Variable rd_succ : bv -> Row -> Row.
Variable x : row_diff B.
Variable h : Row -> nat.
Hypothesis Hh : forall r, bit (anchor x) r = false -> h (rd_succ (fork_succ x) r) < h r.
Variables L D : Row -> RowValues.
Hypothesis HDa : forall r, bit (anchor x) r = true -> D r = L r.
Hypothesis HDn : forall r, bit (anchor x) r = false ->
  add_diff (L (rd_succ (fork_succ x) r)) (D r) = L r.

Lemma collect_reconstruct (fuel : nat) (rs : list Row) (ids : list Row) (m : gmap Row nat) :
  index_map ids m -> (forall r, In r rs -> h r < fuel) ->
  exists ps more,
    collect_paths rd_succ x fuel rs ids m = Some (ps, ids ++ more) /\
    forall rows, length rows = length (ids ++ more) ->
      (forall k r, (ids ++ more) !! k = Some r -> k < length ids -> rows !!! k = L r) ->
      (forall k r, (ids ++ more) !! k = Some r -> length ids <= k -> rows !!! k = D r) ->
      reconstruct ps rows = map L rs.
Proof.
  revert ids m. induction rs as [|r rs IH]; intros ids m Hm Hf.
  { exists [], []. rewrite app_nil_r. split; [done|]. done. }
  destruct (walk_chain B rd_succ x h Hh fuel r [] ids m Hm (Hf r (or_introl eq_refl))) as
    (hd & tl & news & m' & Hw & Hm' & Hlinks & (p0 & Hlast & Hp0) & _ & Htl & Hcase).
  rewrite app_nil_r in Hw.
  destruct (IH (ids ++ news) m' Hm' (fun r' Hr' => Hf r' (or_intror Hr'))) as
    (ps & more & Hc & Hrec).
  exists (close_path (hd :: tl) [] :: ps), (news ++ more).
  split.
  { cbn [collect_paths]. cbn [length] in Hw. rewrite Hw, Hc, app_assoc. done. }
  intros rows Hlen HL HD.
  set (n := length ids) in *.
  set (idsF := ids ++ news ++ more) in *.
  assert (HidsF : (ids ++ news) ++ more = idsF) by (unfold idsF; rewrite app_assoc; done).
  assert (Hlift : forall k r', (ids ++ news) !! k = Some r' -> idsF !! k = Some r').
  { intros k r' Hk. rewrite <- HidsF. apply lookup_app_l_Some, Hk. }
  assert (HlenF : length idsF = n + length news + length more)
    by (unfold idsF, n; rewrite !length_app; lia).
  assert (Htl_range : forall p, In p tl -> n <= p < n + length tl).
  { intros p Hp. rewrite Htl in Hp. apply in_rev_seq in Hp. done. }
  assert (Hhd_tl : ~ In hd tl).
  { intros Hin. apply Htl_range in Hin. destruct Hcase as [[? _]|[? _]]; lia. }
  assert (Hnews : length tl <= length news) by (destruct Hcase as [[_ ?]|[_ [? _]]]; lia).
  destruct (apply_close_path (anchor x) (rd_succ (fork_succ x)) L D HDn idsF rows (hd :: tl))
    as (Hlen' & Hin' & Hout').
  - rewrite <- HidsF. apply links_app, Hlinks.
  - apply NoDup_cons. split; [rewrite list_elem_of_In; done|].
    rewrite Htl. apply NoDup_rev_seq.
  - intros p [<-|Hp]; rewrite Hlen, HlenF.
    + destruct Hcase as [[? _]|[? [? _]]]; lia.
    + apply Htl_range in Hp. lia.
  - intros hd' [= <-]. destruct Hcase as [[Hhd _]|[Hhd [_ (ra & Hra & Ha)]]].
    + destruct (lookup_lt_is_Some_2 idsF hd) as [r' Hr']; [lia|].
      exists r'. split; [done|]. apply HL; done.
    + exists ra. split; [apply Hlift, Hra|].
      rewrite (HD hd ra) by (apply Hlift in Hra; done || lia). apply HDa, Ha.
  - intros p r' Hp Hr'. apply Htl_range in Hp. apply HD; [done | lia].
  - cbn [reconstruct map]. rewrite (last_close_path _ p0 Hlast). f_equal.
    + apply Hin'; [|apply Hlift, Hp0]. apply list_elem_of_In, last_Some_elem_of, Hlast.
    + apply Hrec.
      * rewrite Hlen', Hlen, HidsF. done.
      * rewrite HidsF. intros k r' Hk Hlt. rewrite length_app in Hlt. fold n in Hlt.
        destruct (decide (k < n)) as [Hkn|Hkn].
        -- rewrite Hout'; [apply HL; done|]. intros Hin. apply Htl_range in Hin. lia.
        -- apply Hin'; [|done].
           destruct Hcase as [[Hhd Hn]|[Hhd [Hn _]]].
           ++ right. rewrite Htl. apply in_rev_seq. lia.
           ++ destruct (decide (k = hd)) as [->|Hkhd]; [left; done|].
              right. rewrite Htl. apply in_rev_seq. lia.
      * rewrite HidsF. intros k r' Hk Hle. rewrite length_app in Hle. fold n in Hle.
        rewrite Hout'; [apply HD; [done | lia]|].
        intros Hin. apply Htl_range in Hin. lia.
Qed.

End Correctness.

(** [get_row_values] reconstructs the logical rows, given that the stored
    row of an anchor decodes to its logical row and the stored row of
    another row decodes to the difference with its successor *)
Lemma get_row_values_correct {B : Type} (base_get_row : B -> Row -> RowValues)
    (rd_succ : bv -> Row -> Row) (x : row_diff B) (h : Row -> nat)
    (L : Row -> RowValues) (fuel : nat) (row_ids : list Row) :
  (forall r, bit (anchor x) r = false -> h (rd_succ (fork_succ x) r) < h r) ->
  (forall r, bit (anchor x) r = true ->
     sort_row (decode_diffs (base_get_row (diffs x) r)) = L r) ->
  (forall r, bit (anchor x) r = false ->
     add_diff (L (rd_succ (fork_succ x) r)) (sort_row (decode_diffs (base_get_row (diffs x) r)))
     = L r) ->
  (forall r, In r row_ids -> h r < fuel) ->
  get_row_values base_get_row rd_succ x fuel row_ids = Some (map L row_ids).
Proof.
  intros Hh HDa HDn Hf.
  set (D := fun r => sort_row (decode_diffs (base_get_row (diffs x) r))).
  destruct (collect_reconstruct B rd_succ x h Hh L D HDa HDn fuel row_ids [] ∅
              index_map_empty Hf) as (ps & more & Hc & Hrec).
  unfold get_row_values. rewrite Hc. f_equal. apply Hrec.
  - rewrite length_map. done.
  - intros k r _ Hk. cbn in Hk. lia.
  - intros k r Hk _. cbn [app] in *.
    rewrite list_lookup_total_alt, list_lookup_fmap, Hk. done.
Qed.

End RowDiffCorrectness.

(* ------------------------------------------------------------------ *)
(** ** The row-diff transform is inverted by [get_row_values] (claim C1) *)
(* ------------------------------------------------------------------ *)

Module TupleRowDiffFacts.
Import TupleRowDiff.

(** rows of tuples sorted by column, as [add_diff] asserts *)
Definition tcol_lt (p q : N * Tuple) : Prop := (p.1 < q.1)%N.

(** the tuple of column [j] in a row *)
Fixpoint col_lookup (row : RowTuples) (j : N) : option Tuple :=
  match row with
  | [] => None
  | (c, t) :: row' => if (c =? j)%N then Some t else col_lookup row' j
  end.

(** the tuple of a column after the merge, from its tuple in [row] and in [diff] *)
Definition merged (o1 o2 : option Tuple) : option Tuple :=
  match o1, o2 with
  | Some _, Some [] => None
  | Some t, Some d => Some (set_symmetric_difference t d)
  | Some t, None => Some t
  | None, o => o
  end.

Lemma ssd_cons_cons (x : N) (t1 : Tuple) (y : N) (t2 : Tuple) :
  set_symmetric_difference (x :: t1) (y :: t2) =
  if (x <? y)%N then x :: set_symmetric_difference t1 (y :: t2)
  else if (y <? x)%N then y :: set_symmetric_difference (x :: t1) t2
  else set_symmetric_difference t1 t2.
Proof. reflexivity. Qed.

Lemma ssd_nil_r (t : Tuple) : set_symmetric_difference t [] = t.
Proof. destruct t; done. Qed.

Lemma ssd_forall (Q : N -> Prop) (t1 t2 : Tuple) :
  Forall Q t1 -> Forall Q t2 -> Forall Q (set_symmetric_difference t1 t2).
Proof.
  revert t2. induction t1 as [|x t1 IH1]; intros t2 H1 H2; [done|].
  induction t2 as [|y t2 IH2]; [rewrite ssd_nil_r; done|].
  apply Forall_cons in H1 as [Hx H1']. apply Forall_cons in H2 as [Hy H2'].
  rewrite ssd_cons_cons.
  destruct (x <? y)%N.
  { constructor; [done|]. apply IH1; [done|]. constructor; done. }
  destruct (y <? x)%N.
  { constructor; [done|]. apply IH2; done. }
  apply IH1; done.
Qed.

Lemma ssd_spec (t1 t2 : Tuple) :
  StronglySorted N.lt t1 -> StronglySorted N.lt t2 ->
  StronglySorted N.lt (set_symmetric_difference t1 t2) /\
  forall x, (x ∈ set_symmetric_difference t1 t2) <->
            ((x ∈ t1) /\ (x ∉ t2)) \/ ((x ∉ t1) /\ (x ∈ t2)).
Proof.
  revert t2. induction t1 as [|x t1 IH1]; intros t2 H1 H2.
  { cbn. split; [done|]. intros z. split; [intros Hz; right; split; [apply not_elem_of_nil|]; done|].
    intros [[Hz _]|[_ Hz]]; [by apply not_elem_of_nil in Hz|done]. }
  induction t2 as [|y t2 IH2].
  { rewrite ssd_nil_r. split; [done|]. intros z. split; [intros Hz; left; split; [done|apply not_elem_of_nil]|].
    intros [[Hz _]|[_ Hz]]; [done|by apply not_elem_of_nil in Hz]. }
  pose proof H1 as H1'. pose proof H2 as H2'.
  apply StronglySorted_inv in H1' as [Hs1 Hx]. apply StronglySorted_inv in H2' as [Hs2 Hy].
  rewrite List.Forall_forall in Hx, Hy.
  rewrite ssd_cons_cons.
  destruct (N.ltb_spec x y) as [Hxy|Hxy].
  { destruct (IH1 (y :: t2) Hs1 H2) as [Hs Hm]. split.
    - constructor; [done|]. apply ssd_forall.
      + apply List.Forall_forall. intros z Hz. apply Hx. done.
      + constructor; [done|]. apply List.Forall_forall. intros z Hz. specialize (Hy z Hz). lia.
    - intros z. rewrite elem_of_cons, Hm, !elem_of_cons.
      split.
      + intros [->|[[Hz1 Hz2]|[Hz1 Hz2]]].
        * left. split; [by left|]. intros [Hz|Hz]; [lia|].
          apply list_elem_of_In in Hz. specialize (Hy _ Hz). lia.
        * left. split; [by right|done].
        * right. split; [|done]. intros [->|Hz]; [|done].
          destruct Hz2 as [Hz2|Hz2]; [lia|]. apply list_elem_of_In in Hz2. specialize (Hy _ Hz2). lia.
      + intros [[[->|Hz1] Hz2]|[Hz1 Hz2]]; [by left|right; left; done|].
        right. right. split; [|done]. intros Hz. apply Hz1. by right. }
  destruct (N.ltb_spec y x) as [Hyx|Hyx].
  { destruct IH2 as [Hs Hm]; [done|]. split.
    - constructor; [done|]. apply ssd_forall.
      + constructor; [lia|]. apply List.Forall_forall. intros z Hz. specialize (Hx z Hz). lia.
      + apply List.Forall_forall. intros z Hz. apply Hy. done.
    - intros z. rewrite elem_of_cons, Hm, !elem_of_cons.
      split.
      + intros [->|[[Hz1 Hz2]|[Hz1 Hz2]]].
        * right. split; [|by left]. intros [Hz|Hz]; [lia|].
          apply list_elem_of_In in Hz. specialize (Hx _ Hz). lia.
        * left. split; [done|]. intros [->|Hz]; [|done].
          destruct Hz1 as [Hz1|Hz1]; [lia|]. apply list_elem_of_In in Hz1. specialize (Hx _ Hz1). lia.
        * right. split; [done|by right].
      + intros [[Hz1 Hz2]|[Hz1 [->|Hz2]]]; [|by left|].
        * right. left. split; [done|]. intros Hz. apply Hz2. by right.
        * right. right. done. }
  assert (x = y) as <- by lia.
  destruct (IH1 t2 Hs1 Hs2) as [Hs Hm]. split; [done|].
  intros z. rewrite Hm, !elem_of_cons. split.
  - intros [[Hz1 Hz2]|[Hz1 Hz2]].
    + left. split; [by right|]. intros [->|Hz]; [|done].
      apply list_elem_of_In in Hz1. specialize (Hx _ Hz1). lia.
    + right. split; [|by right]. intros [->|Hz]; [|done].
      apply list_elem_of_In in Hz2. specialize (Hy _ Hz2). lia.
  - intros [[[->|Hz1] Hz2]|[Hz1 [->|Hz2]]].
    + exfalso. apply Hz2. by left.
    + left. split; [done|]. intros Hz. apply Hz2. by right.
    + exfalso. apply Hz1. by left.
    + right. split; [|done]. intros Hz. apply Hz1. by right.
Qed.

(** [std::set_symmetric_difference] of strictly sorted tuples is strictly
    sorted and holds the coordinates in exactly one of them *)
Theorem set_symmetric_difference_spec (t1 t2 : Tuple) :
  StronglySorted N.lt t1 -> StronglySorted N.lt t2 ->
  StronglySorted N.lt (set_symmetric_difference t1 t2) /\
  forall x, (x ∈ set_symmetric_difference t1 t2) <->
            ((x ∈ t1) /\ (x ∉ t2)) \/ ((x ∉ t1) /\ (x ∈ t2)).
Proof. apply ssd_spec. Qed.

Lemma set_symmetric_difference_spec_witness :
  StronglySorted N.lt (set_symmetric_difference [1; 4; 7]%N [2; 4]%N) /\
  (forall x, (x ∈ set_symmetric_difference [1; 4; 7]%N [2; 4]%N) <->
     ((x ∈ [1; 4; 7]%N) /\ (x ∉ [2; 4]%N)) \/ ((x ∉ [1; 4; 7]%N) /\ (x ∈ [2; 4]%N))).
Proof.
  apply set_symmetric_difference_spec; repeat constructor; lia.
Defined.


Lemma merge_tuples_nil_r (row : RowTuples) : merge_tuples row [] = row.
Proof. destruct row as [|[c t] row]; done. Qed.

Lemma merge_tuples_cons_cons (c1 : N) (t1 : Tuple) (r : RowTuples) (c2 : N) (t2 : Tuple)
    (d : RowTuples) :
  merge_tuples ((c1, t1) :: r) ((c2, t2) :: d) =
  if (c1 <? c2)%N then (c1, t1) :: merge_tuples r ((c2, t2) :: d)
  else if (c2 <? c1)%N then (c2, t2) :: merge_tuples ((c1, t1) :: r) d
  else match t2 with
       | [] => merge_tuples r d
       | _ => (c1, set_symmetric_difference t1 t2) :: merge_tuples r d
       end.
Proof. reflexivity. Qed.

Lemma merge_tuples_cols (Q : N -> Prop) (r d : RowTuples) :
  Forall (fun p => Q p.1) r -> Forall (fun p => Q p.1) d ->
  Forall (fun p => Q p.1) (merge_tuples r d).
Proof.
  revert d. induction r as [|[c1 t1] r IH1]; intros d H1 H2; [done|].
  induction d as [|[c2 t2] d IH2]; [rewrite merge_tuples_nil_r; done|].
  apply Forall_cons in H1 as [Hx H1']. apply Forall_cons in H2 as [Hy H2'].
  rewrite merge_tuples_cons_cons.
  destruct (c1 <? c2)%N.
  { constructor; [done|]. apply IH1; [done|]. constructor; done. }
  destruct (c2 <? c1)%N.
  { constructor; [done|]. apply IH2; done. }
  destruct t2; [apply IH1; done|]. constructor; [done|]. apply IH1; done.
Qed.

Lemma col_lookup_none (row : RowTuples) (j : N) :
  Forall (fun p => j < p.1)%N row -> col_lookup row j = None.
Proof.
  induction row as [|[c t] row IH]; intros H; [done|].
  apply Forall_cons in H as [Hc H]. cbn in Hc |- *.
  destruct (N.eqb_spec c j); [lia|]. apply IH, H.
Qed.

Lemma sorted_gt (c : N) (t : Tuple) (row : RowTuples) (j : N) :
  Forall (tcol_lt (c, t)) row -> (j <= c)%N -> Forall (fun p => j < p.1)%N row.
Proof.
  intros H Hj. eapply Forall_impl; [exact H|]. intros [c' t']. unfold tcol_lt. cbn. lia.
Qed.

Lemma merge_tuples_spec (r d : RowTuples) :
  StronglySorted tcol_lt r -> StronglySorted tcol_lt d ->
  StronglySorted tcol_lt (merge_tuples r d) /\
  forall j, col_lookup (merge_tuples r d) j = merged (col_lookup r j) (col_lookup d j).
Proof.
  revert d. induction r as [|[c1 t1] r IH1]; intros d H1 H2.
  { split; [done|]. intros j. cbn. done. }
  induction d as [|[c2 t2] d IH2].
  { rewrite merge_tuples_nil_r. split; [done|]. intros j. cbn.
    destruct (c1 =? j)%N; [done|]. destruct (col_lookup r j); done. }
  pose proof H1 as H1'. pose proof H2 as H2'.
  apply StronglySorted_inv in H1' as [Hs1 Hx]. apply StronglySorted_inv in H2' as [Hs2 Hy].
  rewrite merge_tuples_cons_cons.
  destruct (N.ltb_spec c1 c2) as [Hlt|Hge].
  { destruct (IH1 _ Hs1 H2) as [Hs Hm]. split.
    - constructor; [done|]. apply merge_tuples_cols; [exact Hx|].
      constructor; [unfold tcol_lt; cbn; lia|].
      eapply Forall_impl; [exact Hy|]. intros [c t]. unfold tcol_lt. cbn. lia.
    - intros j. cbn [col_lookup]. rewrite Hm. cbn [col_lookup].
      destruct (N.eqb_spec c1 j) as [<-|Hne]; [|done].
      rewrite (proj2 (N.eqb_neq c2 c1)) by lia.
      rewrite (col_lookup_none d); [done|]. eapply sorted_gt; [exact Hy|lia]. }
  destruct (N.ltb_spec c2 c1) as [Hlt'|Hge'].
  { destruct IH2 as [Hs Hm]; [done|]. split.
    - constructor; [done|]. apply merge_tuples_cols; [|exact Hy].
      constructor; [unfold tcol_lt; cbn; lia|].
      eapply Forall_impl; [exact Hx|]. intros [c t]. unfold tcol_lt. cbn. lia.
    - intros j. cbn [col_lookup]. rewrite Hm. cbn [col_lookup].
      destruct (N.eqb_spec c2 j) as [<-|Hne]; [|done].
      rewrite (proj2 (N.eqb_neq c1 c2)) by lia.
      rewrite (col_lookup_none r); [done|]. eapply sorted_gt; [exact Hx|lia]. }
  assert (c1 = c2) as <- by lia.
  destruct (IH1 d Hs1 Hs2) as [Hs Hm].
  assert (Hnone : forall j, (j <= c1)%N -> col_lookup r j = None /\ col_lookup d j = None).
  { intros j Hj. split; apply col_lookup_none; eapply sorted_gt; done. }
  destruct t2 as [|y t2].
  - split; [done|]. intros j. rewrite Hm. cbn [col_lookup].
    destruct (N.eqb_spec c1 j) as [<-|Hne]; [|done].
    destruct (Hnone c1 ltac:(lia)) as [-> ->]. done.
  - split.
    + constructor; [done|]. apply merge_tuples_cols; [exact Hx|].
      eapply Forall_impl; [exact Hy|]. intros [c t]. unfold tcol_lt. cbn. done.
    + intros j. cbn [col_lookup]. rewrite Hm.
      destruct (N.eqb_spec c1 j) as [<-|Hne]; [done|].
      done.
Qed.

Lemma add_diff_lookup (diff row : RowTuples) :
  StronglySorted tcol_lt row -> StronglySorted tcol_lt diff ->
  StronglySorted tcol_lt (add_diff diff row) /\
  forall j, col_lookup (add_diff diff row) j =
            option_map (map unshift) (merged (col_lookup row j) (col_lookup diff j)).
Proof.
  intros Hr Hd.
  assert (Hm : add_diff diff row =
               map (fun '(j, t) => (j, map unshift t)) (merge_tuples row diff)).
  { unfold add_diff. destruct diff; [rewrite merge_tuples_nil_r|]; done. }
  rewrite Hm. destruct (merge_tuples_spec row diff Hr Hd) as [Hs Hl]. split.
  - clear Hl Hm. induction (merge_tuples row diff) as [|[c t] l IH]; [constructor|].
    apply StronglySorted_inv in Hs as [Hs Hf]. cbn. constructor; [by apply IH|].
    apply List.Forall_map. eapply Forall_impl; [exact Hf|]. intros [c' t']. done.
  - intros j. rewrite <- Hl. clear Hl Hm Hs.
    induction (merge_tuples row diff) as [|[c t] l IH]; [done|]. cbn.
    destruct (c =? j)%N; done.
Qed.

(** [TupleRowDiff::add_diff] on rows sorted by column: the result is sorted
    by column; a column of only one of the two rows keeps its tuple, a
    column of both gets the symmetric difference of the two tuples, or is
    dropped when its tuple in [diff] is empty; then every coordinate is
    decremented by [SHIFT] *)
Theorem add_diff_columns (diff row : RowTuples) :
  StronglySorted tcol_lt row -> StronglySorted tcol_lt diff ->
  StronglySorted tcol_lt (add_diff diff row) /\
  forall j, col_lookup (add_diff diff row) j =
            option_map (map unshift) (merged (col_lookup row j) (col_lookup diff j)).
Proof. apply add_diff_lookup. Qed.

Lemma add_diff_columns_witness :
  StronglySorted tcol_lt (add_diff [(0, [2; 5]); (3, [])]%N [(0, [3; 5]); (1, [4]); (3, [6])]%N) /\
  (forall j, col_lookup (add_diff [(0, [2; 5]); (3, [])]%N [(0, [3; 5]); (1, [4]); (3, [6])]%N) j =
     option_map (map unshift) (merged (col_lookup [(0, [3; 5]); (1, [4]); (3, [6])]%N j)
                                      (col_lookup [(0, [2; 5]); (3, [])]%N j))).
Proof.
  apply add_diff_columns; repeat constructor; unfold tcol_lt; cbn; lia.
Defined.

End TupleRowDiffFacts.

(* ------------------------------------------------------------------ *)
(** ** Correctness of [TupleRowDiff::get_row_tuples] *)
(* ------------------------------------------------------------------ *)

Module TupleRowDiffCorrectness.
Import BitVector RowDiffSerialization TupleRowDiff TupleRowDiffQuery TupleRowDiffFacts
  RowDiffPaths RowDiffWalkFacts RowDiffCorrectness.

(** tuple rows as [TupleRowDiff] stores them: sorted by column, each
    tuple strictly sorted, coordinates below [2^64 - SHIFT] *)
Definition tcanon (row : RowTuples) : Prop :=
  StronglySorted tcol_lt row /\
  Forall (fun p => StronglySorted N.lt p.2 /\ Forall (fun c => (c + 1 < 2 ^ 64)%N) p.2) row.

(** the tuple of a column in [tuple_delta], from its tuple in the
    successor's row and in the shifted row *)
Definition delta_col (o1 o2 : option Tuple) : option Tuple :=
  match o1, o2 with
  | Some t1, Some t2 => if bool_decide (t1 = t2) then None else Some (set_symmetric_difference t1 t2)
  | Some _, None => Some []
  | None, o => o
  end.

(** [rd_chain] follows the same path as the walk of [IntRowDiff::get_row_values]
    from a single query row, listing it from the query row on *)
Lemma rd_chain_walk {B : Type} (rd_succ : bv -> Row -> Row) (x : row_diff B) (f : nat)
    (r : Row) (path : list nat) (ids : list Row) (m : gmap Row nat) :
  rd_chain rd_succ x f r (rev path) ids m =
  match IntRowDiff.walk rd_succ x f [(length path, r)] path [] ids m with
  | Some (p, _, ids', m') => Some (rev p, ids', m')
  | None => None
  end.
Proof.
  revert r path ids m. induction f as [|f IH]; intros r path ids m; [done|].
  cbn [rd_chain IntRowDiff.walk]. rewrite unwind_noop by done.
  destruct (m !! r) as [k|]; [rewrite walk_nil; done|].
  destruct (bit (anchor x) r); [rewrite walk_nil; done|].
  exact (IH (rd_succ (fork_succ x) r) (length ids :: path) (ids ++ [r])
           (<[r := length ids]> m)).
Qed.

Lemma sort_tuples_sorted (row : RowTuples) :
  StronglySorted tcol_lt row -> sort_tuples row = row.
Proof.
  induction row as [|p row IH]; intros Hs; [done|].
  apply StronglySorted_inv in Hs as [Hs Hp]. cbn [sort_tuples]. rewrite IH by done.
  destruct row as [|q row]; [done|]. cbn [insert_tuple].
  apply Forall_cons in Hp as [Hq _]. unfold tcol_lt in Hq.
  unfold row_tuple_ltb. rewrite (proj2 (N.ltb_ge q.1 p.1)) by lia.
  rewrite (proj2 (N.eqb_neq q.1 p.1)) by lia. done.
Qed.

Lemma reconstruct_tuples_cons (p : list nat) (ps : list (list nat)) (rows : list RowTuples) :
  reconstruct_tuples (p :: ps) rows =
  match rev p with
  | [] => [] :: reconstruct_tuples ps rows
  | k :: ks =>
      let first := sort_tuples (rows !!! k) in
      let '(result, rows') := propagate ks first (<[k := first]> rows) in
      result :: reconstruct_tuples ps rows'
  end.
Proof. reflexivity. Qed.

Section Propagate.
Variable an : bv.
Variable succ : Row -> Row.
(** the logical rows and the stored rows *)
Variables L D : Row -> RowTuples.
Hypothesis HDn : forall r, bit an r = false -> add_diff (sort_tuples (D r)) (L (succ r)) = L r.

Lemma propagate_links (ids : list Row) (rows : list RowTuples) (hd : nat) (tl : list nat)
    (result : RowTuples) :
  links an succ ids (hd :: tl) -> NoDup (hd :: tl) -> (forall p, In p tl -> p < length rows) ->
  (exists rh, ids !! hd = Some rh /\ result = L rh) ->
  (forall p r, In p tl -> ids !! p = Some r -> rows !!! p = D r) ->
  length (propagate tl result rows).2 = length rows /\
  (forall p r, In p tl -> ids !! p = Some r -> (propagate tl result rows).2 !!! p = L r) /\
  (forall q, ~ In q tl -> (propagate tl result rows).2 !!! q = rows !!! q) /\
  (forall p0 r0, last (hd :: tl) = Some p0 -> ids !! p0 = Some r0 ->
     (propagate tl result rows).1 = L r0).
Proof.
  revert hd result rows.
  induction tl as [|p2 rest IH]; intros hd result rows Hl Hnd Hlt (rh & Hrh & ->) HD.
  - split_and!; [done | intros ? ? [] | done|].
    intros p0 r0 [= <-] Hr0. rewrite Hrh in Hr0. injection Hr0 as <-. done.
  - destruct Hl as [(r2 & H2 & Ha & H1) Hl]. rewrite Hrh in H1. injection H1 as ->.
    apply NoDup_cons in Hnd as [Hhd Hnd]. pose proof Hnd as Hnd2.
    apply NoDup_cons in Hnd2 as [Hp2 _]. rewrite list_elem_of_In in Hhd, Hp2.
    assert (Hlt2 : p2 < length rows) by (apply Hlt; left; done).
    assert (Hrow2 : rows !!! p2 = D r2) by (apply HD; [left|]; done).
    assert (Hres : add_diff (sort_tuples (rows !!! p2)) (L (succ r2)) = L r2)
      by (rewrite Hrow2; apply HDn, Ha).
    cbn [propagate]. rewrite Hres.
    set (rows1 := <[p2 := L r2]> rows).
    assert (Hrows1 : forall q, q <> p2 -> rows1 !!! q = rows !!! q).
    { intros q Hq. unfold rows1. apply list_lookup_total_insert_ne. done. }
    destruct (IH p2 (L r2) rows1) as (IHlen & IHin & IHout & IHlast).
    + exact Hl.
    + exact Hnd.
    + intros p Hp. unfold rows1. rewrite length_insert. apply Hlt. right. done.
    + exists r2. done.
    + intros p r Hp Hr. rewrite Hrows1 by (intros ->; done). apply HD; [right|]; done.
    + split_and!.
      * rewrite IHlen. unfold rows1. apply length_insert.
      * intros p r [Heq|Hp] Hr; [|apply IHin; done]. rewrite <- Heq in Hr |- *.
        rewrite IHout by done. unfold rows1. rewrite list_lookup_total_insert_eq by done.
        assert (E : Some r = Some r2) by (etransitivity; [symmetry; exact Hr | exact H2]). injection E as ->. done.
      * intros q Hq. rewrite IHout by (intros Hin; apply Hq; right; done).
        apply Hrows1. intros ->. apply Hq. left. done.
      * intros p0 r0 Hlast Hr0. rewrite last_cons_cons in Hlast. apply (IHlast p0); done.
Qed.

End Propagate.

Section Correctness.
Variable B : Type.
Variable rd_succ : bv -> Row -> Row.
Variable x : row_diff B.
Variable h : Row -> nat.
Hypothesis Hh : forall r, bit (anchor x) r = false -> h (rd_succ (fork_succ x) r) < h r.
Variables L D : Row -> RowTuples.
Hypothesis HDa : forall r, bit (anchor x) r = true -> sort_tuples (D r) = L r.
Hypothesis HDn : forall r, bit (anchor x) r = false ->
  add_diff (sort_tuples (D r)) (L (rd_succ (fork_succ x) r)) = L r.
Hypothesis HLs : forall r, sort_tuples (L r) = L r.

Lemma collect_tuples (fuel : nat) (rs : list Row) (ids : list Row) (m : gmap Row nat) :
  index_map ids m -> (forall r, In r rs -> h r < fuel) ->
  exists ps more,
    get_rd_ids_aux rd_succ x fuel rs ids m = Some (ids ++ more, ps) /\
    forall rows, length rows = length (ids ++ more) ->
      (forall k r, (ids ++ more) !! k = Some r -> k < length ids -> rows !!! k = L r) ->
      (forall k r, (ids ++ more) !! k = Some r -> length ids <= k -> rows !!! k = D r) ->
      reconstruct_tuples ps rows = map L rs.
Proof.
  revert ids m. induction rs as [|r rs IH]; intros ids m Hm Hf.
  { exists [], []. rewrite app_nil_r. split; [done|]. done. }
  destruct (walk_chain B rd_succ x h Hh fuel r [] ids m Hm (Hf r (or_introl eq_refl))) as
    (hd & tl & news & m' & Hw & Hm' & Hlinks & (p0 & Hlast & Hp0) & _ & Htl & Hcase).
  rewrite app_nil_r in Hw.
  pose proof (rd_chain_walk rd_succ x fuel r [] ids m) as Hchain.
  rewrite Hw in Hchain. cbn [rev] in Hchain.
  destruct (IH (ids ++ news) m' Hm' (fun r' Hr' => Hf r' (or_intror Hr'))) as
    (ps & more & Hc & Hrec).
  exists (rev (hd :: tl) :: ps), (news ++ more).
  split.
  { cbn [get_rd_ids_aux]. rewrite Hchain, Hc, app_assoc. done. }
  intros rows Hlen HL HD.
  set (n := length ids) in *.
  set (idsF := ids ++ news ++ more) in *.
  assert (HidsF : (ids ++ news) ++ more = idsF) by (unfold idsF; rewrite app_assoc; done).
  assert (Hlift : forall k r', (ids ++ news) !! k = Some r' -> idsF !! k = Some r').
  { intros k r' Hk. rewrite <- HidsF. apply lookup_app_l_Some, Hk. }
  assert (HlenF : length idsF = n + length news + length more)
    by (unfold idsF, n; rewrite !length_app; lia).
  assert (Htl_range : forall p, In p tl -> n <= p < n + length tl).
  { intros p Hp. rewrite Htl in Hp. apply in_rev_seq in Hp. done. }
  assert (Hhd_tl : ~ In hd tl).
  { intros Hin. apply Htl_range in Hin. destruct Hcase as [[? _]|[? _]]; lia. }
  assert (Hnews : length tl <= length news) by (destruct Hcase as [[_ ?]|[_ [? _]]]; lia).
  assert (Hhd_lt : hd < length rows).
  { rewrite Hlen, HlenF. destruct Hcase as [[? _]|[? [? _]]]; lia. }
  (* the row the path starts from *)
  assert (Hfirst : exists rh, idsF !! hd = Some rh /\ sort_tuples (rows !!! hd) = L rh).
  { destruct Hcase as [[Hhd _]|[Hhd [_ (ra & Hra & Ha)]]].
    - destruct (lookup_lt_is_Some_2 idsF hd) as [r' Hr']; [lia|].
      exists r'. split; [done|]. rewrite (HL hd r') by done. apply HLs.
    - exists ra. split; [apply Hlift, Hra|].
      rewrite (HD hd ra) by (apply Hlift in Hra; done || lia). apply HDa, Ha. }
  destruct Hfirst as (rh & Hrh & Hsort).
  set (rows0 := <[hd := L rh]> rows).
  assert (Hrows0 : forall q, q <> hd -> rows0 !!! q = rows !!! q).
  { intros q Hq. unfold rows0. apply list_lookup_total_insert_ne. done. }
  destruct (propagate_links (anchor x) (rd_succ (fork_succ x)) L D HDn idsF rows0 hd tl (L rh))
    as (Hlen' & Hin' & Hout' & Hlast').
  - rewrite <- HidsF. apply links_app, Hlinks.
  - apply NoDup_cons. split; [rewrite list_elem_of_In; done|].
    rewrite Htl. apply NoDup_rev_seq.
  - intros p Hp. unfold rows0. rewrite length_insert, Hlen, HlenF.
    apply Htl_range in Hp. lia.
  - exists rh. done.
  - intros p r' Hp Hr'. rewrite Hrows0 by (intros ->; done).
    apply Htl_range in Hp. apply HD; [done | lia].
  - rewrite reconstruct_tuples_cons, rev_involutive. cbn zeta. rewrite Hsort. fold rows0.
    destruct (propagate tl (L rh) rows0) as [res rows'] eqn:Ep. cbn [fst snd] in *.
    cbn [map]. f_equal.
    + apply (Hlast' p0); [done | apply Hlift, Hp0].
    + apply Hrec.
      * rewrite Hlen'. unfold rows0. rewrite length_insert, Hlen, HidsF. done.
      * rewrite HidsF. intros k r' Hk Hlt. rewrite length_app in Hlt. fold n in Hlt.
        destruct (in_dec Nat.eq_dec k tl) as [Hin|Hnin]; [apply Hin'; done|].
        rewrite Hout' by done.
        destruct (decide (k = hd)) as [->|Hkhd].
        -- unfold rows0. rewrite list_lookup_total_insert_eq by done.
           rewrite Hrh in Hk. injection Hk as <-. done.
        -- rewrite Hrows0 by done. destruct (decide (k < n)) as [Hkn|Hkn]; [apply HL; done|].
           exfalso. apply Hnin. rewrite Htl. apply in_rev_seq.
           destruct Hcase as [[Hhd Hn]|[Hhd [Hn _]]]; lia.
      * rewrite HidsF. intros k r' Hk Hle. rewrite length_app in Hle. fold n in Hle.
        rewrite Hout'.
        -- rewrite Hrows0; [apply HD; [done | lia]|].
           intros ->. destruct Hcase as [[? _]|[? [? _]]]; lia.
        -- intros Hin. apply Htl_range in Hin. lia.
Qed.

End Correctness.

(** [get_row_tuples] reconstructs the logical rows, given that the sorted
    stored row of an anchor is its logical row and that [add_diff] of the
    sorted stored row of another row onto the logical row of its successor
    gives its logical row *)
Lemma get_row_tuples_correct {B : Type} (base_get_row_tuples : B -> Row -> RowTuples)
    (rd_succ : bv -> Row -> Row) (x : row_diff B) (h : Row -> nat)
    (L : Row -> RowTuples) (fuel : nat) (row_ids : list Row) :
  (forall r, bit (anchor x) r = false -> h (rd_succ (fork_succ x) r) < h r) ->
  (forall r, bit (anchor x) r = true ->
     sort_tuples (decode_diffs (base_get_row_tuples (diffs x) r)) = L r) ->
  (forall r, bit (anchor x) r = false ->
     add_diff (sort_tuples (decode_diffs (base_get_row_tuples (diffs x) r)))
       (L (rd_succ (fork_succ x) r)) = L r) ->
  (forall r, sort_tuples (L r) = L r) ->
  (forall r, In r row_ids -> h r < fuel) ->
  get_row_tuples base_get_row_tuples rd_succ x fuel row_ids = Some (map L row_ids).
Proof.
  intros Hh HDa HDn HLs Hf.
  set (D := fun r => decode_diffs (base_get_row_tuples (diffs x) r)).
  destruct (collect_tuples B rd_succ x h Hh L D HDa HDn HLs fuel row_ids [] ∅
              index_map_empty Hf) as (ps & more & Hc & Hrec).
  unfold get_row_tuples, get_rd_ids. rewrite Hc. f_equal. apply Hrec.
  - rewrite length_map. done.
  - intros k r _ Hk. cbn in Hk. lia.
  - intros k r Hk _. cbn [app] in *.
    rewrite list_lookup_total_alt, list_lookup_fmap, Hk. done.
Qed.

(** ** The row-diff transform of tuple rows *)

Lemma delta_merge_nil_r (s : RowTuples) :
  delta_merge s [] = map (fun '(j, _) => (j, [])) s.
Proof. destruct s as [|[c t] s]; done. Qed.

Lemma delta_merge_cons_cons (c1 : N) (t1 : Tuple) (s : RowTuples) (c2 : N) (t2 : Tuple)
    (r : RowTuples) :
  delta_merge ((c1, t1) :: s) ((c2, t2) :: r) =
  if (c1 <? c2)%N then (c1, []) :: delta_merge s ((c2, t2) :: r)
  else if (c2 <? c1)%N then (c2, t2) :: delta_merge ((c1, t1) :: s) r
  else if bool_decide (t1 = t2) then delta_merge s r
  else (c1, set_symmetric_difference t1 t2) :: delta_merge s r.
Proof. reflexivity. Qed.

Lemma clear_cols_spec (s : RowTuples) :
  StronglySorted tcol_lt s ->
  StronglySorted tcol_lt (map (fun '(j, _) => (j, [])) s) /\
  (forall Q, Forall (fun p => Q p.1) s -> Forall (fun p => Q p.1) (map (fun '(j, _) => (j, [] : Tuple)) s)) /\
  forall j, col_lookup (map (fun '(j, _) => (j, [])) s) j = delta_col (col_lookup s j) None.
Proof.
  induction s as [|[c t] s IH]; intros Hs; [split_and!; done|].
  apply StronglySorted_inv in Hs as [Hs Hc]. destruct (IH Hs) as (IHs & IHq & IHl).
  split_and!.
  - cbn [map]. constructor; [done|]. apply (IHq (fun j => c < j)%N), Hc.
  - intros Q HQ. apply Forall_cons in HQ as [? ?]. cbn [map]. constructor; [done|]. apply IHq. done.
  - intros j. cbn [map col_lookup]. destruct (c =? j)%N; [done|]. apply IHl.
Qed.

Lemma delta_merge_cols (Q : N -> Prop) (s r : RowTuples) :
  Forall (fun p => Q p.1) s -> Forall (fun p => Q p.1) r ->
  Forall (fun p => Q p.1) (delta_merge s r).
Proof.
  revert r. induction s as [|[c1 t1] s IH1]; intros r H1 H2; [done|].
  induction r as [|[c2 t2] r IH2].
  { rewrite delta_merge_nil_r. apply Forall_cons in H1 as [Hx H1'].
    cbn [map]. constructor; [done|]. clear -H1'. induction s as [|[c t] s IH]; [done|].
    apply Forall_cons in H1' as [? ?]. constructor; [done|]. apply IH. done. }
  apply Forall_cons in H1 as [Hx H1']. apply Forall_cons in H2 as [Hy H2'].
  rewrite delta_merge_cons_cons.
  destruct (c1 <? c2)%N.
  { constructor; [done|]. apply IH1; [done|]. constructor; done. }
  destruct (c2 <? c1)%N.
  { constructor; [done|]. apply IH2; done. }
  destruct (bool_decide (t1 = t2)); [apply IH1; done|]. constructor; [done|]. apply IH1; done.
Qed.

Lemma delta_merge_spec (s r : RowTuples) :
  StronglySorted tcol_lt s -> StronglySorted tcol_lt r ->
  StronglySorted tcol_lt (delta_merge s r) /\
  forall j, col_lookup (delta_merge s r) j = delta_col (col_lookup s j) (col_lookup r j).
Proof.
  revert r. induction s as [|[c1 t1] s IH1]; intros r H1 H2.
  { split; [done|]. intros j. cbn. done. }
  induction r as [|[c2 t2] r IH2].
  { rewrite delta_merge_nil_r. destruct (clear_cols_spec ((c1, t1) :: s) H1) as (Hs & _ & Hl).
    split; [done|]. intros j. rewrite Hl. cbn [col_lookup]. destruct (col_lookup _ j); done. }
  pose proof H1 as H1'. pose proof H2 as H2'.
  apply StronglySorted_inv in H1' as [Hs1 Hx]. apply StronglySorted_inv in H2' as [Hs2 Hy].
  rewrite delta_merge_cons_cons.
  destruct (N.ltb_spec c1 c2) as [Hlt|Hge].
  { destruct (IH1 _ Hs1 H2) as [Hs Hm]. split.
    - constructor; [done|]. apply delta_merge_cols; [exact Hx|].
      constructor; [unfold tcol_lt; cbn; lia|].
      eapply Forall_impl; [exact Hy|]. intros [c t]. unfold tcol_lt. cbn. lia.
    - intros j. cbn [col_lookup]. rewrite Hm. cbn [col_lookup].
      destruct (N.eqb_spec c1 j) as [<-|Hne]; [|done].
      rewrite (proj2 (N.eqb_neq c2 c1)) by lia.
      rewrite (col_lookup_none r); [done|]. eapply sorted_gt; [exact Hy|lia]. }
  destruct (N.ltb_spec c2 c1) as [Hlt'|Hge'].
  { destruct IH2 as [Hs Hm]; [done|]. split.
    - constructor; [done|]. apply delta_merge_cols; [|exact Hy].
      constructor; [unfold tcol_lt; cbn; lia|].
      eapply Forall_impl; [exact Hx|]. intros [c t]. unfold tcol_lt. cbn. lia.
    - intros j. cbn [col_lookup]. rewrite Hm. cbn [col_lookup].
      destruct (N.eqb_spec c2 j) as [<-|Hne]; [|done].
      rewrite (proj2 (N.eqb_neq c1 c2)) by lia.
      rewrite (col_lookup_none s); [done|]. eapply sorted_gt; [exact Hx|lia]. }
  assert (c1 = c2) as <- by lia.
  destruct (IH1 r Hs1 Hs2) as [Hs Hm].
  assert (Hnone : forall j, (j <= c1)%N -> col_lookup s j = None /\ col_lookup r j = None).
  { intros j Hj. split; apply col_lookup_none; eapply sorted_gt; done. }
  destruct (bool_decide (t1 = t2)) eqn:Ed.
  - split; [done|]. intros j. rewrite Hm. cbn [col_lookup].
    destruct (N.eqb_spec c1 j) as [<-|Hne]; [|done].
    destruct (Hnone c1 ltac:(lia)) as [-> ->]. cbn. rewrite Ed. done.
  - split.
    + constructor; [done|]. apply delta_merge_cols; [exact Hx|].
      eapply Forall_impl; [exact Hy|]. intros [c t]. unfold tcol_lt. cbn. done.
    + intros j. cbn [col_lookup]. rewrite Hm.
      destruct (N.eqb_spec c1 j) as [<-|Hne]; [|done].
      cbn. rewrite Ed. done.
Qed.

(** rows sorted by column are determined by their columns *)
Lemma rows_ext (r1 r2 : RowTuples) :
  StronglySorted tcol_lt r1 -> StronglySorted tcol_lt r2 ->
  (forall j, col_lookup r1 j = col_lookup r2 j) -> r1 = r2.
Proof.
  revert r2. induction r1 as [|[c1 t1] r1 IH]; intros r2 H1 H2 He.
  - destruct r2 as [|[c2 t2] r2]; [done|]. specialize (He c2). cbn in He.
    rewrite N.eqb_refl in He. done.
  - apply StronglySorted_inv in H1 as [Hs1 Hx].
    destruct r2 as [|[c2 t2] r2].
    { specialize (He c1). cbn in He. rewrite N.eqb_refl in He. done. }
    apply StronglySorted_inv in H2 as [Hs2 Hy].
    pose proof (He c1) as E1. pose proof (He c2) as E2. cbn [col_lookup] in E1, E2.
    rewrite N.eqb_refl in E1, E2.
    destruct (N.lt_trichotomy c1 c2) as [Hlt|[<-|Hlt]].
    + rewrite (proj2 (N.eqb_neq c2 c1)) in E1 by lia.
      rewrite col_lookup_none in E1; [done|]. eapply sorted_gt; [exact Hy|lia].
    + rewrite N.eqb_refl in E1. injection E1 as <-. f_equal. apply IH; [done|done|].
      intros j. specialize (He j). cbn [col_lookup] in He.
      destruct (N.eqb_spec c1 j) as [Heq|]; [subst j|done].
      rewrite !col_lookup_none; [done| |]; eapply sorted_gt; done || lia.
    + rewrite (proj2 (N.eqb_neq c1 c2)) in E2 by lia.
      rewrite col_lookup_none in E2; [done|]. eapply sorted_gt; [exact Hx|lia].
Qed.

(** strictly sorted tuples are determined by their elements *)
Lemma tuple_ext (t1 t2 : Tuple) :
  StronglySorted N.lt t1 -> StronglySorted N.lt t2 -> (forall c, c ∈ t1 <-> c ∈ t2) -> t1 = t2.
Proof.
  revert t2. induction t1 as [|x t1 IH]; intros t2 H1 H2 He.
  - destruct t2 as [|y t2]; [done|]. exfalso. apply (not_elem_of_nil y), He. left.
  - destruct t2 as [|y t2]; [exfalso; apply (not_elem_of_nil x), He; left|].
    apply StronglySorted_inv in H1 as [Hs1 Hx]. apply StronglySorted_inv in H2 as [Hs2 Hy].
    rewrite Forall_forall in Hx, Hy.
    assert (Hxy : x = y).
    { destruct (N.lt_trichotomy x y) as [Hlt|[?|Hlt]]; [|done|].
      - assert (Hin : x ∈ y :: t2) by (apply He; left).
        apply elem_of_cons in Hin as [->|Hin]; [lia|]. apply Hy in Hin. lia.
      - assert (Hin : y ∈ x :: t1) by (apply He; left).
        apply elem_of_cons in Hin as [->|Hin]; [lia|]. apply Hx in Hin. lia. }
    subst y. f_equal. apply IH; [done|done|]. intros c. split; intros Hc.
    + assert (Hin : c ∈ x :: t2) by (apply He; right; done).
      apply elem_of_cons in Hin as [->|]; [|done]. apply Hx in Hc. lia.
    + assert (Hin : c ∈ x :: t1) by (apply He; right; done).
      apply elem_of_cons in Hin as [->|]; [|done]. apply Hy in Hc. lia.
Qed.

Lemma ssd_involutive (t1 t2 : Tuple) :
  StronglySorted N.lt t1 -> StronglySorted N.lt t2 ->
  set_symmetric_difference t1 (set_symmetric_difference t1 t2) = t2.
Proof.
  intros H1 H2. destruct (ssd_spec t1 t2 H1 H2) as [Hs He].
  destruct (ssd_spec t1 _ H1 Hs) as [Hs' He'].
  apply tuple_ext; [done|done|]. intros c. rewrite He', He.
  destruct (decide (c ∈ t1)), (decide (c ∈ t2)); tauto.
Qed.

Lemma ssd_nil (t1 t2 : Tuple) :
  StronglySorted N.lt t1 -> StronglySorted N.lt t2 ->
  set_symmetric_difference t1 t2 = [] -> t1 = t2.
Proof.
  intros H1 H2 E. destruct (ssd_spec t1 t2 H1 H2) as [_ He].
  apply tuple_ext; [done|done|]. intros c. specialize (He c). rewrite E in He.
  destruct (decide (c ∈ t1)), (decide (c ∈ t2)); set_solver.
Qed.

Lemma col_lookup_shift_row (row : RowTuples) (j : N) :
  col_lookup (shift_row row) j = option_map (map shift) (col_lookup row j).
Proof.
  induction row as [|[c t] row IH]; [done|]. cbn. destruct (c =? j)%N; [done|]. apply IH.
Qed.

Lemma shift_row_sorted (row : RowTuples) :
  StronglySorted tcol_lt row -> StronglySorted tcol_lt (shift_row row).
Proof.
  induction row as [|[c t] row IH]; intros H; [constructor|].
  apply StronglySorted_inv in H as [Hs Hc]. cbn [shift_row map]. constructor; [apply IH, Hs|].
  clear -Hc. induction row as [|[c' t'] row IH]; [done|].
  apply Forall_cons in Hc as [? ?]. constructor; [done|]. apply IH. done.
Qed.

Lemma shift_sorted (t : Tuple) :
  StronglySorted N.lt t -> Forall (fun c => (c + 1 < 2 ^ 64)%N) t ->
  StronglySorted N.lt (map shift t).
Proof.
  induction t as [|c t IH]; intros H Hb; [constructor|].
  apply StronglySorted_inv in H as [Hs Hc]. apply Forall_cons in Hb as [Hb1 Hb].
  cbn [map]. constructor; [apply IH; done|].
  apply Forall_map. rewrite Forall_forall in Hc, Hb |- *. intros c' Hin.
  specialize (Hc c' Hin). specialize (Hb c' Hin). unfold shift, SHIFT.
  rewrite !N.mod_small by lia. lia.
Qed.

Lemma unshift_shift (t : Tuple) :
  Forall (fun c => (c + 1 < 2 ^ 64)%N) t -> map unshift (map shift t) = t.
Proof.
  induction t as [|c t IH]; intros Hb; [done|]. apply Forall_cons in Hb as [Hb1 Hb].
  cbn [map]. rewrite IH by done. f_equal. unfold unshift, shift, SHIFT.
  rewrite (N.mod_small (c + 1)) by lia.
  replace (c + 1 + (2 ^ 64 - 1))%N with (c + 2 ^ 64)%N by lia.
  rewrite N.Div0.add_mod, N.Div0.mod_same, N.add_0_r, N.Div0.mod_mod. apply N.mod_small. lia.
Qed.

Lemma tcanon_lookup (row : RowTuples) (j : N) (t : Tuple) :
  tcanon row -> col_lookup row j = Some t ->
  StronglySorted N.lt t /\ Forall (fun c => (c + 1 < 2 ^ 64)%N) t.
Proof.
  intros [_ Hf] Hl. induction row as [|[c t'] row IH]; [done|].
  apply Forall_cons in Hf as [Hp Hf]. cbn in Hl.
  destruct (c =? j)%N; [injection Hl as <-; done|]. apply IH; done.
Qed.

Lemma tuple_delta_sorted (s r : RowTuples) :
  tcanon s -> tcanon r -> StronglySorted tcol_lt (tuple_delta s r).
Proof.
  intros [Hs _] [Hr _]. apply (delta_merge_spec s (shift_row r) Hs (shift_row_sorted r Hr)).
Qed.

(** [add_diff] of the stored delta onto the successor's row gives back the row *)
Lemma add_diff_tuple_delta (s r : RowTuples) :
  tcanon s -> tcanon r -> add_diff (tuple_delta s r) s = r.
Proof.
  intros Hcs Hcr. pose proof Hcs as [Hs _]. pose proof Hcr as [Hr _].
  destruct (delta_merge_spec s (shift_row r) Hs (shift_row_sorted r Hr)) as [Hd Hdl].
  destruct (add_diff_lookup (tuple_delta s r) s Hs Hd) as [Ha Hal].
  apply rows_ext; [done|done|]. intros j. rewrite Hal. unfold tuple_delta. rewrite Hdl.
  rewrite col_lookup_shift_row.
  destruct (col_lookup s j) as [t1|] eqn:E1, (col_lookup r j) as [t2|] eqn:E2; cbn.
  - destruct (tcanon_lookup s j t1 Hcs E1) as [Hs1 _].
    destruct (tcanon_lookup r j t2 Hcr E2) as [Hs2 Hb2].
    pose proof (shift_sorted t2 Hs2 Hb2) as Hu.
    destruct (bool_decide (t1 = map shift t2)) eqn:Eq.
    + apply bool_decide_eq_true in Eq. cbn. rewrite Eq, unshift_shift by done. done.
    + apply bool_decide_eq_false in Eq.
      destruct (set_symmetric_difference t1 (map shift t2)) as [|d ds] eqn:Ed.
      { exfalso. apply Eq. apply ssd_nil; done. }
      rewrite <- Ed, ssd_involutive by done. cbn. rewrite unshift_shift by done. done.
  - done.
  - rewrite unshift_shift; [done|]. apply (tcanon_lookup r j t2 Hcr E2).
  - done.
Qed.

(** the stored rows of [tuple_store] meet the hypotheses of [get_row_tuples_correct] *)
Lemma tuple_store_anchor (T : Row -> RowTuples) (an : bv) (succ : Row -> Row) (r : Row) :
  tcanon (T r) -> bit an r = true -> sort_tuples (decode_diffs (tuple_store T an succ r)) = T r.
Proof.
  intros [Hs _] Ha. unfold decode_diffs, tuple_store. rewrite Ha. apply sort_tuples_sorted, Hs.
Qed.

Lemma tuple_store_diff (T : Row -> RowTuples) (an : bv) (succ : Row -> Row) (r : Row) :
  tcanon (T (succ r)) -> tcanon (T r) -> bit an r = false ->
  add_diff (sort_tuples (decode_diffs (tuple_store T an succ r))) (T (succ r)) = T r.
Proof.
  intros Hs Hr Ha. unfold decode_diffs, tuple_store. rewrite Ha.
  rewrite sort_tuples_sorted by (apply tuple_delta_sorted; done).
  apply add_diff_tuple_delta; done.
Qed.

End TupleRowDiffCorrectness.

Module RowDiffClaims.
Import BitVector RowDiffSerialization IntRowDiff RowValuesSemantics RowValuesFacts
  RowDiffCorrectness.

Lemma pow64_63 : (2 ^ 64 = 2 * 2 ^ 63 /\ 0 < 2 ^ 63)%N.
Proof. split; reflexivity. Qed.

Lemma canon63_canon (row : RowValues) : canon63 row -> canon row.
Proof.
  intros [Hs Hv]. split; [done|]. eapply Forall_impl; [exact Hv|].
  intros p Hp. unfold u64. cbn in Hp. pose proof pow64_63. lia.
Qed.

Lemma canon63_val (row : RowValues) (c : N) : canon63 row -> (val row c < 2 ^ 63)%N.
Proof.
  intros [_ Hv]. induction row as [|[j v] row IH]; cbn; [lia|].
  inversion Hv as [|? ? Hjv Hv']; subst. cbn in Hjv.
  destruct (j =? c)%N; [lia | apply IH, Hv'].
Qed.

Lemma diff_code_safe (x y : N) :
  (x < 2 ^ 63)%N -> (y < 2 ^ 63)%N -> (((u64 - y) mod u64 + x) mod u64 <> 2 ^ 63)%N.
Proof.
  intros Hx Hy. unfold u64. pose proof pow64_63.
  destruct (N.eq_dec y 0) as [->|Hy0].
  - rewrite N.sub_0_r, N.Div0.mod_same, N.add_0_l, N.mod_small; lia.
  - rewrite (N.mod_small (2 ^ 64 - y)) by lia.
    destruct (N.le_gt_cases y x) as [Hle|Hgt].
    + replace (2 ^ 64 - y + x)%N with ((x - y) + 1 * 2 ^ 64)%N by lia.
      rewrite N.Div0.mod_add, N.mod_small; lia.
    + rewrite N.mod_small; lia.
Qed.

Lemma diff_add_back (x y : N) :
  (x < u64)%N -> (y < u64)%N -> ((y + ((u64 - y) mod u64 + x) mod u64) mod u64)%N = x.
Proof.
  intros Hx Hy. unfold u64 in *. destruct (N.eq_dec y 0) as [->|Hy0].
  - rewrite N.sub_0_r, N.Div0.mod_same, N.add_0_l, N.add_0_l.
    rewrite (N.mod_small x) by lia. rewrite N.mod_small by lia. done.
  - rewrite (N.mod_small (2 ^ 64 - y)) by lia.
    rewrite N.Div0.add_mod_idemp_r.
    replace (y + (2 ^ 64 - y + x))%N with (x + 1 * 2 ^ 64)%N by lia.
    rewrite N.Div0.mod_add, N.mod_small; lia.
Qed.

Section Store.
Variable L : Row -> RowValues.
Variable an : bv.
Variable succ : Row -> Row.
Hypothesis HL : forall r, canon63 (L r).

Lemma rd_delta_canon (r : Row) : canon (rd_delta L an succ r).
Proof.
  unfold rd_delta. destruct (bit an r); [apply canon63_canon, HL|].
  apply add_diff_canon; [apply negate_row_canon, canon63_canon, HL | apply canon63_canon, HL].
Qed.

Lemma rd_delta_val (r : Row) (c : N) :
  bit an r = false ->
  val (rd_delta L an succ r) c = (((u64 - val (L (succ r)) c) mod u64 + val (L r) c) mod u64)%N.
Proof.
  intros Ha. unfold rd_delta. rewrite Ha.
  rewrite (proj2 (add_diff_canon _ _ (negate_row_canon _ (canon63_canon _ (HL (succ r))))
                    (canon63_canon _ (HL r)))).
  rewrite val_negate_row. done.
Qed.

Lemma rd_delta_safe (r : Row) :
  Forall (fun p => 0 < p.2 < u64 /\ p.2 <> 2 ^ 63)%N (rd_delta L an succ r).
Proof.
  destruct (rd_delta_canon r) as [Hs Hv].
  apply List.Forall_forall. intros [c v] Hin.
  rewrite List.Forall_forall in Hv. pose proof (Hv _ Hin) as Hcv. cbn in Hcv |- *.
  split; [done|].
  destruct (bit an r) eqn:Ea.
  - unfold rd_delta in Hin. rewrite Ea in Hin. destruct (HL r) as [_ Hv63].
    rewrite List.Forall_forall in Hv63. specialize (Hv63 _ Hin). cbn in Hv63.
    pose proof pow64_63. lia.
  - rewrite <- (val_in _ c v Hs Hin), rd_delta_val by done.
    apply diff_code_safe; apply canon63_val, HL.
Qed.

(** the stored row decodes to the difference the transform wrote *)
Lemma rd_store_decodes (r : Row) :
  sort_row (decode_diffs (rd_store L an succ r)) = rd_delta L an succ r.
Proof.
  unfold rd_store, decode_diffs. rewrite map_map.
  rewrite (map_ext_in _ id).
  - rewrite map_id. apply sort_row_sorted, rd_delta_canon.
  - intros [c v] Hin. pose proof (rd_delta_safe r) as Hsafe.
    rewrite List.Forall_forall in Hsafe. destruct (Hsafe _ Hin) as [Hv Hne].
    cbn in Hv, Hne. cbn. rewrite decode_encode by done. done.
Qed.

Lemma rd_store_anchor (r : Row) :
  bit an r = true -> sort_row (decode_diffs (rd_store L an succ r)) = L r.
Proof. intros Ha. rewrite rd_store_decodes. unfold rd_delta. rewrite Ha. done. Qed.

Lemma rd_store_step (r : Row) :
  bit an r = false ->
  add_diff (L (succ r)) (sort_row (decode_diffs (rd_store L an succ r))) = L r.
Proof.
  intros Ha. rewrite rd_store_decodes.
  apply canon_ext.
  - apply add_diff_canon; [apply canon63_canon, HL | apply rd_delta_canon].
  - apply canon63_canon, HL.
  - intros c.
    rewrite (proj2 (add_diff_canon _ _ (canon63_canon _ (HL (succ r))) (rd_delta_canon r))).
    rewrite rd_delta_val by done. apply diff_add_back.
    + pose proof (canon63_val (L r) c (HL r)). pose proof pow64_63. unfold u64. lia.
    + pose proof (canon63_val (L (succ r)) c (HL (succ r))). pose proof pow64_63.
      unfold u64. lia.
Qed.

End Store.

(** claim C1, for both row-diff matrices.  [IntRowDiff]: let a matrix of
    logical rows [L] (sorted by column, values in [1, 2^63)) be stored by
    the row-diff transform for any anchor vector [an], the successor of
    every row that is not an anchor having a smaller rank [h] (so every
    walk ends at an anchor).  Then [get_row_values] returns the logical
    rows, [get_row] their columns, and the stored row of an anchor decodes
    to its logical row.  [TupleRowDiff]: likewise for a matrix of
    coordinate tuples [T] (sorted by column, each tuple strictly sorted,
    coordinates below [2^64 - 1]) stored by the tuple transform:
    [get_row_tuples] returns the logical rows, [get_rows] their columns,
    and an anchor stores its logical row. *)
Theorem row_diff_reconstructs (rd_succ : bv -> Row -> Row) (an fs : bv) (h : Row -> nat)
    (L : Row -> RowValues) (T : Row -> TupleRowDiff.RowTuples) (fuel : nat)
    (row_ids : list Row) :
  (forall r, bit an r = false -> h (rd_succ fs r) < h r) ->
  (forall r, canon63 (L r)) ->
  (forall r, TupleRowDiffCorrectness.tcanon (T r)) ->
  (forall r, In r row_ids -> h r < fuel) ->
  get_row_values (fun d r => d r) rd_succ (mkRowDiff an fs (rd_store L an (rd_succ fs)))
    fuel row_ids = Some (map L row_ids) /\
  (forall r, In r row_ids ->
     get_row (fun d r => d r) rd_succ (mkRowDiff an fs (rd_store L an (rd_succ fs))) fuel r
     = Some (map fst (L r))) /\
  (forall r, bit an r = true -> sort_row (decode_diffs (rd_store L an (rd_succ fs) r)) = L r) /\
  TupleRowDiffQuery.get_row_tuples (fun d r => d r) rd_succ
    (mkRowDiff an fs (TupleRowDiffQuery.tuple_store T an (rd_succ fs))) fuel row_ids
    = Some (map T row_ids) /\
  TupleRowDiffQuery.get_rows (fun d r => d r) rd_succ
    (mkRowDiff an fs (TupleRowDiffQuery.tuple_store T an (rd_succ fs))) fuel row_ids
    = Some (map (fun r => map fst (T r)) row_ids) /\
  (forall r, bit an r = true -> TupleRowDiffQuery.tuple_store T an (rd_succ fs) r = T r).
Proof.
  intros Hh HL HT Hf.
  assert (Hall : forall rs, (forall r, In r rs -> h r < fuel) ->
            get_row_values (fun d r => d r) rd_succ
              (mkRowDiff an fs (rd_store L an (rd_succ fs))) fuel rs = Some (map L rs)).
  { intros rs Hrs. apply (get_row_values_correct _ _ _ h); cbn [anchor fork_succ diffs].
    - exact Hh.
    - intros r Ha. apply rd_store_anchor; done.
    - intros r Ha. apply rd_store_step; done.
    - exact Hrs. }
  assert (Htup : TupleRowDiffQuery.get_row_tuples (fun d r => d r) rd_succ
                   (mkRowDiff an fs (TupleRowDiffQuery.tuple_store T an (rd_succ fs))) fuel row_ids
                 = Some (map T row_ids)).
  { apply (TupleRowDiffCorrectness.get_row_tuples_correct _ _ _ h); cbn [anchor fork_succ diffs].
    - exact Hh.
    - intros r Ha. apply TupleRowDiffCorrectness.tuple_store_anchor; done.
    - intros r Ha. apply TupleRowDiffCorrectness.tuple_store_diff; done.
    - intros r. apply TupleRowDiffCorrectness.sort_tuples_sorted, HT.
    - exact Hf. }
  split; [apply Hall, Hf|]. split.
  { intros r Hr. unfold get_row. rewrite Hall; [done|].
    intros r' [<-|[]]. apply Hf, Hr. }
  split; [intros r Ha; apply rd_store_anchor; done|].
  split; [exact Htup|]. split.
  - unfold TupleRowDiffQuery.get_rows. rewrite Htup, map_map. done.
  - intros r Ha. unfold TupleRowDiffQuery.tuple_store. rewrite Ha. done.
Qed.

(** witness for claim C1 on the three-row example *)
Lemma row_diff_reconstructs_witness :
  get_row_values (fun d r => d r) RowDiffExamples.ex_succ
    (mkRowDiff RowDiffExamples.ex_anchor []
       (rd_store RowDiffExamples.ex_L RowDiffExamples.ex_anchor (RowDiffExamples.ex_succ [])))
    3 [0; 1; 2; 0; 1]
  = Some (map RowDiffExamples.ex_L [0; 1; 2; 0; 1]) /\
  TupleRowDiffQuery.get_row_tuples (fun d r => d r) RowDiffExamples.ex_succ
    (mkRowDiff RowDiffExamples.ex_anchor []
       (TupleRowDiffQuery.tuple_store RowDiffExamples.ex_T RowDiffExamples.ex_anchor
          (RowDiffExamples.ex_succ [])))
    3 [0; 1; 2; 0; 1]
  = Some (map RowDiffExamples.ex_T [0; 1; 2; 0; 1]).
Proof.
  destruct (row_diff_reconstructs RowDiffExamples.ex_succ RowDiffExamples.ex_anchor []
              RowDiffExamples.ex_rank RowDiffExamples.ex_L RowDiffExamples.ex_T 3 [0; 1; 2; 0; 1])
    as (H1 & _ & _ & H4 & _).
  - intros [|[|[|r]]] Ha; cbn in *; [lia | lia | discriminate | lia].
  - intros [|[|[|r]]]; cbn; unfold canon63, col_lt;
      repeat (constructor; cbn; try lia).
  - intros [|[|[|r]]]; cbn; unfold TupleRowDiffCorrectness.tcanon, TupleRowDiffFacts.tcol_lt;
      repeat (constructor; cbn; try lia).
  - intros r Hr. cbn in Hr.
    repeat destruct Hr as [<-|Hr]; cbn; [lia | lia | lia | lia | lia | contradiction].
  - split; [exact H1 | exact H4].
Defined.

End RowDiffClaims.

(* ------------------------------------------------------------------ *)
(** ** Serialize then load (claim C2) *)
(* ------------------------------------------------------------------ *)

Module RowDiffLoadFacts.
Import BitVector Stream RowDiffSerialization.

Section Diffs.
Variable B : Type.
Variable rd_succ : bv -> Row -> Row.
Variables (an fs : bv) (d d' : B).

Lemma walk_diffs (f : nat) (q : list (nat * Row)) (p : list nat) (rp : list IntRowDiff.rd_step)
    (ids : list Row) (m : gmap Row nat) :
  IntRowDiff.walk rd_succ (mkRowDiff an fs d') f q p rp ids m
  = IntRowDiff.walk rd_succ (mkRowDiff an fs d) f q p rp ids m.
Proof.
  revert q p rp ids m. induction f as [|f IH]; intros q p rp ids m;
    destruct q as [|[depth row] q]; [done..|].
  cbn [IntRowDiff.walk anchor fork_succ]. destruct (IntRowDiff.unwind depth p rp).
  destruct (m !! row); [apply IH|]. destruct (bit an row); apply IH.
Qed.

Lemma collect_paths_diffs (fuel : nat) (rs ids : list Row) (m : gmap Row nat) :
  IntRowDiff.collect_paths rd_succ (mkRowDiff an fs d') fuel rs ids m
  = IntRowDiff.collect_paths rd_succ (mkRowDiff an fs d) fuel rs ids m.
Proof.
  revert ids m. induction rs as [|r rs IH]; intros ids m; [done|].
  cbn [IntRowDiff.collect_paths]. rewrite walk_diffs.
  destruct (IntRowDiff.walk _ _ _ _ _ _ _ _) as [[[[? ?] ?] ?]|]; [|done].
  rewrite IH. done.
Qed.

Lemma rd_chain_diffs (fuel : nat) (r : Row) (p : list nat) (ids : list Row) (m : gmap Row nat) :
  TupleRowDiffQuery.rd_chain rd_succ (mkRowDiff an fs d') fuel r p ids m
  = TupleRowDiffQuery.rd_chain rd_succ (mkRowDiff an fs d) fuel r p ids m.
Proof.
  revert r p ids m. induction fuel as [|f IH]; intros r p ids m; [done|].
  cbn [TupleRowDiffQuery.rd_chain anchor fork_succ].
  destruct (m !! r); [done|]. destruct (bit an r); [done|]. apply IH.
Qed.

Lemma get_rd_ids_aux_diffs (fuel : nat) (rs ids : list Row) (m : gmap Row nat) :
  TupleRowDiffQuery.get_rd_ids_aux rd_succ (mkRowDiff an fs d') fuel rs ids m
  = TupleRowDiffQuery.get_rd_ids_aux rd_succ (mkRowDiff an fs d) fuel rs ids m.
Proof.
  revert ids m. induction rs as [|r rs IH]; intros ids m; [done|].
  cbn [TupleRowDiffQuery.get_rd_ids_aux]. rewrite rd_chain_diffs.
  destruct (TupleRowDiffQuery.rd_chain _ _ _ _ _ _ _) as [[[? ?] ?]|]; [|done].
  rewrite IH. done.
Qed.

End Diffs.

(** the queries of [IntRowDiff] read the base matrix only through its rows *)
Section IntQueries.
Variable B : Type.
Variable base_get_row : B -> Row -> IntRowDiff.RowValues.
Variable rd_succ : bv -> Row -> Row.
Variables (an fs : bv) (d d' : B).
Hypothesis Hrows : forall r, base_get_row d' r = base_get_row d r.

Lemma get_row_values_diffs (fuel : nat) (row_ids : list Row) :
  IntRowDiff.get_row_values base_get_row rd_succ (mkRowDiff an fs d') fuel row_ids
  = IntRowDiff.get_row_values base_get_row rd_succ (mkRowDiff an fs d) fuel row_ids.
Proof.
  unfold IntRowDiff.get_row_values. rewrite (collect_paths_diffs B rd_succ an fs d d').
  destruct (IntRowDiff.collect_paths _ _ _ _ _ _) as [[paths ids]|]; [|done].
  cbn [diffs]. do 2 f_equal. apply map_ext. intros r. rewrite Hrows. done.
Qed.

Lemma get_row_diffs (fuel : nat) (i : Row) :
  IntRowDiff.get_row base_get_row rd_succ (mkRowDiff an fs d') fuel i
  = IntRowDiff.get_row base_get_row rd_succ (mkRowDiff an fs d) fuel i.
Proof. unfold IntRowDiff.get_row. rewrite get_row_values_diffs. done. Qed.

Lemma get_rows_diffs (fuel : nat) (row_ids : list Row) :
  RowDiffQueries.get_rows base_get_row rd_succ (mkRowDiff an fs d') fuel row_ids
  = RowDiffQueries.get_rows base_get_row rd_succ (mkRowDiff an fs d) fuel row_ids.
Proof. unfold RowDiffQueries.get_rows. rewrite get_row_values_diffs. done. Qed.

Lemma get_column_diffs (fuel n : nat) (j : N) :
  RowDiffQueries.get_column base_get_row rd_succ (mkRowDiff an fs d') fuel n j
  = RowDiffQueries.get_column base_get_row rd_succ (mkRowDiff an fs d) fuel n j.
Proof.
  unfold RowDiffQueries.get_column. generalize (seq 0 n) as rows.
  induction rows as [|i rows IH]; [done|]. cbn [RowDiffQueries.column_rows].
  unfold RowDiffQueries.get. rewrite get_row_diffs, IH. done.
Qed.

End IntQueries.

(** the queries of [TupleRowDiff] read the base matrix only through its rows *)
Section TupleQueries.
Variable B : Type.
Variable base_get_row_tuples : B -> Row -> TupleRowDiff.RowTuples.
Variable rd_succ : bv -> Row -> Row.
Variables (an fs : bv) (d d' : B).
Hypothesis Hrows : forall r, base_get_row_tuples d' r = base_get_row_tuples d r.

Lemma get_row_tuples_diffs (fuel : nat) (row_ids : list Row) :
  TupleRowDiffQuery.get_row_tuples base_get_row_tuples rd_succ (mkRowDiff an fs d') fuel row_ids
  = TupleRowDiffQuery.get_row_tuples base_get_row_tuples rd_succ (mkRowDiff an fs d) fuel row_ids.
Proof.
  unfold TupleRowDiffQuery.get_row_tuples, TupleRowDiffQuery.get_rd_ids.
  rewrite (get_rd_ids_aux_diffs B rd_succ an fs d d').
  destruct (TupleRowDiffQuery.get_rd_ids_aux _ _ _ _ _ _) as [[ids paths]|]; [|done].
  cbn [diffs]. do 2 f_equal. apply map_ext. intros r. rewrite Hrows. done.
Qed.

Lemma tuple_get_rows_diffs (fuel : nat) (row_ids : list Row) :
  TupleRowDiffQuery.get_rows base_get_row_tuples rd_succ (mkRowDiff an fs d') fuel row_ids
  = TupleRowDiffQuery.get_rows base_get_row_tuples rd_succ (mkRowDiff an fs d) fuel row_ids.
Proof. unfold TupleRowDiffQuery.get_rows. rewrite get_row_tuples_diffs. done. Qed.

Lemma tuple_get_row_diffs (fuel : nat) (i : Row) :
  TupleRowDiffQuery.get_row base_get_row_tuples rd_succ (mkRowDiff an fs d') fuel i
  = TupleRowDiffQuery.get_row base_get_row_tuples rd_succ (mkRowDiff an fs d) fuel i.
Proof. unfold TupleRowDiffQuery.get_row. rewrite tuple_get_rows_diffs. done. Qed.

Lemma tuple_get_column_diffs (has_W : Row -> bool) (fuel n : nat) (j : N) :
  TupleRowDiffQuery.get_column base_get_row_tuples rd_succ has_W (mkRowDiff an fs d') fuel n j
  = TupleRowDiffQuery.get_column base_get_row_tuples rd_succ has_W (mkRowDiff an fs d) fuel n j.
Proof.
  unfold TupleRowDiffQuery.get_column. generalize (seq 0 n) as rows.
  induction rows as [|i rows IH]; [done|]. cbn [TupleRowDiffQuery.column_rows].
  unfold TupleRowDiffQuery.get. rewrite tuple_get_row_diffs, IH. done.
Qed.

End TupleQueries.

(** [load] after [serialize] of a row-diff matrix, for any base matrix
    whose [load] reads back what its [serialize] wrote *)
Lemma rd_load_serialize_base {B : Type} (base_serialize : B -> list byte)
    (base_load : istream -> outcome B) (x : row_diff B) (rest : list byte) (d' : B) (s' : istream) :
  base_load (mkIstream true (base_serialize (diffs x) ++ rest)) = Ok d' s' ->
  (N.of_nat (length (anchor x)) < 2 ^ 64)%N ->
  (N.of_nat (length (fork_succ x)) < 2 ^ 64)%N ->
  rd_load base_load (mkIstream true (rd_serialize base_serialize x ++ rest))
  = Ok (mkRowDiff (anchor x) (fork_succ x) d') s'.
Proof.
  intros Hb Ha Hf. destruct x as [an fs d]. cbn [anchor fork_succ diffs] in *.
  unfold rd_load, rd_serialize. cbn [anchor fork_succ diffs].
  rewrite <- app_assoc, (StreamFacts.read_app 4) by done.
  unfold rd_load_members. rewrite <- !app_assoc.
  rewrite StreamFacts.load_bv_serialize, StreamFacts.load_bv_serialize by done.
  rewrite Hb. done.
Qed.

End RowDiffLoadFacts.

Module SerializationClaims.
Import BitVector Stream BRWT BRWTSerialization RowDiffSerialization IntRowDiff
  BRWTSerializationFacts RowDiffLoadFacts.

(** claim C2.  A BRWT (every node with no children or one per column
    group, every number written fitting in a [uint64_t]) serialized and
    loaded back has the same rows and columns.  The row-diff matrices
    [IntRowDiff] and [TupleRowDiff] write the version tag, the anchor and
    fork-successor bit vectors (their lengths fitting in a [uint64_t]) and
    their base matrix; for any base matrix whose [load] reads back a
    matrix with the same rows from what its [serialize] wrote, the loaded
    row-diff matrix answers [get_row_values], [get_row], [get_rows] and
    [get_column] ([IntRowDiff]), and [get_row_tuples], [get_rows],
    [get_row] and [get_column] ([TupleRowDiff]) as the original. *)
Theorem serialize_load_roundtrip (t : brwt)
    (Bi : Type) (si : Bi -> list byte) (li : istream -> outcome Bi)
    (gi : Bi -> Row -> RowValues) (xi : row_diff Bi)
    (Bt : Type) (st : Bt -> list byte) (lt : istream -> outcome Bt)
    (gt : Bt -> Row -> TupleRowDiff.RowTuples) (xt : row_diff Bt)
    (rest : list byte) :
  children_ok t = true -> fits64 t = true ->
  (exists d' s', li (mkIstream true (si (diffs xi) ++ rest)) = Ok d' s' /\
     forall r, gi d' r = gi (diffs xi) r) ->
  (N.of_nat (length (anchor xi)) < 2 ^ 64)%N ->
  (N.of_nat (length (fork_succ xi)) < 2 ^ 64)%N ->
  (exists d' s', lt (mkIstream true (st (diffs xt) ++ rest)) = Ok d' s' /\
     forall r, gt d' r = gt (diffs xt) r) ->
  (N.of_nat (length (anchor xt)) < 2 ^ 64)%N ->
  (N.of_nat (length (fork_succ xt)) < 2 ^ 64)%N ->
  (exists t' s, load (mkIstream true (serialize t ++ rest)) = Some (t', s) /\
     (forall r, BRWT.get_row t' r = BRWT.get_row t r) /\
     (forall c, get_column t' c = get_column t c)) /\
  (exists x' s, rd_load li (mkIstream true (rd_serialize si xi ++ rest)) = Ok x' s /\
     forall (rd_succ : bv -> Row -> Row) (fuel : nat),
       (forall row_ids, get_row_values gi rd_succ x' fuel row_ids
                        = get_row_values gi rd_succ xi fuel row_ids) /\
       (forall r, IntRowDiff.get_row gi rd_succ x' fuel r
                  = IntRowDiff.get_row gi rd_succ xi fuel r) /\
       (forall row_ids, RowDiffQueries.get_rows gi rd_succ x' fuel row_ids
                        = RowDiffQueries.get_rows gi rd_succ xi fuel row_ids) /\
       (forall n c, RowDiffQueries.get_column gi rd_succ x' fuel n c
                    = RowDiffQueries.get_column gi rd_succ xi fuel n c)) /\
  (exists x' s, rd_load lt (mkIstream true (rd_serialize st xt ++ rest)) = Ok x' s /\
     forall (rd_succ : bv -> Row -> Row) (fuel : nat),
       (forall row_ids, TupleRowDiffQuery.get_row_tuples gt rd_succ x' fuel row_ids
                        = TupleRowDiffQuery.get_row_tuples gt rd_succ xt fuel row_ids) /\
       (forall row_ids, TupleRowDiffQuery.get_rows gt rd_succ x' fuel row_ids
                        = TupleRowDiffQuery.get_rows gt rd_succ xt fuel row_ids) /\
       (forall r, TupleRowDiffQuery.get_row gt rd_succ x' fuel r
                  = TupleRowDiffQuery.get_row gt rd_succ xt fuel r) /\
       (forall has_W n c, TupleRowDiffQuery.get_column gt rd_succ has_W x' fuel n c
                          = TupleRowDiffQuery.get_column gt rd_succ has_W xt fuel n c)).
Proof.
  intros Hok Hfits (di & si' & Hli & Hgi) Hai Hfi (dt & st' & Hlt & Hgt) Hat Hft.
  split; [|split].
  - exists t, (mkIstream true rest). rewrite load_serialize by done. done.
  - exists (mkRowDiff (anchor xi) (fork_succ xi) di), si'.
    rewrite (rd_load_serialize_base si li xi rest di si') by done. split; [done|].
    intros rd_succ fuel. destruct xi as [an fs d]. cbn [anchor fork_succ diffs] in *.
    split_and!.
    + intros row_ids. apply get_row_values_diffs, Hgi.
    + intros r. apply get_row_diffs, Hgi.
    + intros row_ids. apply get_rows_diffs, Hgi.
    + intros n c. apply get_column_diffs, Hgi.
  - exists (mkRowDiff (anchor xt) (fork_succ xt) dt), st'.
    rewrite (rd_load_serialize_base st lt xt rest dt st') by done. split; [done|].
    intros rd_succ fuel. destruct xt as [an fs d]. cbn [anchor fork_succ diffs] in *.
    split_and!.
    + intros row_ids. apply get_row_tuples_diffs, Hgt.
    + intros row_ids. apply tuple_get_rows_diffs, Hgt.
    + intros r. apply tuple_get_row_diffs, Hgt.
    + intros has_W n c. apply tuple_get_column_diffs, Hgt.
Qed.

(** witness for claim C2 on the four-row BRWT of the spec's scenario, the
    BRWT also serving as the base matrix of both row-diff matrices *)
Lemma serialize_load_roundtrip_witness :
  (exists t' s, load (mkIstream true (serialize BRWTExamples.ex4 ++ [])) = Some (t', s) /\
     forall r, BRWT.get_row t' r = BRWT.get_row BRWTExamples.ex4 r) /\
  (exists x' s, rd_load brwt_base_load
                  (mkIstream true (rd_serialize serialize
                                     (mkRowDiff [true; false] [] BRWTExamples.ex4) ++ []))
                = Ok x' s /\
     forall fuel n c,
       RowDiffQueries.get_column (fun t r => map (fun c => (c, 1%N)) (BRWT.get_row t r))
         (fun _ r => r) x' fuel n c
       = RowDiffQueries.get_column (fun t r => map (fun c => (c, 1%N)) (BRWT.get_row t r))
           (fun _ r => r) (mkRowDiff [true; false] [] BRWTExamples.ex4) fuel n c).
Proof.
  destruct (serialize_load_roundtrip BRWTExamples.ex4
              brwt serialize brwt_base_load (fun t r => map (fun c => (c, 1%N)) (BRWT.get_row t r))
              (mkRowDiff [true; false] [] BRWTExamples.ex4)
              brwt serialize brwt_base_load (fun t r => map (fun c => (c, [])) (BRWT.get_row t r))
              (mkRowDiff [true; true] [] BRWTExamples.ex4) []
              eq_refl eq_refl)
    as [(t' & s & Hl & Hr & _) [(x' & s' & Hx & Hq) _]].
  - exists BRWTExamples.ex4, (mkIstream true []). split; [|done].
    unfold brwt_base_load. rewrite load_serialize by reflexivity. done.
  - vm_compute. done.
  - vm_compute. done.
  - exists BRWTExamples.ex4, (mkIstream true []). split; [|done].
    unfold brwt_base_load. rewrite load_serialize by reflexivity. done.
  - vm_compute. done.
  - vm_compute. done.
  - split.
    + exists t', s. split; [exact Hl | exact Hr].
    + exists x', s'. split; [exact Hx|]. intros fuel n c. apply (Hq (fun _ r => r) fuel).
Defined.

End SerializationClaims.

(* ------------------------------------------------------------------ *)
(** ** [IPathIndex::get_dist] (claim C9) *)
(* ------------------------------------------------------------------ *)

Module PathIndexClaims.
Import PathIndex.

Section GetDistFacts.
Variables (sbd term : N -> N * N) (src reach : N -> bool).

Lemma chain_walk_sound (fuel : nat) (t m s d s' d' : N) :
  chain_walk sbd fuel t m s d = Some (s', d') -> s' = t -> reaches sbd t m s d d'.
Proof.
  revert s d. induction fuel as [|f IH]; intros s d H Ht; cbn in H.
  - destruct (negb (s =? 0) && negb (s =? t) && (d <? m))%N eqn:E; [discriminate|].
    injection H as <- <-. subst. constructor.
  - destruct (negb (s =? 0) && negb (s =? t) && (d <? m))%N eqn:E.
    + rewrite !andb_true_iff, !negb_true_iff, !N.eqb_neq, N.ltb_lt in E.
      destruct E as [[E1 E2] E3].
      destruct (sbd s) as [ns nd] eqn:Es.
      eapply reaches_step; try done. rewrite Es. cbn [fst snd]. apply (IH _ _ H Ht).
    + injection H as <- <-. subst. constructor.
Qed.

Lemma chain_walk_complete (t m s d d' : N) :
  reaches sbd t m s d d' -> exists fuel, chain_walk sbd fuel t m s d = Some (t, d').
Proof.
  induction 1 as [d|s d d' Hs Ht Hd _ [f IH]].
  - exists 0. cbn. rewrite N.eqb_refl. cbn [negb]. rewrite andb_false_r. done.
  - exists (S f). cbn [chain_walk].
    replace (negb (s =? 0) && negb (s =? t) && (d <? m))%N with true
      by (symmetry; rewrite !andb_true_iff, !negb_true_iff, !N.eqb_neq, N.ltb_lt; done).
    destruct (sbd s) as [ns nd] eqn:Es. cbn [fst snd] in IH. exact IH.
Qed.

(** claim C9: [get_dist a b max_dist] returns 0 when [a = b]; the
    recorded distance of [b] when [a] is a source and [b] lies in the
    superbubble it sources; when [a] and [b] have the same recorded
    superbubble, the difference of their recorded distances if [b] is its
    terminus and [a] can reach it (the code asserts that [b]'s distance
    is the terminus-table one), the sentinel [size_max] otherwise; in the
    remaining case the sentinel if [a] cannot reach its terminus, and
    otherwise a value other than the sentinel only through a chain of
    superbubbles from [b]'s up to that terminus, the running distance
    below [max_dist] at every step, every such chain giving its sum. *)
Theorem get_dist_spec (fuel : nat) (a b max_dist : N) :
  (a = b -> get_dist sbd term src reach fuel a b max_dist = Some 0%N) /\
  (a <> b -> src a = true -> (sbd b).1 = a ->
     get_dist sbd term src reach fuel a b max_dist = Some (sbd b).2) /\
  (a <> b -> ~ (src a = true /\ (sbd b).1 = a) -> (sbd a).1 = (sbd b).1 ->
     get_dist sbd term src reach fuel a b max_dist =
       Some (if ((term (sbd a).1).1 =? b)%N && reach a
             then sub64 (sbd b).2 (sbd a).2 else size_max)) /\
  (a <> b -> ~ (src a = true /\ (sbd b).1 = a) -> (sbd a).1 <> (sbd b).1 ->
     (reach a = false -> get_dist sbd term src reach fuel a b max_dist = Some size_max) /\
     (forall r, get_dist sbd term src reach fuel a b max_dist = Some r -> r <> size_max ->
        reach a = true /\
        exists d', reaches sbd (term (if src a then a else (sbd a).1)).1 max_dist (sbd b).1
                     (sub64 (term (if src a then a else (sbd a).1)).2
                        (if src a then 0%N else (sbd a).2)) d' /\
                   r = add64 d' (sbd b).2) /\
     (forall d', reach a = true ->
        reaches sbd (term (if src a then a else (sbd a).1)).1 max_dist (sbd b).1
          (sub64 (term (if src a then a else (sbd a).1)).2 (if src a then 0%N else (sbd a).2)) d' ->
        exists fuel', get_dist sbd term src reach fuel' a b max_dist
                      = Some (add64 d' (sbd b).2))).
Proof.
  unfold get_dist.
  destruct (sbd a) as [sb1 d1] eqn:Ea, (sbd b) as [sb2 d2] eqn:Eb. cbn [fst snd].
  split; [intros ->; rewrite N.eqb_refl; done|].
  split; [intros Hab Hs ->; rewrite (proj2 (N.eqb_neq _ _) Hab), Hs, N.eqb_refl; done|].
  split.
  - intros Hab Hn <-. rewrite (proj2 (N.eqb_neq _ _) Hab), N.eqb_refl.
    replace (src a && (sb1 =? a))%N with false
      by (symmetry; apply not_true_iff_false; rewrite andb_true_iff, N.eqb_eq; done).
    destruct (term sb1) as [t d]. cbn [fst]. destruct ((t =? b)%N && reach a); done.
  - intros Hab Hn Hne. rewrite (proj2 (N.eqb_neq _ _) Hab), (proj2 (N.eqb_neq _ _) Hne).
    replace (src a && (sb2 =? a))%N with false
      by (symmetry; apply not_true_iff_false; rewrite andb_true_iff, N.eqb_eq; done).
    cbn [negb].
    destruct (term (if src a then a else sb1)) as [t d] eqn:Et. cbn [fst snd].
    split; [intros ->; done|]. split.
    + intros r H Hr. destruct (reach a) eqn:Er; [|cbn in H; congruence]. cbn [negb] in H.
      split; [done|].
      destruct (chain_walk sbd fuel t max_dist sb2 _) as [[s' d']|] eqn:Ew; [|discriminate].
      injection H as <-. destruct (s' =? t)%N eqn:Es; [|done].
      apply N.eqb_eq in Es. exists d'. split; [|done].
      exact (chain_walk_sound _ _ _ _ _ _ _ Ew Es).
    + intros d' Er Hr. rewrite Er. cbn [negb].
      destruct (chain_walk_complete _ _ _ _ _ Hr) as [f Hw].
      exists f. rewrite Hw, N.eqb_refl. done.
Qed.

End GetDistFacts.

(** witness for claim C9: [get_dist(1, 4, 100)] is the source-to-terminus
    distance *)
Lemma get_dist_spec_witness :
  get_dist PathIndexExamples.ex_sbd PathIndexExamples.ex_term PathIndexExamples.ex_src
    PathIndexExamples.ex_reach 0 1 4 100 = Some 15%N.
Proof.
  refine (proj1 (proj2 (get_dist_spec PathIndexExamples.ex_sbd PathIndexExamples.ex_term
                          PathIndexExamples.ex_src PathIndexExamples.ex_reach 0 1 4 100))
            _ _ _); [lia | reflexivity | reflexivity].
Defined.

End PathIndexClaims.

(* ------------------------------------------------------------------ *)
(** ** The gap penalty of [chain_seeds] (claim C4) *)
(* ------------------------------------------------------------------ *)

Module ChainerClaims.
Import Chainer.

Lemma Qfloor_eq (x : Q) (z : Z) : (inject_Z z <= x < inject_Z z + 1)%Q -> Qfloor x = z.
Proof.
  intros [H1 H2]. pose proof (Qfloor_le x) as F1. pose proof (Qlt_floor x) as F2.
  rewrite inject_Z_plus in F2.
  assert (A : (Qfloor x < z + 1)%Z).
  { rewrite Zlt_Qlt, inject_Z_plus. change (inject_Z 1) with 1%Q in *.
    generalize dependent (inject_Z (Qfloor x)). generalize dependent (inject_Z z).
    intros. lra. }
  assert (B : (z < Qfloor x + 1)%Z).
  { rewrite Zlt_Qlt, inject_Z_plus. change (inject_Z 1) with 1%Q in *.
    generalize dependent (inject_Z (Qfloor x)). generalize dependent (inject_Z z).
    intros. lra. }
  lia.
Qed.

Lemma Qceiling_eq (x : Q) (z : Z) : (inject_Z z - 1 < x <= inject_Z z)%Q -> Qceiling x = z.
Proof.
  intros [H1 H2]. pose proof (Qle_ceiling x) as F1. pose proof (Qceiling_lt x) as F2.
  unfold Z.sub in F2. rewrite inject_Z_plus in F2.
  assert (A : (Qceiling x < z + 1)%Z).
  { rewrite Zlt_Qlt, inject_Z_plus. change (inject_Z 1) with 1%Q in *.
    change (inject_Z (- (1))) with (-1)%Q in *.
    generalize dependent (inject_Z (Qceiling x)). generalize dependent (inject_Z z).
    intros. lra. }
  assert (B : (z < Qceiling x + 1)%Z).
  { rewrite Zlt_Qlt, inject_Z_plus. change (inject_Z 1) with 1%Q in *.
    change (inject_Z (- (1))) with (-1)%Q in *.
    generalize dependent (inject_Z (Qceiling x)). generalize dependent (inject_Z z).
    intros. lra. }
  lia.
Qed.

(** the float penalty of a gap of 3 with [min_seed_length = 10]: about
    [0.1 * 3 + 0.5 * log2 4 = 1.3] *)
Lemma gap3_bounds (sl : Q) (log2_ps : Q -> Q) :
  (99 # 1000 <= sl <= 101 # 1000)%Q -> (199 # 100 <= log2_ps 4 <= 201 # 100)%Q ->
  (129 # 100 <= inject_Z 3 * sl + log2_ps (inject_Z (3 + 1)) * (1 # 2) <= 131 # 100)%Q.
Proof.
  intros Hs Hl. change (inject_Z (3 + 1)%Z) with 4%Q. change (inject_Z 3%Z) with 3%Q.
  generalize dependent (log2_ps 4%Q). intros. lra.
Qed.

Lemma gap_penalty_3 (sl : Q) (log2_ps : Q -> Q) :
  (99 # 1000 <= sl <= 101 # 1000)%Q -> (199 # 100 <= log2_ps 4 <= 201 # 100)%Q ->
  gap_penalty sl log2_ps 3 = 1%Z.
Proof.
  intros Hs Hl. pose proof (gap3_bounds sl log2_ps Hs Hl) as Hb.
  unfold gap_penalty. cbn [Z.ltb Z.compare]. unfold cvtps_epi32.
  generalize dependent (inject_Z 3 * sl + log2_ps (inject_Z (3 + 1)) * (1 # 2))%Q.
  intros x Hx. rewrite (Qfloor_eq x 1) by (change (inject_Z 1) with 1%Q; lra).
  replace (Qle_bool (1 # 2) (x - inject_Z 1)) with false; [done|].
  symmetry. apply not_true_iff_false. rewrite Qle_bool_iff.
  change (inject_Z 1) with 1%Q. lra.
Qed.

Lemma spec_penalty_3 (sl : Q) (log2_ps : Q -> Q) :
  (99 # 1000 <= sl <= 101 # 1000)%Q -> (199 # 100 <= log2_ps 4 <= 201 # 100)%Q ->
  spec_penalty sl log2_ps 3 = 2%Z.
Proof.
  intros Hs Hl. pose proof (gap3_bounds sl log2_ps Hs Hl) as Hb.
  unfold spec_penalty. cbn [Z.eqb].
  apply Qceiling_eq. change (inject_Z 2) with 2%Q. lra.
Qed.

(** claim C4: with [min_seed_length = 10] ([sl] about 0.1, whatever the
    float rounding) and a query of length 100, take two seeds of length 10
    with the same label: row [i] at coordinate 50 and query offset 25, row
    [j] at coordinate 27 and query offset 5, both as [chain_seeds] emplaces
    them (chain score 10). Sorted by decreasing coordinate, [i] comes first
    and has no predecessor, so it is the first row to reach [j]. Then
    [dist = 20], [coord_dist = 23], [match = 10] and [gap = 3] (float
    penalty about 1.3). The vectorized loop converts the penalty with
    [cvtps_epi32] (round to nearest) to 1 and gives [j] the score 19; the
    spec's ceiling gives 2 and the score 18. Both set [j]'s backtrace to
    [i], whatever it was. *)
Theorem dp_update_rounds_to_nearest (sl : Q) (log2_ps : Q -> Q) (bt : nat) :
  (99 # 1000 <= sl <= 101 # 1000)%Q -> (199 # 100 <= log2_ps 4 <= 201 # 100)%Q ->
  dp_update sl log2_ps 100 0 (init_elem 0 50 25 10 0) (init_elem 0 27 5 10 1) bt
    = (mkElem 0 27 5 15 19 1, 0) /\
  dp_update_spec sl log2_ps 100 0 (init_elem 0 50 25 10 0) (init_elem 0 27 5 10 1) bt
    = (mkElem 0 27 5 15 18 1, 0).
Proof.
  intros Hs Hl. split.
  - unfold dp_update, init_elem. cbn -[gap_penalty]. rewrite gap_penalty_3 by done. done.
  - unfold dp_update_spec, init_elem. cbn -[spec_penalty]. rewrite spec_penalty_3 by done. done.
Qed.

(** witness for claim C4: [sl = 0.1] and an exact [log2] at 4 *)
Lemma dp_update_rounds_to_nearest_witness :
  dp_update (1 # 10) (fun _ => 2%Q) 100 0 (init_elem 0 50 25 10 0) (init_elem 0 27 5 10 1) 7
    = (mkElem 0 27 5 15 19 1, 0) /\
  dp_update_spec (1 # 10) (fun _ => 2%Q) 100 0 (init_elem 0 50 25 10 0) (init_elem 0 27 5 10 1) 7
    = (mkElem 0 27 5 15 18 1, 0).
Proof.
  apply (dp_update_rounds_to_nearest (1 # 10) (fun _ => 2%Q) 7); split; vm_compute; discriminate.
Defined.

End ChainerClaims.

(* ------------------------------------------------------------------ *)
(** ** The coverage filter (claim C5) *)
(* ------------------------------------------------------------------ *)

Module ChainFlushClaims.
Import ChainFlush.

Section FlushFacts.
Variable Chain : Type.
Context `{EqDecision Chain}.
Variable merge : Chain -> Chain -> Chain.
Variable num_char_matches : Chain -> nat.
Variable query_size : nat.
Variable min_exact_match : Q.
Variable iter_order : list Chain -> list Chain.
Hypothesis Hperm : forall l, iter_order l ≡ₚ l.

Local Abbreviation too_low := (too_low Chain num_char_matches query_size min_exact_match).
Local Abbreviation flush_scan := (flush_scan Chain merge num_char_matches query_size min_exact_match).
Local Abbreviation flush_chains :=
  (flush_chains Chain merge num_char_matches query_size min_exact_match iter_order).
Local Abbreviation loop_step :=
  (loop_step Chain merge num_char_matches query_size min_exact_match iter_order).
Local Abbreviation runs := (runs Chain merge).
Local Abbreviation group_runs := (group_runs Chain merge iter_order).
Local Abbreviation checked := (checked Chain merge iter_order).
Local Abbreviation take_passing := (take_passing Chain num_char_matches query_size min_exact_match).

Definition all_pass (l : list (Chain * Z)) : bool := forallb (fun p => negb (too_low p.1)) l.

Lemma take_passing_all (l : list (Chain * Z)) : all_pass l = true -> take_passing l = l.
Proof.
  induction l as [|[c s] l IH]; [done|]. cbn. rewrite andb_true_iff, negb_true_iff.
  intros [-> H]. rewrite IH; done.
Qed.

Lemma take_passing_app (A B : list (Chain * Z)) :
  take_passing (A ++ B) = if all_pass A then A ++ take_passing B else take_passing A.
Proof.
  induction A as [|[c s] A IH]; [done|]. cbn [app take_passing all_pass forallb fst].
  unfold all_pass in IH. destruct (too_low c); cbn [negb andb]; [done|].
  rewrite IH. destruct (forallb _ A); done.
Qed.

Lemma flush_scan_spec (s : Z) (last : Chain) (rest : list Chain) (out : list (Chain * Z)) :
  flush_scan s last rest out =
    (negb (all_pass (map (fun c => (c, s)) (runs last rest))),
     out ++ take_passing (map (fun c => (c, s)) (runs last rest))).
Proof.
  revert last out. induction rest as [|c rest IH]; intros last out; cbn.
  - destruct (too_low last); cbn; [rewrite app_nil_r; done | done].
  - destruct (decide (c = last)) as [->|Hne]; [apply IH|].
    cbn [map take_passing all_pass forallb fst].
    destruct (too_low last); cbn [negb andb]; [rewrite app_nil_r; done|].
    rewrite IH, <- app_assoc. done.
Qed.

Lemma groups_cons (s : Z) (c : Chain) (rest : list (Z * Chain)) :
  exists g gs, groups Chain ((s, c) :: rest) = (s, g) :: gs.
Proof.
  cbn. destruct (groups Chain rest) as [|[s' g] gs].
  - eexists _, _. done.
  - destruct (s =? s')%Z; eexists _, _; done.
Qed.

Lemma groups_block (s0 : Z) (g : list Chain) (L : list (Z * Chain)) :
  g <> [] -> (forall s c rest, L = (s, c) :: rest -> s <> s0) ->
  groups Chain (map (pair s0) g ++ L) = (s0, g) :: groups Chain L.
Proof.
  intros Hg HL. induction g as [|x g IH]; [done|].
  destruct g as [|y g].
  - cbn [map app groups]. destruct L as [|[s c] rest]; [done|].
    destruct (groups_cons s c rest) as (g' & gs & Eg). rewrite Eg.
    rewrite (proj2 (Z.eqb_neq s0 s)); [done|]. intros ->. apply (HL s c rest); done.
  - change (groups Chain ((s0, x) :: (map (pair s0) (y :: g) ++ L)) = (s0, x :: y :: g) :: groups Chain L).
    cbn [groups]. rewrite IH by done. rewrite Z.eqb_refl. done.
Qed.

Lemma checked_block (s0 : Z) (g : list Chain) (L : list (Z * Chain)) :
  g <> [] -> (forall s c rest, L = (s, c) :: rest -> s <> s0) ->
  checked (map (pair s0) g ++ L) = map (fun c => (c, s0)) (group_runs g) ++ checked L.
Proof. intros Hg HL. unfold ChainFlush.checked. rewrite groups_block by done. done. Qed.

Lemma iter_order_nonempty (g : list Chain) : g <> [] -> iter_order g <> [].
Proof.
  intros Hg He. apply Hg. pose proof (Hperm g) as P. rewrite He in P.
  apply Permutation_nil. symmetry. done.
Qed.

Lemma loop_stuck (cands : list (Z * Chain)) (st : state Chain) :
  coverage_too_low Chain st = true -> fold_left loop_step cands st = st.
Proof.
  revert st. induction cands as [|sc cands IH]; intros st Hl; [done|].
  cbn [fold_left]. unfold ChainFlush.loop_step at 2. rewrite Hl. apply IH, Hl.
Qed.

Lemma flush_stuck (st : state Chain) :
  coverage_too_low Chain st = true -> flush_chains st = st.
Proof. intros Hl. unfold ChainFlush.flush_chains. rewrite Hl. done. Qed.

Lemma flush_block (g : list Chain) (s0 : Z) (O : list (Chain * Z)) :
  g <> [] ->
  flush_chains (mkState Chain g s0 false O) =
    let A := map (fun c => (c, s0)) (group_runs g) in
    if all_pass A then mkState Chain [] s0 false (O ++ A)
    else mkState Chain g s0 true (O ++ take_passing A).
Proof.
  intros Hg. unfold ChainFlush.flush_chains, ChainFlush.group_runs. cbn [coverage_too_low chains].
  destruct (iter_order g) as [|c cs] eqn:Ei; [exfalso; apply (iter_order_nonempty g); done|].
  cbn [last_chain_score emitted]. rewrite flush_scan_spec.
  destruct (all_pass _) eqn:Ea; cbn [negb].
  - rewrite take_passing_all by done. done.
  - done.
Qed.

Lemma loop_block (cands : list (Z * Chain)) (g : list Chain) (s0 : Z) (O : list (Chain * Z)) :
  g <> [] ->
  emitted Chain (flush_chains (fold_left loop_step cands (mkState Chain g s0 false O)))
  = O ++ take_passing (checked (map (pair s0) g ++ cands)).
Proof.
  revert g s0 O. induction cands as [|[s c] rest IH]; intros g s0 O Hg.
  - cbn [fold_left]. rewrite app_nil_r.
    rewrite <- (app_nil_r (map (pair s0) g)), checked_block by (done || (intros; discriminate)).
    change (checked []) with (@nil (Chain * Z)). rewrite app_nil_r.
    rewrite flush_block by done. cbv zeta.
    destruct (all_pass _) eqn:Ea; cbn [emitted]; [rewrite take_passing_all by done|]; done.
  - cbn [fold_left]. unfold ChainFlush.loop_step at 2. cbn [coverage_too_low chains].
    destruct g as [|x g']; [done|]. cbn [last_chain_score emitted].
    destruct (s =? s0)%Z eqn:Es.
    + apply Z.eqb_eq in Es. subst s.
      rewrite IH by (destruct g'; discriminate).
      rewrite map_app, <- app_assoc. done.
    + apply Z.eqb_neq in Es.
      rewrite checked_block by (done || (intros ? ? ? [= -> _ _]; done)).
      rewrite flush_block by done. cbv zeta.
      destruct (all_pass _) eqn:Ea; cbn [chains coverage_too_low emitted].
      * rewrite IH by done. rewrite take_passing_app, Ea, app_assoc. done.
      * rewrite loop_stuck, flush_stuck by done. cbn [emitted].
        rewrite take_passing_app, Ea. done.
Qed.

(** claim C5 (amended): the chains passed to the callback are exactly the
    checked chains — in decreasing score order, a block of equal score in
    the multiset's order with a chain equal to the one before merged into
    it — up to the first one whose exact-match fraction is below
    [min_exact_match]: every chain passed to the callback has a fraction
    of at least [min_exact_match], and the first chain below it stops
    everything, no chain after it being passed, whatever its own
    fraction. *)
Theorem coverage_filter_stops (cands : list (Z * Chain)) :
  call_seed_chains Chain merge num_char_matches query_size min_exact_match iter_order cands
    = take_passing (checked cands) /\
  (forall c s,
     In (c, s) (call_seed_chains Chain merge num_char_matches query_size min_exact_match
                  iter_order cands) ->
     too_low c = false).
Proof.
  assert (Heq : call_seed_chains Chain merge num_char_matches query_size min_exact_match
                  iter_order cands = take_passing (checked cands)).
  { unfold ChainFlush.call_seed_chains. destruct cands as [|[s c] rest].
    - cbn [fold_left]. unfold ChainFlush.flush_chains. cbn [coverage_too_low chains].
      pose proof (Hperm []) as P. symmetry in P. apply Permutation_nil in P. rewrite P. done.
    - cbn [fold_left]. unfold ChainFlush.loop_step at 2. cbn [coverage_too_low chains emitted].
      rewrite loop_block by done. done. }
  split; [exact Heq|]. rewrite Heq. generalize (checked cands) as l.
  induction l as [|[c' s'] l IH]; [done|]. cbn [take_passing].
  destruct (too_low c') eqn:Ec; [done|]. intros c s [[= -> ->]|Hin]; [done|]. apply (IH c s Hin).
Qed.

End FlushFacts.

(** counterexample to claim C5: two chains of scores 10 and 5 on a query
    of length 10 with [min_exact_match = 0.5]; the first covers 1 base,
    the second 10.  The second chain's fraction is 1, above the threshold,
    yet no chain is passed to the callback: the first chain's coverage
    being too low stops the chainer. *)
Lemma covered_chain_not_emitted :
  too_low nat (fun c => if (c =? 1)%nat then 1 else 10) 10 (1 # 2)%Q 2 = false /\
  In (5%Z, 2) [(10%Z, 1); (5%Z, 2)] /\
  call_seed_chains nat (fun a _ => a) (fun c => if (c =? 1)%nat then 1 else 10) 10 (1 # 2)%Q id
    [(10%Z, 1); (5%Z, 2)] = [].
Proof.
  split; [vm_compute; reflexivity|]. split; [right; left; reflexivity|]. vm_compute. reflexivity.
Qed.

(** witness for claim C5: the same two chains, the multiset iterating in
    insertion order *)
Lemma coverage_filter_stops_witness :
  call_seed_chains nat (fun a _ => a) (fun c => if (c =? 1)%nat then 1 else 10) 10 (1 # 2)%Q id
    [(10%Z, 1); (5%Z, 2)]
  = take_passing nat (fun c => if (c =? 1)%nat then 1 else 10) 10 (1 # 2)%Q
      (checked nat (fun a _ => a) id [(10%Z, 1); (5%Z, 2)]).
Proof.
  exact (proj1 (coverage_filter_stops nat (fun a _ => a) (fun c => if (c =? 1)%nat then 1 else 10)
                  10 (1 # 2)%Q id (fun l => Permutation_refl l) [(10%Z, 1); (5%Z, 2)])).
Defined.

End ChainFlushClaims.

(* ------------------------------------------------------------------ *)
(** ** [AnnotationBuffer::fetch_queued_annotations] *)
(* ------------------------------------------------------------------ *)

Module AnnotationBufferExamples.
Import AnnotationBuffer.

(** a [CanonicalDBG] over a graph of two nodes: the nodes 3 and 4 are the
    reverse complements of the base nodes 1 and 2 *)
Definition ex_base_node (n : N) : N := if (n <=? 2)%N then n else (n - 2)%N.

(** a canonical graph: node [2k] is the reverse complement of the
    canonical node [2k - 1] *)
Definition ex_canonical (n : N) : N := if N.even n then (n - 1)%N else n.

(** node 5 is a dummy node *)
Definition ex_dummy (n : N) : bool := (n =? 5)%N.

Definition ex_row (r : N) : Columns := [r].

End AnnotationBufferExamples.

Module AnnotationBufferClaims.
Import AnnotationBuffer.

Section FetchFacts.
Variables mode base_mode : Mode.
Variables (canonical_ is_rcdbg has_boss : bool).
Variables (map_to_canonical get_base_node : N -> N) (dummy_W : N -> bool).
Variable get_row : N -> Columns.
Variable row_batch_size : nat.
(** the node whose annotation row a node is read from: its canonical node
    in a canonical graph, its base node under a [CanonicalDBG], itself in a
    basic graph; [npos] for a node that spans a sentinel *)
Variable c : N -> N.

Local Abbreviation dummy := (is_dummy has_boss dummy_W).
Local Abbreviation push := (push_node_labels mode canonical_).
Local Abbreviation batch := (fetch_row_batch mode canonical_ get_row).
Local Abbreviation pnode := (process_node mode canonical_ has_boss dummy_W get_row row_batch_size).
Local Abbreviation base_path :=
  (compute_base_path base_mode canonical_ is_rcdbg map_to_canonical get_base_node).
Local Abbreviation ppath :=
  (process_path mode base_mode canonical_ is_rcdbg has_boss map_to_canonical get_base_node
     dummy_W get_row row_batch_size).
Local Abbreviation fetch :=
  (fetch_queued_annotations mode base_mode canonical_ is_rcdbg has_boss map_to_canonical
     get_base_node dummy_W get_row row_batch_size).

(** the column set a node of row-sharing node [b] must get: the empty set
    for a dummy node, the sorted row of [b] otherwise *)
Definition expected (b : N) : Columns :=
  if dummy b then [] else merge_sort (≤)%N (get_row (graph_to_anno_index b)).

(** the shape of [base_path[i]] against [path[i]] that the three ways of
    computing [base_path] produce *)
Definition pair_okb (n b : N) : bool :=
  (bool_decide (b = 0%N) || bool_decide (c b = b)) &&
  (bool_decide (b <> 0%N) || bool_decide (c n = 0%N)) &&
  (bool_decide (mode <> CANONICAL) || bool_decide (c n = b)).

Definition paths_okb (paths : list (list N)) : bool :=
  forallb (fun p => forallb (fun '(n, b) => pair_okb n b) (zip p (base_path p))) paths.

(** every entry of [node_to_cols] holds the column-set id of the row its
    node shares, the same id as the entry of that node; id 0 is the empty
    set, and the ids are distinct *)
Definition buffer_ok (bf : buffer) : Prop :=
  column_sets bf !! 0 = Some [] /\ NoDup (column_sets bf) /\
  map_Forall (fun x v =>
    (c x = 0%N -> v = 0%N) /\
    (c x <> 0%N -> c (c x) = c x /\ node_to_cols bf !! c x = Some v /\
                   column_sets bf !! N.to_nat v = Some (expected (c x))))
    (node_to_cols bf).

#[global] Instance buffer_ok_dec bf : Decision (buffer_ok bf).
Proof. unfold buffer_ok. apply _. Defined.

(** the nodes of the queued paths that have an entry after the fetch *)
Definition covered_pair (bf : buffer) (n b : N) : Prop :=
  (b <> 0%N -> is_Some (node_to_cols bf !! b)) /\
  (b = 0%N -> is_Some (node_to_cols bf !! n)) /\
  (mode = CANONICAL -> canonical_ = false -> is_Some (node_to_cols bf !! n)).

Definition covered (paths : list (list N)) (bf : buffer) : Prop :=
  Forall (fun p => Forall (fun '(n, b) => covered_pair bf n b) (zip p (base_path p))) paths.

(** the invariant of the loop, with [Q] the queued (node, row) pairs *)
Definition entry_ok (bf : buffer) (Q : list (N * N)) (x v : N) : Prop :=
  (c x = 0%N -> v = 0%N) /\
  (c x <> 0%N -> c (c x) = c x /\ is_Some (node_to_cols bf !! c x) /\
     ((v = nannot /\ x ∈ Q.*1) \/ column_sets bf !! N.to_nat v = Some (expected (c x)))).

Definition queue_ok (bf : buffer) (x r : N) : Prop :=
  r = graph_to_anno_index (c x) /\ c x <> 0%N /\ c (c x) = c x /\ dummy (c x) = false /\
  (canonical_ = true -> c x = x) /\
  is_Some (node_to_cols bf !! x) /\ is_Some (node_to_cols bf !! c x).

Definition Inv (bf : buffer) (Q : list (N * N)) : Prop :=
  column_sets bf !! 0 = Some [] /\ NoDup (column_sets bf) /\
  Forall (fun '(x, r) => queue_ok bf x r) Q /\
  map_Forall (entry_ok bf Q) (node_to_cols bf).

Definition InvS (s : fetch_state) : Prop :=
  length (queued_nodes s) = length (queued_rows s) /\
  Inv (fs_buf s) (zip (queued_nodes s) (queued_rows s)).

Definition grows (bf bf' : buffer) : Prop :=
  forall k, is_Some (node_to_cols bf !! k) -> is_Some (node_to_cols bf' !! k).

Lemma grows_refl bf : grows bf bf.
Proof. intros k H; exact H. Qed.

Lemma grows_trans b1 b2 b3 : grows b1 b2 -> grows b2 b3 -> grows b1 b3.
Proof. intros H1 H2 k H; auto. Qed.

Lemma grows_insert m cs k v : grows (mkBuffer m cs) (mkBuffer (<[k:=v]> m) cs).
Proof. intros j H; cbn in *. apply lookup_insert_is_Some'; auto. Qed.

Lemma try_emplace_is_Some k v m j :
  is_Some (m !! j) \/ j = k -> is_Some (try_emplace k v m !! j).
Proof.
  unfold try_emplace. intros Hj. destruct (m !! k) eqn:E.
  - destruct Hj as [H| ->]; [done|]. rewrite E; eauto.
  - apply lookup_insert_is_Some'. destruct Hj; auto.
Qed.

Lemma try_emplace_Some k v m j w :
  try_emplace k v m !! j = Some w -> m !! j = Some w \/ (j = k /\ w = v).
Proof.
  unfold try_emplace. destruct (m !! k) eqn:E; [auto|].
  rewrite lookup_insert_Some. naive_solver.
Qed.

Lemma pair_okb_spec n b :
  pair_okb n b = true ->
  (b <> 0%N -> c b = b) /\ (b = 0%N -> c n = 0%N) /\ (mode = CANONICAL -> c n = b).
Proof.
  unfold pair_okb. rewrite !andb_true_iff, !orb_true_iff, !bool_decide_eq_true.
  intros [[H1 H2] H3]. split_and!.
  - intros Hb. destruct H1; [contradiction|done].
  - intros Hb. destruct H2; [contradiction|done].
  - intros Hm. destruct H3; [contradiction|done].
Qed.

Lemma cache_column_set_spec s cs :
  NoDup cs ->
  (exists t, (cache_column_set s cs).2 = cs ++ t) /\
  (cache_column_set s cs).2 !! N.to_nat (cache_column_set s cs).1 = Some s /\
  NoDup (cache_column_set s cs).2.
Proof.
  intros Hnd. unfold cache_column_set.
  destruct (list_find (fun x => x = s) cs) as [[i y]|] eqn:E; cbn.
  - apply list_find_Some in E as (Hi & -> & _).
    split_and!; [exists []; by rewrite app_nil_r | by rewrite Nat2N.id | done].
  - apply list_find_None in E.
    split_and!; [eauto | rewrite Nat2N.id; by apply list_lookup_middle |].
    apply NoDup_app; split_and!; [done| |by apply NoDup_singleton].
    intros x Hx ->%list_elem_of_singleton. rewrite Forall_forall in E. exact (E _ Hx eq_refl).
Qed.

Lemma entry_ok_mono bf bf' Q Q' x v :
  grows bf bf' -> (exists t, column_sets bf' = column_sets bf ++ t) ->
  (x ∈ Q.*1 -> x ∈ Q'.*1) ->
  entry_ok bf Q x v -> entry_ok bf' Q' x v.
Proof.
  intros Hg [t Ht] HQ [H0 H1]. split; [done|]. intros Hc.
  destruct (H1 Hc) as (Hcc & Hs & Hv). split_and!; [done|by apply Hg|].
  destruct Hv as [[-> Hx]|Hv]; [left; auto|right].
  rewrite Ht. by apply lookup_app_l_Some.
Qed.

Lemma queue_ok_mono bf bf' x r : grows bf bf' -> queue_ok bf x r -> queue_ok bf' x r.
Proof. intros Hg (?&?&?&?&?&?&?). repeat split; auto. Qed.

(** one pushed (node, row) pair of a batch *)
Lemma push_inv bf x r Q :
  Inv bf ((x, r) :: Q) ->
  Inv (push bf x r (merge_sort (≤)%N (get_row r))) Q /\
  grows bf (push bf x r (merge_sort (≤)%N (get_row r))).
Proof.
  intros (H0 & Hnd & HQ & Hm).
  apply Forall_cons in HQ as [Hx HQ].
  pose proof (cache_column_set_spec (merge_sort (≤)%N (get_row r)) (column_sets bf) Hnd)
    as ([t Ht] & Hid & Hnd').
  destruct Hx as (Hr & Hc0 & Hcc & Hd & Hcan & Hsx & Hscx).
  assert (Hbase : anno_to_graph_index r = c x)
    by (unfold anno_to_graph_index; rewrite Hr; unfold graph_to_anno_index; lia).
  set (id := (cache_column_set (merge_sort (≤)%N (get_row r)) (column_sets bf)).1) in *.
  set (cs' := (cache_column_set (merge_sort (≤)%N (get_row r)) (column_sets bf)).2) in *.
  assert (Hpush : push bf x r (merge_sort (≤)%N (get_row r))
                  = mkBuffer (<[x:=id]> (node_to_cols bf)) cs').
  { unfold push_node_labels.
    destruct (cache_column_set _ _) as [i cs] eqn:E. subst id cs'. cbn.
    f_equal. rewrite Hbase.
    destruct (decide (mode = BASIC)); [done|].
    destruct canonical_; [by rewrite Hcan|].
    destruct (decide (c x <> x)); [|done].
    unfold try_emplace. rewrite lookup_insert_ne by congruence.
    destruct Hscx as [w ->]. done. }
  rewrite Hpush.
  assert (Hg : grows bf (mkBuffer (<[x:=id]> (node_to_cols bf)) cs')).
  { intros k Hk. cbn. apply lookup_insert_is_Some'; auto. }
  split; [|done].
  split_and!; cbn.
  - rewrite Ht. by apply lookup_app_l_Some.
  - done.
  - eapply Forall_impl; [exact HQ|]. intros [y ry]. apply queue_ok_mono. exact Hg.
  - intros k w Hk. apply lookup_insert_Some in Hk as [[<- <-]|[Hne Hk]].
    + split; [intros; contradiction|]. intros _. split_and!; [done| |].
      * apply lookup_insert_is_Some'; auto.
      * right. unfold expected. rewrite Hd. rewrite Hr in Hid. exact Hid.
    + eapply entry_ok_mono; [exact Hg| cbn; eauto | | exact (Hm k w Hk)].
      cbn. intros Hin. apply elem_of_cons in Hin as [->|Hin]; [contradiction|done].
Qed.

Lemma batch_inv bf Q :
  Inv bf Q ->
  Inv (fold_left (fun b '(node, row) =>
         push b node row (merge_sort (≤)%N (get_row row))) Q bf) [] /\
  grows bf (fold_left (fun b '(node, row) =>
         push b node row (merge_sort (≤)%N (get_row row))) Q bf).
Proof.
  revert bf. induction Q as [|[x r] Q IH]; intros bf HI; cbn.
  - split; [done|apply grows_refl].
  - destruct (push_inv bf x r Q HI) as [HI' Hg].
    destruct (IH _ HI') as [HI'' Hg']. split; [done|]. eapply grows_trans; eauto.
Qed.

Lemma fetch_row_batch_inv s :
  InvS s ->
  Inv (batch (fs_buf s) (queued_nodes s) (queued_rows s)) [] /\
  grows (fs_buf s) (batch (fs_buf s) (queued_nodes s) (queued_rows s)).
Proof. intros [_ HI]. unfold fetch_row_batch. by apply batch_inv. Qed.

(** a change of [node_to_cols] that keeps the old entries or adds entries
    that fit the invariant, and queues fitting pairs *)
Lemma Inv_update bf m' Q E :
  Inv bf Q -> grows bf (mkBuffer m' (column_sets bf)) ->
  Forall (fun '(x, r) => queue_ok (mkBuffer m' (column_sets bf)) x r) E ->
  (forall k v, m' !! k = Some v ->
     node_to_cols bf !! k = Some v \/ entry_ok (mkBuffer m' (column_sets bf)) (Q ++ E) k v) ->
  Inv (mkBuffer m' (column_sets bf)) (Q ++ E).
Proof.
  intros (H0 & Hnd & HQ & Hm) Hg HE Hnew. split_and!; cbn; [done|done| |].
  - apply Forall_app; split; [|done].
    eapply Forall_impl; [exact HQ|]. intros [y ry]. apply queue_ok_mono. exact Hg.
  - intros k v Hk. destruct (Hnew k v Hk) as [Hold|Hok]; [|done].
    eapply entry_ok_mono; [exact Hg| cbn; exists []; by rewrite app_nil_r | | exact (Hm k v Hold)].
    rewrite fmap_app, elem_of_app. auto.
Qed.

Lemma Inv_update0 bf m' Q :
  Inv bf Q -> grows bf (mkBuffer m' (column_sets bf)) ->
  (forall k v, m' !! k = Some v ->
     node_to_cols bf !! k = Some v \/ entry_ok (mkBuffer m' (column_sets bf)) Q k v) ->
  Inv (mkBuffer m' (column_sets bf)) Q.
Proof.
  intros HI Hg Hnew. rewrite <- (app_nil_r Q).
  apply Inv_update; [done|done|constructor|]. by rewrite app_nil_r.
Qed.

Lemma entry_nannot bf Q x :
  c x <> 0%N -> c (c x) = c x -> is_Some (node_to_cols bf !! c x) -> x ∈ Q.*1 ->
  entry_ok bf Q x nannot.
Proof. intros Hc Hcc Hs Hx. split; [intros; contradiction|]. intros _. auto. Qed.

Lemma entry_fetched bf Q x v :
  c x <> 0%N -> c (c x) = c x -> is_Some (node_to_cols bf !! c x) ->
  column_sets bf !! N.to_nat v = Some (expected (c x)) ->
  entry_ok bf Q x v.
Proof. intros Hc Hcc Hs Hx. split; [intros; contradiction|]. intros _. auto. Qed.

Lemma zip_snoc (qn qr l1 l2 : list N) :
  length qn = length qr -> zip (qn ++ l1) (qr ++ l2) = zip qn qr ++ zip l1 l2.
Proof. intros H. by apply zip_with_app. Qed.

Lemma elem_of_fmap_fst_snoc (Q : list (N * N)) x r : x ∈ (Q ++ [(x, r)]).*1.
Proof. rewrite fmap_app, elem_of_app. right. cbn. by apply list_elem_of_singleton. Qed.

(** the [CANONICAL] branch, before the batch-size check *)
Lemma canonical_step_inv s n b :
  c n = b -> b <> 0%N -> c b = b -> dummy b = false -> canonical_ = false -> InvS s ->
  InvS (canonical_step s n b (graph_to_anno_index b)) /\
  grows (fs_buf s) (fs_buf (canonical_step s n b (graph_to_anno_index b))) /\
  is_Some (node_to_cols (fs_buf (canonical_step s n b (graph_to_anno_index b))) !! n) /\
  is_Some (node_to_cols (fs_buf (canonical_step s n b (graph_to_anno_index b))) !! b).
Proof.
  intros Hcn Hb0 Hbb Hd Hcan [Hlen HI].
  destruct s as [[m cs] qn qr]. cbn in *. unfold canonical_step. cbn.
  set (row := graph_to_anno_index b).
  pose proof HI as (H0 & Hnd & HQ & Hm).
  assert (Hcb : forall x, c x = b -> c (c x) = c x) by (intros x ->; exact Hbb).
  destruct (m !! n) as [va|] eqn:En; destruct (m !! b) as [vb|] eqn:Eb.
  - (* both entries exist: both get the smaller id if it is fetched *)
    assert (Hva : va <> nannot -> cs !! N.to_nat va = Some (expected b)).
    { intros Hne. destruct (Hm n va En) as [_ Hn]. rewrite Hcn in Hn.
      destruct (Hn Hb0) as (_ & _ & [[? _]|Hv]); [contradiction|exact Hv]. }
    assert (Hvb : vb <> nannot -> cs !! N.to_nat vb = Some (expected b)).
    { intros Hne. destruct (Hm b vb Eb) as [_ Hn]. rewrite Hbb in Hn.
      destruct (Hn Hb0) as (_ & _ & [[? _]|Hv]); [contradiction|exact Hv]. }
    destruct (decide (N.min va vb <> nannot)) as [Hl|Hl]; cbn.
    + assert (Hlv : cs !! N.to_nat (N.min va vb) = Some (expected b)).
      { destruct (N.min_spec va vb) as [[_ Hx]|[_ Hx]]; rewrite Hx in Hl |- *;
          [apply Hva|apply Hvb]; exact Hl. }
      set (l := N.min va vb) in *.
      assert (Hg : grows (mkBuffer m cs) (mkBuffer (<[b:=l]> (<[n:=l]> m)) cs)).
      { intros k Hk. cbn in *. apply lookup_insert_is_Some'. right.
        apply lookup_insert_is_Some'. auto. }
      unfold InvS; cbn [fs_buf queued_nodes queued_rows node_to_cols column_sets]; split_and!; [done| |done| | ].
      * apply (Inv_update0 (mkBuffer m cs)); [done|done|]. cbn.
        intros k v Hk. apply lookup_insert_Some in Hk as [[<- <-]|[Hne Hk]].
        { right. apply entry_fetched; [congruence|congruence| |cbn; by rewrite Hbb].
          rewrite Hbb. cbn. by rewrite lookup_insert_eq. }
        apply lookup_insert_Some in Hk as [[<- <-]|[Hne' Hk]]; [|by left].
        right. apply entry_fetched; [congruence|auto| |cbn; by rewrite Hcn].
        rewrite Hcn. cbn. by rewrite lookup_insert_eq.
      * cbn. apply lookup_insert_is_Some'. right. rewrite lookup_insert_eq. eauto.
      * cbn. rewrite lookup_insert_eq. eauto.
    + unfold InvS; cbn [fs_buf queued_nodes queued_rows node_to_cols column_sets]; split_and!; [done|done|apply grows_refl | cbn; rewrite En; eauto | cbn; rewrite Eb; eauto].
  - (* the entry of [n] without one of its canonical node: impossible *)
    exfalso. destruct (Hm n va En) as [_ Hn]. rewrite Hcn in Hn.
    destruct (Hn Hb0) as (_ & Hs & _). cbn in Hs. rewrite Eb in Hs. by destruct Hs.
  - (* [n] takes the entry of [b], queued if [b] is not fetched yet *)
    assert (Hnb : n <> b) by congruence.
    assert (Hg : grows (mkBuffer m cs) (mkBuffer (<[n:=vb]> m) cs)) by apply grows_insert.
    destruct (decide (vb = nannot)) as [->|Hne]; cbn.
    + unfold InvS; cbn [fs_buf queued_nodes queued_rows node_to_cols column_sets]; split_and!.
      * rewrite !length_app. cbn. lia.
      * rewrite zip_snoc by done. cbn.
        apply (Inv_update (mkBuffer m cs)); [done|done| |].
        { constructor; [|constructor]. unfold queue_ok. cbn. rewrite Hcn.
          repeat split; auto; try (intros; congruence);
            try (rewrite lookup_insert_eq; eauto);
            (rewrite lookup_insert_ne by congruence; rewrite Eb; eauto). }
        intros k v Hk. apply lookup_insert_Some in Hk as [[<- <-]|[_ Hk]]; [|by left].
        right. apply entry_nannot; [congruence|auto| |apply elem_of_fmap_fst_snoc].
        cbn. rewrite Hcn, lookup_insert_ne by congruence. rewrite Eb. eauto.
      * done.
      * cbn. rewrite lookup_insert_eq. eauto.
      * cbn. rewrite lookup_insert_ne by congruence. rewrite Eb. eauto.
    + unfold InvS; cbn [fs_buf queued_nodes queued_rows node_to_cols column_sets]; split_and!; [done| | | | ].
      * apply (Inv_update0 (mkBuffer m cs)); [done|done|].
        intros k v Hk. cbn in Hk. apply lookup_insert_Some in Hk as [[<- <-]|[_ Hk]]; [|by left].
        right. apply entry_fetched; [congruence|auto| |].
        -- cbn. rewrite Hcn, lookup_insert_ne by congruence. rewrite Eb. eauto.
        -- cbn. rewrite Hcn. destruct (Hm b vb Eb) as [_ Hn]. rewrite Hbb in Hn.
           destruct (Hn Hb0) as (_ & _ & [[? _]|Hv]); [contradiction|exact Hv].
      * done.
      * cbn. rewrite lookup_insert_eq. eauto.
      * cbn. rewrite lookup_insert_ne by congruence. rewrite Eb. eauto.
  - (* neither has an entry: both are queued *)
    destruct (decide (n <> b)) as [Hnb|Hnb]; cbn.
    + assert (Hg : grows (mkBuffer m cs) (mkBuffer (<[b:=nannot]> (<[n:=nannot]> m)) cs)).
      { intros k Hk. cbn in *. apply lookup_insert_is_Some'. right.
        apply lookup_insert_is_Some'. auto. }
      assert (Hsb : is_Some (<[b:=nannot]> (<[n:=nannot]> m) !! b))
        by (rewrite lookup_insert_eq; eauto).
      assert (Hsn : is_Some (<[b:=nannot]> (<[n:=nannot]> m) !! n))
        by (rewrite lookup_insert_ne by congruence; rewrite lookup_insert_eq; eauto).
      unfold InvS; cbn [fs_buf queued_nodes queued_rows node_to_cols column_sets]; split_and!; [ | |done|done|done].
      * rewrite !length_app. cbn. lia.
      * rewrite zip_snoc by done. cbn.
        apply (Inv_update (mkBuffer m cs)); [done|done| |].
        { unfold queue_ok; repeat constructor; cbn; try rewrite Hcn; try rewrite Hbb; auto; congruence. }
        intros k v Hk. apply lookup_insert_Some in Hk as [[<- <-]|[Hne Hk]].
        { right. apply entry_nannot; [congruence|auto|cbn; by rewrite Hbb|].
          rewrite fmap_app, elem_of_app. right. cbn. apply elem_of_cons. right.
          by apply list_elem_of_singleton. }
        apply lookup_insert_Some in Hk as [[<- <-]|[_ Hk]]; [|by left].
        right. apply entry_nannot; [congruence|auto|cbn; by rewrite Hcn|].
        rewrite fmap_app, elem_of_app. right. cbn. by apply elem_of_cons; left.
    + assert (Hnb' : n = b) by (destruct (decide (n = b)); [done|contradiction]).
      subst n.
      assert (Hg : grows (mkBuffer m cs) (mkBuffer (<[b:=nannot]> m) cs)) by apply grows_insert.
      assert (Hsb : is_Some (<[b:=nannot]> m !! b)) by (rewrite lookup_insert_eq; eauto).
      unfold InvS; cbn [fs_buf queued_nodes queued_rows node_to_cols column_sets]; split_and!; [ | |done|done|done].
      * rewrite !length_app. cbn. lia.
      * rewrite zip_snoc by done. cbn.
        apply (Inv_update (mkBuffer m cs)); [done|done| |].
        { unfold queue_ok; repeat constructor; cbn; try rewrite Hbb; auto; congruence. }
        intros k v Hk. apply lookup_insert_Some in Hk as [[<- <-]|[_ Hk]]; [|by left].
        right. apply entry_nannot; [congruence|auto|cbn; by rewrite Hbb|].
        apply elem_of_fmap_fst_snoc.
Qed.

Lemma covered_pair_mono bf bf' n b :
  grows bf bf' -> covered_pair bf n b -> covered_pair bf' n b.
Proof. intros Hg (H1 & H2 & H3). split_and!; auto. Qed.

(** one iteration of the loop over [i] *)
Lemma process_node_inv s n b :
  mode <> PRIMARY -> pair_okb n b = true -> InvS s ->
  InvS (pnode s n b) /\ grows (fs_buf s) (fs_buf (pnode s n b)) /\
  covered_pair (fs_buf (pnode s n b)) n b.
Proof.
  intros Hmode Hp HS. apply pair_okb_spec in Hp as (Hb & Hb0 & Hcn).
  pose proof HS as [Hlen HI].
  destruct s as [[m cs] qn qr]. cbn in Hlen, HI.
  pose proof HI as (H0 & Hnd & HQ & Hm).
  unfold process_node. cbn [fs_buf node_to_cols column_sets queued_nodes queued_rows].
  destruct (decide (b = npos)) as [Hbn|Hbn]; [unfold npos in Hbn|].
  - (* [npos]: the node gets the empty set *)
    specialize (Hb0 Hbn).
    assert (Hg : grows (mkBuffer m cs) (mkBuffer (try_emplace n 0 m) cs))
      by (intros k Hk; apply try_emplace_is_Some; auto).
    split_and!.
    + split; [done|]. apply (Inv_update0 (mkBuffer m cs)); [done|done|].
      intros k v Hk. apply try_emplace_Some in Hk as [Hk|[-> ->]]; [by left|].
      right. split; [done|]. intros Hc; contradiction.
    + done.
    + split_and!; [intros; contradiction| |]; intros; apply try_emplace_is_Some; auto.
  - assert (Hbb : c b = b) by auto.
    assert (Hbz : b <> 0%N) by exact Hbn.
    destruct (dummy b) eqn:Hd.
    + (* a dummy node: the empty set, also for [n] in a canonical graph *)
      set (m1 := try_emplace b 0 m).
      assert (Hg1 : grows (mkBuffer m cs) (mkBuffer m1 cs))
        by (intros k Hk; apply try_emplace_is_Some; auto).
      assert (Hs1 : is_Some (m1 !! b)) by (apply try_emplace_is_Some; auto).
      assert (HI1 : Inv (mkBuffer m1 cs) (zip qn qr)).
      { apply (Inv_update0 (mkBuffer m cs)); [done|done|].
        intros k v Hk. apply try_emplace_Some in Hk as [Hk|[-> ->]]; [by left|].
        right. apply entry_fetched; [congruence|congruence|cbn; by rewrite Hbb|].
        cbn. rewrite Hbb. unfold expected. by rewrite Hd. }
      destruct (decide (mode = CANONICAL /\ b <> n)) as [[Hmc Hne]|Hnc].
      * specialize (Hcn Hmc).
        assert (Hg2 : grows (mkBuffer m1 cs) (mkBuffer (try_emplace n 0 m1) cs))
          by (intros k Hk; apply try_emplace_is_Some; auto).
        split_and!.
        -- split; [done|]. cbn. apply (Inv_update0 (mkBuffer m1 cs)); [done|done|].
           intros k v Hk. apply try_emplace_Some in Hk as [Hk|[-> ->]]; [by left|].
           right. apply entry_fetched; [congruence|congruence| |].
           ++ cbn. rewrite Hcn. apply try_emplace_is_Some. auto.
           ++ cbn. rewrite Hcn. unfold expected. by rewrite Hd.
        -- eapply grows_trans; eauto.
        -- unfold covered_pair; cbn. split_and!; [|intros; contradiction|]; intros;
             apply try_emplace_is_Some; auto.
      * split_and!.
        -- split; done.
        -- done.
        -- unfold covered_pair; cbn. split_and!; [done|intros; contradiction|].
           intros Hmc _. destruct (decide (b = n)) as [<-|Hne]; [done|].
           exfalso. apply Hnc. auto.
    + destruct (canonical_ || bool_decide (mode = BASIC)) eqn:Hbr.
      * (* the base node alone is queued *)
        assert (Hbasic : mode = CANONICAL -> canonical_ = false -> False).
        { intros Hmc Hcf. rewrite Hcf, Hmc in Hbr. cbn in Hbr.
          by apply bool_decide_eq_true in Hbr. }
        destruct (m !! b) as [vb|] eqn:Eb.
        -- split_and!; [done|apply grows_refl|]. unfold covered_pair; cbn.
           split_and!; [rewrite Eb; eauto|intros; contradiction|intros; exfalso; eauto].
        -- assert (Hg : grows (mkBuffer m cs) (mkBuffer (<[b:=nannot]> m) cs))
             by apply grows_insert.
           assert (Hsb : is_Some (<[b:=nannot]> m !! b)) by (rewrite lookup_insert_eq; eauto).
           split_and!.
           ++ split; cbn; [rewrite !length_app; cbn; lia|].
              rewrite zip_snoc by done. cbn.
              apply (Inv_update (mkBuffer m cs)); [done|done| |].
              { constructor; [|constructor]. unfold queue_ok. cbn. rewrite Hbb.
                repeat split; auto. }
              intros k v Hk. apply lookup_insert_Some in Hk as [[<- <-]|[_ Hk]]; [|by left].
              right. apply entry_nannot; [congruence|congruence|cbn; by rewrite Hbb|].
              apply elem_of_fmap_fst_snoc.
           ++ done.
           ++ unfold covered_pair; cbn. split_and!; [done|intros; contradiction|intros; exfalso; eauto].
      * (* a canonical graph: [n] and its canonical node [b] *)
        assert (Hmc : mode = CANONICAL).
        { apply orb_false_iff in Hbr as [_ Hbr]. apply bool_decide_eq_false in Hbr.
          destruct mode; congruence. }
        assert (Hcf : canonical_ = false) by (by apply orb_false_iff in Hbr as [? _]).
        specialize (Hcn Hmc).
        destruct (canonical_step_inv (mkFetchState (mkBuffer m cs) qn qr) n b
                    Hcn Hbz Hbb Hd Hcf HS) as (HS' & Hg & Hsn & Hsb).
        set (s' := canonical_step _ n b _) in *.
        assert (Hcov : covered_pair (fs_buf s') n b)
          by (split_and!; [done|intros; contradiction|done]).
        destruct (decide (row_batch_size <= length (queued_rows s'))).
        -- destruct (fetch_row_batch_inv s' HS') as [HI'' Hg'].
           split_and!; [split; [done|exact HI'']|eapply grows_trans; eauto|].
           eapply covered_pair_mono; eauto.
        -- split_and!; done.
Qed.

Lemma process_path_inv s p :
  mode <> PRIMARY ->
  forallb (fun '(n, b) => pair_okb n b) (zip p (base_path p)) = true -> InvS s ->
  InvS (ppath s p) /\ grows (fs_buf s) (fs_buf (ppath s p)) /\
  Forall (fun '(n, b) => covered_pair (fs_buf (ppath s p)) n b) (zip p (base_path p)).
Proof.
  intros Hmode. unfold process_path.
  generalize (zip p (base_path p)) as l. intros l.
  revert s. induction l as [|[n b] l IH]; intros s Hok HS; cbn in *.
  - split_and!; [done|apply grows_refl|constructor].
  - apply andb_true_iff in Hok as [Hnb Hok].
    destruct (process_node_inv s n b Hmode Hnb HS) as (HS' & Hg & Hcov).
    destruct (IH _ Hok HS') as (HS'' & Hg' & Hcovs).
    split_and!; [done|eapply grows_trans; eauto|].
    constructor; [|done]. eapply covered_pair_mono; [exact Hg'|exact Hcov].
Qed.

Lemma process_paths_inv s paths :
  mode <> PRIMARY -> paths_okb paths = true -> InvS s ->
  InvS (fold_left ppath paths s) /\ grows (fs_buf s) (fs_buf (fold_left ppath paths s)) /\
  covered paths (fs_buf (fold_left ppath paths s)).
Proof.
  intros Hmode. unfold paths_okb, covered.
  revert s. induction paths as [|p paths IH]; intros s Hok HS; cbn in *.
  - split_and!; [done|apply grows_refl|constructor].
  - apply andb_true_iff in Hok as [Hp Hok].
    destruct (process_path_inv s p Hmode Hp HS) as (HS' & Hg & Hcov).
    destruct (IH _ Hok HS') as (HS'' & Hg' & Hcovs).
    split_and!; [done|eapply grows_trans; eauto|].
    constructor; [|done].
    eapply Forall_impl; [exact Hcov|]. intros [n b]. apply covered_pair_mono. exact Hg'.
Qed.

Lemma buffer_ok_Inv bf : buffer_ok bf -> Inv bf [].
Proof.
  intros (H0 & Hnd & Hm). split_and!; [done|done|constructor|].
  intros x v Hx. destruct (Hm x v Hx) as [Hz Hnz]. split; [done|].
  intros Hc. destruct (Hnz Hc) as (Hcc & Hs & Hv). split_and!; eauto.
Qed.

Lemma Inv_buffer_ok bf : Inv bf [] -> buffer_ok bf.
Proof.
  intros (H0 & Hnd & _ & Hm). split_and!; [done|done|].
  intros x v Hx. destruct (Hm x v Hx) as [Hz Hnz]. split; [done|].
  intros Hc. destruct (Hnz Hc) as (Hcc & [w Hw] & Hv).
  destruct Hv as [[_ Hin]|Hv]; [by apply not_elem_of_nil in Hin|].
  destruct (Hm (c x) w Hw) as [_ Hnz']. rewrite Hcc in Hnz'.
  destruct (Hnz' Hc) as (_ & _ & [[_ Hin]|Hw']); [by apply not_elem_of_nil in Hin|].
  split_and!; [done| |done].
  rewrite Hw. f_equal. apply N2Nat.inj. by eapply NoDup_lookup.
Qed.

(** in a buffer of that shape, a node read from [npos] or from a dummy
    node holds id 0 *)
Lemma buffer_ok_dummy_zero (bf : buffer) (x v : N) :
  buffer_ok bf -> node_to_cols bf !! x = Some v ->
  c x = 0%N \/ dummy (c x) = true -> v = 0%N.
Proof.
  intros (H0 & Hnd & Hm) Hx Hd. destruct (Hm x v Hx) as [Hz Hnz].
  destruct (decide (c x = 0%N)) as [Hc|Hc]; [by apply Hz|].
  destruct Hd as [Hd|Hd]; [done|].
  destruct (Hnz Hc) as (_ & _ & Hv). unfold expected in Hv. rewrite Hd in Hv.
  apply N2Nat.inj. cbn. eapply NoDup_lookup; [exact Hnd | exact Hv | exact H0].
Qed.

(** C8 (amended). After [fetch_queued_annotations] (a graph not in
    [PRIMARY] mode, every queued path with the [base_path] the code computes
    for it), every entry of [node_to_cols] of a node [x] holds the id of the
    column set of the node [c x] it is read from, and the entry of [c x] holds
    the same id: in a canonical graph a node and its canonical node share one
    id, in a basic graph ([c] the identity) nothing is folded.  A node read
    from [npos] or from a dummy node holds id 0, the id of the empty set, and
    the ids are distinct.  For every node [n] of a queued path whose
    [base_path] node is [b], [b] gets an entry when it is not [npos], [n]
    gets one when [b] is [npos], and [n] gets one in a canonical graph used
    directly.  Only nodes with an entry are folded: the reverse complement
    of a queued node need not get one. *)
Theorem fetch_queued_annotations_folds (paths : list (list N)) (bf : buffer) :
  mode <> PRIMARY -> paths_okb paths = true -> buffer_ok bf ->
  buffer_ok (fetch paths bf) /\ covered paths (fetch paths bf) /\
  (forall x v, node_to_cols (fetch paths bf) !! x = Some v ->
     c x = 0%N \/ dummy (c x) = true -> v = 0%N).
Proof.
  intros Hmode Hok Hbf. unfold fetch_queued_annotations.
  destruct (process_paths_inv (mkFetchState bf [] []) paths Hmode Hok) as (HS & Hg & Hcov).
  { split; [done|]. cbn. by apply buffer_ok_Inv. }
  destruct (fetch_row_batch_inv _ HS) as [HI Hg'].
  assert (Hok' := Inv_buffer_ok _ HI).
  split; [exact Hok'|]. split.
  - eapply Forall_impl; [exact Hcov|]. intros p Hp. eapply Forall_impl; [exact Hp|].
    intros [n b]. apply covered_pair_mono. exact Hg'.
  - intros x v Hx. exact (buffer_ok_dummy_zero _ x v Hok' Hx).
Qed.

End FetchFacts.
Import AnnotationBufferExamples.

(** C8. Counterexample: with a [CanonicalDBG] whose node 3 is the reverse
    complement of base node 1, fetching the path [3] gives base node 1 an
    entry and node 3 none; in a canonical graph whose node 2 is the reverse
    complement of node 1, fetching the path [1] gives node 1 an entry and
    node 2 none. *)
Lemma reverse_complement_not_folded :
  node_to_cols (fetch_queued_annotations CANONICAL PRIMARY true false false id ex_base_node
                  (fun _ => false) ex_row 100 [[3%N]] init_buffer) !! 3%N = None /\
  node_to_cols (fetch_queued_annotations CANONICAL PRIMARY true false false id ex_base_node
                  (fun _ => false) ex_row 100 [[3%N]] init_buffer) !! 1%N = Some 1%N /\
  node_to_cols (fetch_queued_annotations CANONICAL CANONICAL false false false ex_canonical id
                  (fun _ => false) ex_row 100 [[1%N]] init_buffer) !! 2%N = None /\
  node_to_cols (fetch_queued_annotations CANONICAL CANONICAL false false false ex_canonical id
                  (fun _ => false) ex_row 100 [[1%N]] init_buffer) !! 1%N = Some 1%N.
Proof. split_and!; vm_compute; reflexivity. Qed.

Lemma fetch_queued_annotations_folds_witness :
  buffer_ok true ex_dummy ex_row ex_canonical
    (fetch_queued_annotations CANONICAL CANONICAL false false true ex_canonical id ex_dummy
       ex_row 1 [[2%N; 3%N]; [4%N; 1%N]; [5%N]] init_buffer) /\
  covered CANONICAL CANONICAL false false ex_canonical id [[2%N; 3%N]; [4%N; 1%N]; [5%N]]
    (fetch_queued_annotations CANONICAL CANONICAL false false true ex_canonical id ex_dummy
       ex_row 1 [[2%N; 3%N]; [4%N; 1%N]; [5%N]] init_buffer) /\
  (forall x v,
     node_to_cols (fetch_queued_annotations CANONICAL CANONICAL false false true ex_canonical
                     id ex_dummy ex_row 1 [[2%N; 3%N]; [4%N; 1%N]; [5%N]] init_buffer) !! x
     = Some v ->
     ex_canonical x = 0%N \/ is_dummy true ex_dummy (ex_canonical x) = true -> v = 0%N).
Proof.
  apply (fetch_queued_annotations_folds CANONICAL CANONICAL false false true ex_canonical id
           ex_dummy ex_row 1 ex_canonical [[2%N; 3%N]; [4%N; 1%N]; [5%N]] init_buffer);
    [discriminate | vm_compute; reflexivity | apply (bool_decide_unpack _); vm_compute; exact I].
Defined.

End AnnotationBufferClaims.

Module RowDiffQueryFacts.
Import BitVector RowDiffSerialization IntRowDiff RowValuesSemantics RowValuesFacts
  RowDiffCorrectness RowDiffQueries RowDiffClaims.

Lemma found_sorted (l : list N) (j : N) :
  StronglySorted N.lt l -> found l j = bool_decide (j ∈ l).
Proof.
  unfold found. induction l as [|x l IH]; intros Hs.
  - cbn. rewrite bool_decide_false; [done|]. apply not_elem_of_nil.
  - apply StronglySorted_inv in Hs as [Hs Hx]. cbn [lower_bound].
    destruct (x <? j)%N eqn:E.
    + apply N.ltb_lt in E. rewrite IH by done. apply bool_decide_ext.
      rewrite elem_of_cons. split; [tauto|]. intros [->|?]; [lia|done].
    + apply N.ltb_ge in E. destruct (N.eqb_spec x j) as [->|Hne].
      * rewrite bool_decide_true; [done|]. apply elem_of_cons. by left.
      * rewrite bool_decide_false; [done|]. rewrite elem_of_cons. intros [->|Hin]; [done|].
        apply list_elem_of_In in Hin. rewrite List.Forall_forall in Hx.
        specialize (Hx _ Hin). lia.
Qed.

Lemma cols_sorted (row : RowValues) :
  StronglySorted col_lt row -> StronglySorted N.lt (map fst row).
Proof.
  induction row as [|p row IH]; intros Hs; [constructor|].
  apply StronglySorted_inv in Hs as [Hs Hp]. cbn. constructor; [by apply IH|].
  apply List.Forall_map. eapply Forall_impl; [exact Hp|]. unfold col_lt. done.
Qed.

Section Queries.
Variables (rd_succ : bv -> Row -> Row) (an fs : bv) (h : Row -> nat) (L : Row -> RowValues).
Variable fuel : nat.
Hypothesis Hh : forall r, bit an r = false -> h (rd_succ fs r) < h r.
Hypothesis HL : forall r, canon63 (L r).

Local Abbreviation X := (mkRowDiff an fs (rd_store L an (rd_succ fs))).

Lemma rows_correct (rs : list Row) :
  (forall r, In r rs -> h r < fuel) ->
  get_row_values (fun d r => d r) rd_succ X fuel rs = Some (map L rs).
Proof.
  intros Hrs. apply (get_row_values_correct _ _ _ h); cbn [anchor fork_succ diffs].
  - exact Hh.
  - intros r Ha. apply rd_store_anchor; done.
  - intros r Ha. apply rd_store_step; done.
  - exact Hrs.
Qed.

Lemma get_correct (i : Row) (j : N) :
  h i < fuel -> get (fun d r => d r) rd_succ X fuel i j = Some (bool_decide (j ∈ map fst (L i))).
Proof.
  intros Hi. unfold get, IntRowDiff.get_row. rewrite rows_correct.
  - cbn. f_equal. apply found_sorted, cols_sorted. apply (HL i).
  - intros r [<-|[]]. done.
Qed.

Lemma column_rows_correct (rows : list Row) (j : N) :
  (forall r, In r rows -> h r < fuel) ->
  column_rows (fun d r => d r) rd_succ X fuel rows j =
  Some (List.filter (fun i => bool_decide (j ∈ map fst (L i))) rows).
Proof.
  induction rows as [|i rows IH]; intros Hr; [done|].
  cbn [column_rows]. rewrite get_correct by (apply Hr; left; done).
  rewrite IH by (intros r Hin; apply Hr; right; done). cbn.
  destruct (bool_decide _); done.
Qed.

End Queries.

(** on a matrix stored as row diffs whose successor chains reach an
    anchor, [IntRowDiff::get(i, j)] tells whether column [j] is set in row
    [i], [get_column(j)] lists the rows with column [j] set, in increasing
    order, and [get_rows(row_ids)] returns, for any list of requested rows
    (in any order, repeats allowed), the set columns of each *)
Theorem row_diff_queries (rd_succ : bv -> Row -> Row) (an fs : bv) (h : Row -> nat)
    (L : Row -> RowValues) (fuel n : nat) (j : N) (row_ids : list Row) :
  (forall r, bit an r = false -> h (rd_succ fs r) < h r) ->
  (forall r, canon63 (L r)) ->
  (forall r, r < n -> h r < fuel) ->
  (forall r, In r row_ids -> h r < fuel) ->
  (forall i, i < n ->
     get (fun d r => d r) rd_succ (mkRowDiff an fs (rd_store L an (rd_succ fs))) fuel i j
     = Some (bool_decide (j ∈ map fst (L i)))) /\
  get_column (fun d r => d r) rd_succ (mkRowDiff an fs (rd_store L an (rd_succ fs))) fuel n j
  = Some (List.filter (fun i => bool_decide (j ∈ map fst (L i))) (seq 0 n)) /\
  get_rows (fun d r => d r) rd_succ (mkRowDiff an fs (rd_store L an (rd_succ fs))) fuel row_ids
  = Some (map (fun i => map fst (L i)) row_ids).
Proof.
  intros Hh HL Hf Hrows. split_and!.
  - intros i Hi. apply (get_correct rd_succ an fs h L fuel Hh HL). auto.
  - unfold get_column. apply (column_rows_correct rd_succ an fs h L fuel Hh HL).
    intros r Hr. apply in_seq in Hr. apply Hf. lia.
  - unfold get_rows. rewrite (rows_correct rd_succ an fs h L fuel Hh HL) by exact Hrows.
    rewrite map_map. done.
Qed.

Lemma row_diff_queries_witness :
  get_column (fun d r => d r) RowDiffExamples.ex_succ
    (mkRowDiff RowDiffExamples.ex_anchor []
       (rd_store RowDiffExamples.ex_L RowDiffExamples.ex_anchor (RowDiffExamples.ex_succ [])))
    3 3 2%N = Some [0; 2] /\
  get_rows (fun d r => d r) RowDiffExamples.ex_succ
    (mkRowDiff RowDiffExamples.ex_anchor []
       (rd_store RowDiffExamples.ex_L RowDiffExamples.ex_anchor (RowDiffExamples.ex_succ [])))
    3 [2; 0; 2]
  = Some (map (fun i => map fst (RowDiffExamples.ex_L i)) [2; 0; 2]).
Proof.
  destruct (row_diff_queries RowDiffExamples.ex_succ RowDiffExamples.ex_anchor []
              RowDiffExamples.ex_rank RowDiffExamples.ex_L 3 3 2%N [2; 0; 2])
    as (_ & Hcol & Hrows).
  - intros [|[|[|r]]] Ha; cbn in *; [lia | lia | discriminate | lia].
  - intros [|[|[|r]]]; cbn; unfold canon63, col_lt;
      repeat (constructor; cbn; try lia).
  - intros r Hr. destruct r as [|[|[|r]]]; cbn; lia.
  - intros r Hr. destruct Hr as [<-|[<-|[<-|[]]]]; cbn; lia.
  - split; [|exact Hrows]. refine (eq_trans Hcol _). vm_compute. reflexivity.
Defined.

(** [decode_diff] never yields the excluded diff 0 and [encode_diff]
    inverts it, on every code but the two largest ones *)
Theorem decode_diff_encode (c : N) :
  (c < 2 ^ 64 - 2)%N ->
  decode_diff c <> 0%N /\ encode_diff (to_int64 (decode_diff c)) = c.
Proof.
  intros Hc. unfold decode_diff, encode_diff, to_int64, u64.
  destruct (N.Even_or_Odd c) as [[k ->]|[k ->]].
  - rewrite N.testbit_even_0. cbn [negb].
    rewrite (N.mul_comm 2), N.div_mul by lia.
    rewrite N.mod_small by lia.
    assert (k + 1 < 2 ^ 63)%N as Hk by lia.
    apply N.ltb_lt in Hk. rewrite Hk. apply N.ltb_lt in Hk.
    split; [lia|].
    rewrite (proj2 (Z.ltb_ge _ _)) by lia. lia.
  - rewrite N.testbit_odd_0. cbn [negb].
    rewrite (N.mod_small (2 * k + 1 + 1)) by lia.
    replace (2 * k + 1 + 1)%N with ((k + 1) * 2)%N by lia. rewrite N.div_mul by lia.
    rewrite N.mod_small by lia.
    assert (~ (2 ^ 64 - (k + 1) < 2 ^ 63))%N as Hk by lia.
    rewrite <- N.ltb_lt in Hk. destruct (_ <? _)%N; [done|].
    split; [lia|].
    rewrite (proj2 (Z.ltb_lt _ _)) by lia. lia.
Qed.

Lemma decode_diff_encode_witness : decode_diff 5 <> 0%N /\ encode_diff (to_int64 (decode_diff 5)) = 5%N.
Proof. apply decode_diff_encode. lia. Defined.

End RowDiffQueryFacts.


Module BRWTQueryFacts.
Import BitVector BRWT BitVectorFacts RankSelectFacts AssignmentFacts BRWTStructure SliceListFacts BRWTFacts
  BRWTQueries.

Lemma get_column_ranks_node (a : Assignments) (nz : bv) (ch : list brwt) (i : Row) :
  get_column_ranks (Node a nz ch) i =
  if conditional_rank1 nz i =? 0 then []
  else match ch with
       | [] => [(0%N, conditional_rank1 nz i)]
       | _ => concat (imap (fun k c => map (fun '(col_id, r) => (assign_get a k col_id, r))
                                         (get_column_ranks c (conditional_rank1 nz i - 1))) ch)
       end.
Proof.
  destruct ch as [|c0 ch]; cbn [get_column_ranks]; [done|].
  destruct (conditional_rank1 nz i =? 0); [done|].
  exact (fix_concat_eq (fun k c => map (fun '(col_id, r) => (assign_get a k col_id, r))
                                     (get_column_ranks c (conditional_rank1 nz i - 1)))
           (c0 :: ch) 0).
Qed.

Lemma cond_rank_zero (nz : bv) (i : Row) :
  (conditional_rank1 nz i =? 0) = negb (bit nz i).
Proof.
  rewrite conditional_rank1_spec. destruct (bit nz i) eqn:Hb; [|done].
  pose proof (rank1_pos nz i Hb). apply Nat.eqb_neq. lia.
Qed.

(** the columns of [get_column_ranks] are those of [get_row] *)
Lemma get_column_ranks_fst (t : brwt) (i : Row) :
  map fst (get_column_ranks t i) = get_row t i.
Proof.
  revert i. induction t as [a nz ch IH] using brwt_ind'. intros i.
  rewrite get_column_ranks_node, get_row_node, cond_rank_zero.
  destruct (bit nz i) eqn:Hb; [|done]. cbn [negb].
  rewrite conditional_rank1_spec, Hb.
  destruct ch as [|c0 ch]; [done|]. cbv iota beta.
  rewrite List.concat_map, SliceListFacts.map_imap. f_equal. apply imap_ext. intros k y Hk.
  rewrite map_map. rewrite <- (Forall_lookup_1 _ _ _ _ IH Hk (rank1 nz i - 1)), map_map.
  apply map_ext. intros [col r]. done.
Qed.

Lemma get_column_ranks_cols (t : brwt) (i : Row) :
  wf t = true -> forall c, In c (map fst (get_column_ranks t i)) <->
  N.to_nat c < num_columns t /\ get t i c = true.
Proof.
  intros Hwf c. rewrite get_column_ranks_fst. split.
  - intros Hin. pose proof (get_row_lt t Hwf _ _ Hin) as Hlt. split; [done|].
    apply get_iff_get_row; done.
  - intros [Hlt Hg]. apply get_iff_get_row; done.
Qed.

(** the rows [i'] with [bit nz i'] set among the first [n], renumbered by
    [rank1 nz i' - 1], are the first [cnt nz 0 n] child rows *)
Lemma count_reindex (nz : bv) (g : nat -> bool) (n : nat) :
  length (List.filter (fun i' => if bit nz i' then g (rank1 nz i' - 1) else false) (seq 0 n))
  = length (List.filter g (seq 0 (cnt nz 0 n))).
Proof.
  induction n as [|n IH]; [done|].
  rewrite seq_S, length_filter_app, IH, cnt_S. cbn [List.filter]. rewrite !Nat.add_0_l.
  assert (Hr : rank1 nz n = cnt nz 0 n + (if bit nz n then 1 else 0))
    by (rewrite rank1_cnt, cnt_S; done).
  destruct (bit nz n); cbn [length].
  - rewrite Hr. replace (cnt nz 0 n + 1) with (S (cnt nz 0 n)) by lia.
    rewrite seq_S, length_filter_app. cbn. rewrite Nat.sub_0_r.
    destruct (g (cnt nz 0 n)); done.
  - rewrite !Nat.add_0_r. done.
Qed.

Lemma sum_reindex (nz : bv) (g : nat -> nat) (n : nat) :
  list_sum (map (fun i' => if bit nz i' then g (rank1 nz i' - 1) else 0) (seq 0 n))
  = list_sum (map g (seq 0 (cnt nz 0 n))).
Proof.
  induction n as [|n IH]; [done|].
  rewrite seq_S, map_app, list_sum_app, IH, cnt_S. cbn [map list_sum foldr]. rewrite !Nat.add_0_l.
  assert (Hr : rank1 nz n = cnt nz 0 n + (if bit nz n then 1 else 0))
    by (rewrite rank1_cnt, cnt_S; done).
  destruct (bit nz n).
  - rewrite Hr. replace (cnt nz 0 n + 1) with (S (cnt nz 0 n)) by lia.
    rewrite seq_S, map_app, list_sum_app. cbn. rewrite Nat.sub_0_r. lia.
  - rewrite !Nat.add_0_r. done.
Qed.

(** the rank of a row in a column: the number of rows up to it that hold the column *)
Lemma get_column_ranks_rank (t : brwt) :
  wf t = true -> forall i c r, In (c, r) (get_column_ranks t i) ->
  r = length (List.filter (fun i' => get t i' c) (seq 0 (S i))).
Proof.
  induction t as [a nz ch IH] using brwt_ind'.
  intros Hwf i c r Hin. rewrite get_column_ranks_node, cond_rank_zero in Hin.
  destruct (bit nz i) eqn:Hb; [|done]. cbn [negb] in Hin.
  rewrite conditional_rank1_spec, Hb in Hin.
  pose proof (rank1_pos nz i Hb) as Hpos.
  destruct ch as [|c0 ch].
  - destruct Hin as [Hin|[]]. injection Hin as <- <-.
    rewrite rank1_cnt. unfold cnt. apply length_filter_ext. intros i' _.
    rewrite get_node. done.
  - set (ch' := c0 :: ch) in *.
    apply in_concat_imap in Hin as [k [y [Hk Hin]]].
    apply in_map_iff in Hin as [[col' r'] [Heq Hin]]. injection Heq as <- <-.
    destruct (wf_child _ _ _ _ _ Hwf Hk) as [Hwy [_ Hcy]].
    assert (Hlt : N.to_nat col' < count_group a k).
    { rewrite <- Hcy. apply (get_column_ranks_cols y (rank1 nz i - 1) Hwy).
      apply in_map_iff. exists (col', r'). done. }
    destruct (assign_get_spec a k col' Hlt) as [_ [Hg Hr]].
    rewrite (Forall_lookup_1 _ _ _ _ IH Hk Hwy _ _ _ Hin).
    replace (S (rank1 nz i - 1)) with (cnt nz 0 (S i)) by (rewrite <- rank1_cnt; lia).
    rewrite <- count_reindex. apply length_filter_ext. intros i' _.
    rewrite get_node. subst ch'. rewrite cond_rank_zero, conditional_rank1_spec.
    destruct (bit nz i'); [|done]. cbn [negb]. rewrite Hg, Hk, Hr. done.
Qed.


Lemma nodup_blocks (grp : Column -> nat) (blocks : list (list Column)) (j : nat) :
  (forall k l, blocks !! k = Some l -> NoDup l /\ forall x, In x l -> grp x = j + k) ->
  NoDup (concat blocks).
Proof.
  revert j. induction blocks as [|l bs IH]; intros j H; [constructor|].
  cbn [concat]. apply NoDup_app. split_and!.
  - apply (H 0). done.
  - intros x Hx1 Hx2. apply list_elem_of_In in Hx1, Hx2.
    destruct (H 0 l eq_refl) as [_ Hg]. apply Hg in Hx1.
    apply in_concat in Hx2 as [l' [Hl' Hx2]]. apply list_elem_of_In, list_elem_of_lookup_1 in Hl' as [k Hk].
    destruct (H (S k) l' Hk) as [_ Hg']. apply Hg' in Hx2. lia.
  - apply (IH (S j)). intros k l' Hk. destruct (H (S k) l' Hk) as [Hn Hg].
    split; [done|]. intros x Hx. rewrite Hg by done. lia.
Qed.

Lemma get_row_nodup (t : brwt) : wf t = true -> forall r, NoDup (get_row t r).
Proof.
  induction t as [a nz ch IH] using brwt_ind'. intros Hwf r. rewrite get_row_node.
  destruct (bit nz r); cbn [negb]; [|constructor].
  destruct ch as [|c0 ch]; [apply NoDup_singleton|].
  set (ch' := c0 :: ch) in *.
  apply (nodup_blocks (group a) _ 0). intros k l Hk.
  rewrite list_lookup_imap in Hk. destruct (ch' !! k) as [y|] eqn:Hy; [|done].
  cbn in Hk. injection Hk as <-.
  destruct (wf_child _ _ _ _ _ Hwf Hy) as [Hwy [_ Hcy]].
  assert (Hsp : forall c, In c (get_row y (rank1 nz r - 1)) ->
            group a (assign_get a k c) = k /\ rank a (assign_get a k c) = c).
  { intros c Hc. pose proof (get_row_lt y Hwy _ _ Hc) as Hlt. rewrite Hcy in Hlt.
    destruct (assign_get_spec a k c Hlt) as [_ H]. done. }
  split.
  - apply NoDup_ListNoDup, NoDup_map_NoDup_ForallPairs;
      [|apply NoDup_ListNoDup, (Forall_lookup_1 _ _ _ _ IH Hy Hwy)].
    intros x y' Hx Hy' Heq. rewrite <- (proj2 (Hsp x Hx)), <- (proj2 (Hsp y' Hy')), Heq. done.
  - intros x Hx. apply in_map_iff in Hx as [c [<- Hc]]. apply Hsp. done.
Qed.

(** the number of columns set in row [i] *)
Lemma get_column_ranks_length (t : brwt) (i : Row) :
  wf t = true ->
  length (get_column_ranks t i) =
  length (List.filter (fun c => get t i c) (map N.of_nat (seq 0 (num_columns t)))).
Proof.
  intros Hwf. rewrite <- (length_map fst), get_column_ranks_fst.
  apply Permutation_length, NoDup_Permutation.
  - apply get_row_nodup. done.
  - apply NoDup_ListNoDup, List.NoDup_filter, NoDup_map_NoDup_ForallPairs; [|apply seq_NoDup].
    intros x y _ _ H. lia.
  - intros c. rewrite !list_elem_of_In, filter_In, in_map_iff. split.
    + intros Hin. pose proof (get_row_lt t Hwf _ _ Hin) as Hlt. split.
      * exists (N.to_nat c). split; [lia|]. apply in_seq. lia.
      * apply get_iff_get_row; done.
    + intros [[n [<- Hn]] Hg]. apply in_seq in Hn. apply get_iff_get_row; [done| |done]. lia.
Qed.

Lemma list_sum_cons (x : nat) (l : list nat) : list_sum (x :: l) = x + list_sum l.
Proof. reflexivity. Qed.

Lemma length_concat_imap {X} (f : nat -> brwt -> list X) (L : brwt -> nat) (ch : list brwt) :
  (forall k c, length (f k c) = L c) ->
  length (concat (imap f ch)) = list_sum (map L ch).
Proof.
  revert f. induction ch as [|c ch IH]; intros f Hf; [done|].
  rewrite imap_cons. cbn [concat map]. rewrite list_sum_cons, length_app, Hf, (IH (f ∘ S)); [done|].
  intros k c'. apply Hf.
Qed.

Lemma list_sum_map_add {X} (f g : X -> nat) (l : list X) :
  list_sum (map (fun x => f x + g x) l) = list_sum (map f l) + list_sum (map g l).
Proof. induction l as [|x l IH]; [done|]. cbn [map]. rewrite !list_sum_cons, IH. lia. Qed.

Lemma list_sum_map_zero {X} (f : X -> nat) (l : list X) :
  (forall x, f x = 0) -> list_sum (map f l) = 0.
Proof. intros Hf. induction l as [|x l IH]; [done|]. cbn [map]. rewrite list_sum_cons, Hf, IH. done. Qed.

Lemma sum_swap (b : nat -> bool) (F : brwt -> nat -> nat) (is : list nat) (cs : list brwt) :
  list_sum (map (fun i => if b i then list_sum (map (fun c => F c i) cs) else 0) is)
  = list_sum (map (fun c => list_sum (map (fun i => if b i then F c i else 0) is)) cs).
Proof.
  induction is as [|i is IH].
  - cbn [map]. symmetry. apply list_sum_map_zero. done.
  - cbn [map]. rewrite list_sum_cons, IH.
    erewrite (map_ext (fun c => list_sum (map (fun i0 => if b i0 then F c i0 else 0) (i :: is)))).
    2: { intros c. cbn [map]. rewrite list_sum_cons. reflexivity. }
    rewrite (list_sum_map_add (fun c => if b i then F c i else 0)). f_equal.
    destruct (b i); [done|]. symmetry. apply list_sum_map_zero. done.
Qed.

Lemma num_set_bits_cnt (v : bv) : num_set_bits v = cnt v 0 (length v).
Proof. unfold num_set_bits. rewrite <- count_take, take_ge by lia. done. Qed.

Lemma num_relations_sum (t : brwt) :
  wf t = true ->
  num_relations t = list_sum (map (fun i => length (get_column_ranks t i)) (seq 0 (num_rows t))).
Proof.
  induction t as [a nz ch IH] using brwt_ind'. intros Hwf.
  unfold num_rows. cbn [nonzero_rows].
  erewrite map_ext.
  2: { intros i. rewrite get_column_ranks_node, cond_rank_zero, conditional_rank1_spec. reflexivity. }
  destruct ch as [|c0 ch].
  - cbn [num_relations]. rewrite num_set_bits_cnt.
    transitivity (list_sum (map (fun _ => 1) (seq 0 (cnt nz 0 (length nz))))).
    { rewrite <- (length_seq (cnt nz 0 (length nz)) 0) at 1.
      generalize (seq 0 (cnt nz 0 (length nz))). intros l.
      induction l as [|x l IHl]; [done|]. cbn [map length]. rewrite list_sum_cons, <- IHl. done. }
    rewrite <- (sum_reindex nz (fun _ => 1)). f_equal. apply map_ext. intros i.
    destruct (bit nz i); done.
  - set (ch' := c0 :: ch) in *.
    transitivity (list_sum (map (fun i => if bit nz i then
                     list_sum (map (fun c => length (get_column_ranks c (rank1 nz i - 1))) ch')
                     else 0) (seq 0 (length nz)))).
    2: { f_equal. apply map_ext. intros i. destruct (bit nz i); cbn [negb]; [|done].
         subst ch'. cbv iota beta. symmetry. apply length_concat_imap. intros k c. apply length_map. }
    rewrite (sum_swap (bit nz) (fun c i => length (get_column_ranks c (rank1 nz i - 1)))).
    cbn [num_relations]. subst ch'. f_equal. apply map_ext_in. intros c Hc.
    apply list_elem_of_In, list_elem_of_lookup_1 in Hc as [k Hk].
    destruct (wf_child _ _ _ _ _ Hwf Hk) as [Hwc [Hrc _]].
    rewrite (Forall_lookup_1 _ _ _ _ IH Hk Hwc), Hrc, num_set_bits_cnt.
    symmetry. apply (sum_reindex nz (fun k => length (get_column_ranks c k))).
Qed.

Lemma filter_list_prod {X Y} (P : X * Y -> bool) (xs : list X) (ys : list Y) :
  length (List.filter P (list_prod xs ys)) =
  list_sum (map (fun x => length (List.filter (fun y => P (x, y)) ys)) xs).
Proof.
  induction xs as [|x xs IH]; [done|]. cbn [list_prod map]. rewrite list_sum_cons.
  rewrite length_filter_app, IH, length_filter_map. done.
Qed.

(** [num_relations] counts the set cells of the matrix *)
Theorem num_relations_count (t : brwt) :
  wf t = true ->
  num_relations t =
  length (List.filter (fun p => get t p.1 p.2)
            (list_prod (seq 0 (num_rows t)) (map N.of_nat (seq 0 (num_columns t))))).
Proof.
  intros Hwf. rewrite num_relations_sum, filter_list_prod by done.
  f_equal. apply map_ext. intros i. apply get_column_ranks_length. done.
Qed.

(** the nodes of the tree, the root first *)
Fixpoint subtrees (t : brwt) : list brwt :=
  match t with
  | Node _ _ ch => t :: concat (map subtrees ch)
  end.

Lemma bft_perm (fuel : nat) (q : list brwt) :
  list_sum (map num_nodes q) <= fuel -> bft fuel q ≡ₚ concat (map subtrees q).
Proof.
  revert q. induction fuel as [|f IH]; intros q Hq.
  - destruct q as [|t q]; [done|]. cbn in Hq. pose proof (BRWTSerializationFacts.num_nodes_pos t). lia.
  - destruct q as [|[a nz ch] q]; [done|]. cbn [bft child_nodes map concat subtrees].
    cbn [app]. constructor. rewrite IH.
    + rewrite map_app, concat_app. apply Permutation_app_comm.
    + cbn [map num_nodes] in Hq. rewrite list_sum_cons in Hq. rewrite map_app, list_sum_app. lia.
Qed.

Lemma subtrees_length (t : brwt) : length (subtrees t) = num_nodes t.
Proof.
  induction t as [a nz ch IH] using brwt_ind'. cbn. f_equal.
  rewrite length_concat, map_map. f_equal. apply map_ext_in. intros c Hc.
  rewrite List.Forall_forall in IH. apply IH. done.
Qed.

Lemma list_sum_perm (l1 l2 : list nat) : l1 ≡ₚ l2 -> list_sum l1 = list_sum l2.
Proof.
  induction 1 as [| x l1 l2 _ IH | x y l | l1 l2 l3 _ IH1 _ IH2]; cbn [list_sum fold_right];
    [done | unfold list_sum in IH; lia | lia | lia].
Qed.

(** [BFT] calls the callback once on every node of the tree, so
    [num_nodes], [total_column_size] and [total_num_set_bits] count the
    nodes and sum the sizes and the set bits of their [nonzero_rows_] *)
Theorem BFT_nodes (t : brwt) :
  (BFT t ≡ₚ subtrees t) /\ bft_num_nodes t = num_nodes t /\
  total_column_size t = list_sum (map (fun node => length (nonzero_rows node)) (subtrees t)) /\
  total_num_set_bits t = list_sum (map (fun node => num_set_bits (nonzero_rows node)) (subtrees t)).
Proof.
  assert (H : BFT t ≡ₚ subtrees t).
  { unfold BFT. rewrite bft_perm; [cbn; rewrite app_nil_r; done|]. cbn. lia. }
  split_and!; [done | | |].
  - unfold bft_num_nodes. rewrite H. apply subtrees_length.
  - unfold total_column_size. apply list_sum_perm. rewrite H. done.
  - unfold total_num_set_bits. apply list_sum_perm. rewrite H. done.
Qed.


(** [get_column_ranks(i)] lists each set column of row [i] once, with the
    number of set cells of that column in rows [0..i] *)
Theorem get_column_ranks_spec (t : brwt) (i : Row) :
  wf t = true ->
  (forall c, In c (map fst (get_column_ranks t i)) <->
             N.to_nat c < num_columns t /\ get t i c = true) /\
  NoDup (map fst (get_column_ranks t i)) /\
  (forall c r, In (c, r) (get_column_ranks t i) ->
               r = length (List.filter (fun i' => get t i' c) (seq 0 (S i)))).
Proof.
  intros Hwf. split_and!.
  - apply get_column_ranks_cols. done.
  - rewrite get_column_ranks_fst. apply get_row_nodup. done.
  - apply get_column_ranks_rank. done.
Qed.

Lemma get_column_ranks_spec_witness :
  get_column_ranks BRWTExamples.ex4 3 = [(0%N, 2); (2%N, 1)] /\
  (forall c r, In (c, r) (get_column_ranks BRWTExamples.ex4 3) ->
     r = length (List.filter (fun i' => get BRWTExamples.ex4 i' c) (seq 0 4))).
Proof.
  split; [vm_compute; reflexivity|].
  exact (proj2 (proj2 (get_column_ranks_spec BRWTExamples.ex4 3 BRWTExamples.ex4_wf))).
Defined.

Lemma num_relations_count_witness :
  num_relations BRWTExamples.ex4 = 5 /\
  num_relations BRWTExamples.ex4 =
  length (List.filter (fun p => get BRWTExamples.ex4 p.1 p.2)
            (list_prod (seq 0 4) (map N.of_nat (seq 0 4)))).
Proof.
  split; [vm_compute; reflexivity|].
  exact (num_relations_count BRWTExamples.ex4 BRWTExamples.ex4_wf).
Defined.

End BRWTQueryFacts.

Module AnnotationBufferFacts.
Import AnnotationBuffer AnnotationBufferClaims.

Section Labels.
Variables mode base_mode : Mode.
Variables (canonical_ is_rcdbg has_boss : bool).
Variables (map_to_canonical get_base_node : N -> N) (dummy_W : N -> bool).
Variable get_row : N -> Columns.
Variable row_batch_size : nat.
Variable c : N -> N.

Local Abbreviation fetch :=
  (fetch_queued_annotations mode base_mode canonical_ is_rcdbg has_boss map_to_canonical
     get_base_node dummy_W get_row row_batch_size).
Local Abbreviation base_path :=
  (compute_base_path base_mode canonical_ is_rcdbg map_to_canonical get_base_node).

Lemma buffer_ok_entry bf x v :
  buffer_ok has_boss dummy_W get_row c bf ->
  (N.of_nat (length (column_sets bf)) <= nannot)%N ->
  node_to_cols bf !! x = Some v ->
  v <> nannot /\
  column_sets bf !! N.to_nat v =
    Some (if decide (c x = 0%N) then [] else expected has_boss dummy_W get_row (c x)).
Proof.
  intros (H0 & _ & Hm) Hlen Hx. specialize (Hm x v Hx) as [Hz Hnz].
  destruct (decide (c x = 0%N)) as [E|E].
  - rewrite (Hz E). split; [unfold nannot; lia | done].
  - destruct (Hnz E) as (_ & _ & Hv). split; [|done].
    apply lookup_lt_Some in Hv. lia.
Qed.

Lemma fetch_ok paths bf :
  mode <> PRIMARY ->
  paths_okb mode base_mode canonical_ is_rcdbg map_to_canonical get_base_node c paths = true ->
  buffer_ok has_boss dummy_W get_row c bf ->
  buffer_ok has_boss dummy_W get_row c (fetch paths bf) /\
  covered mode base_mode canonical_ is_rcdbg map_to_canonical get_base_node paths (fetch paths bf).
Proof.
  intros Hmode Hok Hbf. unfold fetch_queued_annotations.
  destruct (process_paths_inv mode base_mode canonical_ is_rcdbg has_boss map_to_canonical
              get_base_node dummy_W get_row row_batch_size c (mkFetchState bf [] []) paths
              Hmode Hok) as (HS & Hg & Hcov).
  { split; [done|]. cbn. by apply buffer_ok_Inv. }
  destruct (fetch_row_batch_inv mode canonical_ has_boss dummy_W get_row c _ HS) as [HI Hg'].
  split; [by apply (Inv_buffer_ok canonical_)|].
  eapply Forall_impl; [exact Hcov|]. intros p Hp. eapply Forall_impl; [exact Hp|].
  intros [n b]. apply covered_pair_mono. exact Hg'.
Qed.

(** after [fetch_queued_annotations], [get_labels_and_coords] returns for
    the nodes of a queued path the sorted annotation row of the node their
    row is read from (the empty set for a dummy node or a node spanning a
    sentinel) *)
Theorem fetch_get_labels (paths : list (list N)) (bf : buffer) (p : list N) (n b : N) :
  mode <> PRIMARY ->
  paths_okb mode base_mode canonical_ is_rcdbg map_to_canonical get_base_node c paths = true ->
  buffer_ok has_boss dummy_W get_row c bf ->
  (N.of_nat (length (column_sets (fetch paths bf))) <= nannot)%N ->
  In p paths -> In (n, b) (zip p (base_path p)) ->
  (b <> 0%N -> forall x, (if canonical_ then get_base_node x else x) = b ->
     get_labels canonical_ get_base_node (fetch paths bf) x
     = Some (expected has_boss dummy_W get_row b)) /\
  (b <> 0%N -> mode = CANONICAL -> canonical_ = false ->
     get_labels canonical_ get_base_node (fetch paths bf) n
     = Some (expected has_boss dummy_W get_row b)) /\
  (b = 0%N -> canonical_ = false ->
     get_labels canonical_ get_base_node (fetch paths bf) n = Some []).
Proof.
  intros Hmode Hok Hbf Hlen Hp Hnb.
  destruct (fetch_ok paths bf Hmode Hok Hbf) as [Hbf' Hcov].
  assert (Hpair : pair_okb mode c n b = true).
  { unfold paths_okb in Hok. rewrite forallb_forall in Hok.
    specialize (Hok p Hp). rewrite forallb_forall in Hok. exact (Hok (n, b) Hnb). }
  apply pair_okb_spec in Hpair as (Hcb & Hc0 & Hcn).
  assert (Hcp : covered_pair mode canonical_ (fetch paths bf) n b).
  { unfold covered in Hcov. rewrite List.Forall_forall in Hcov.
    specialize (Hcov p Hp). rewrite List.Forall_forall in Hcov. exact (Hcov (n, b) Hnb). }
  destruct Hcp as (Hb & Hn0 & Hn).
  unfold get_labels. split_and!.
  - intros Hb0 x Hx. rewrite Hx. destruct (Hb Hb0) as [v Hv]. rewrite Hv.
    destruct (buffer_ok_entry _ _ _ Hbf' Hlen Hv) as [Hvn Hcs].
    rewrite (proj2 (N.eqb_neq v nannot) Hvn). etransitivity; [exact Hcs|].
    rewrite (Hcb Hb0).
    destruct (decide (b = 0%N)); done.
  - intros Hb0 Hm Hc. replace (if canonical_ then get_base_node n else n) with n by (rewrite Hc; done). destruct (Hn Hm Hc) as [v Hv]. rewrite Hv.
    destruct (buffer_ok_entry _ _ _ Hbf' Hlen Hv) as [Hvn Hcs].
    rewrite (proj2 (N.eqb_neq v nannot) Hvn). etransitivity; [exact Hcs|].
    rewrite (Hcn Hm).
    destruct (decide (b = 0%N)); done.
  - intros Hb0 Hc. replace (if canonical_ then get_base_node n else n) with n by (rewrite Hc; done). destruct (Hn0 Hb0) as [v Hv]. rewrite Hv.
    destruct (buffer_ok_entry _ _ _ Hbf' Hlen Hv) as [Hvn Hcs].
    rewrite (proj2 (N.eqb_neq v nannot) Hvn). etransitivity; [exact Hcs|].
    rewrite (Hc0 Hb0).
    destruct (decide (0%N = 0%N)); done.
Qed.

End Labels.

Import AnnotationBufferExamples.

Lemma fetch_get_labels_witness :
  get_labels false id
    (fetch_queued_annotations CANONICAL CANONICAL false false true ex_canonical id ex_dummy
       ex_row 1 [[2%N; 3%N]; [4%N; 1%N]; [5%N]] init_buffer) 2%N = Some [0%N].
Proof.
  refine (eq_trans (proj1 (proj2 (fetch_get_labels CANONICAL CANONICAL false false true
            ex_canonical id ex_dummy ex_row 1 ex_canonical [[2%N; 3%N]; [4%N; 1%N]; [5%N]]
            init_buffer [2%N; 3%N] 2%N 1%N _ _ _ _ _ _)) _ _ _) _).
  - discriminate.
  - vm_compute. reflexivity.
  - apply (bool_decide_unpack _). vm_compute. exact I.
  - vm_compute. discriminate.
  - left. reflexivity.
  - left. reflexivity.
  - discriminate.
  - reflexivity.
  - reflexivity.
  - vm_compute. reflexivity.
Defined.

End AnnotationBufferFacts.

Module PathIndexFacts.
Import BitVector PathIndex PathIndexStorage BitVectorFacts RankSelectFacts.

Lemma rank1_mono (v : bv) (x y : nat) : x <= y -> rank1 v x <= rank1 v y.
Proof.
  intros Hxy. rewrite !rank1_cnt. replace (S y) with (S x + (y - x)) by lia.
  rewrite cnt_app. lia.
Qed.

(** [rank1] and [select1] form a Galois connection *)
Lemma rank_select (v : bv) (p x : nat) :
  1 <= p <= num_set_bits v -> p <= rank1 v x <-> select1 v p <= x.
Proof.
  intros Hp. destruct (select1_spec v p Hp) as [Hb Hr]. split.
  - intros Hx. destruct (decide (select1 v p <= x)) as [|Hlt]; [done|].
    destruct (select1 v p) as [|s] eqn:Es; [lia|].
    rewrite rank1_S, Hb in Hr. pose proof (rank1_mono v x s ltac:(lia)). lia.
  - intros Hx. rewrite <- Hr at 1. apply rank1_mono. done.
Qed.

Lemma select1_lt_length (v : bv) (p : nat) :
  1 <= p <= num_set_bits v -> select1 v p < length v.
Proof. intros Hp. apply bit_lt_length, (select1_spec v p Hp). Qed.

Lemma sub64_le (a b : N) : (b <= a)%N -> (a < 2 ^ 64)%N -> sub64 a b = (a - b)%N.
Proof.
  intros Hba Ha. unfold sub64. rewrite (N.mod_small b) by lia.
  replace (a + (2 ^ 64 - b))%N with ((a - b) + 1 * 2 ^ 64)%N by lia.
  rewrite N.Div0.mod_add. apply N.mod_small. lia.
Qed.

(** path [p] (numbered from 1) covers the coordinates from
    [path_id_to_coord p] up to the start of path [p + 1]: [coord_to_path_id]
    maps exactly these coordinates to [p], it maps the first one back to
    [p], and [path_length p] is the number of them *)
Theorem path_coords (path_boundaries : bv) (p : nat) :
  1 <= p -> p + 1 <= num_set_bits path_boundaries ->
  (N.of_nat (length path_boundaries) < 2 ^ 64)%N ->
  (forall x, coord_to_path_id path_boundaries x = p <->
     path_id_to_coord path_boundaries p <= x < path_id_to_coord path_boundaries (p + 1)) /\
  coord_to_path_id path_boundaries (path_id_to_coord path_boundaries p) = p /\
  path_id_to_coord path_boundaries p < path_id_to_coord path_boundaries (p + 1) /\
  path_length path_boundaries p =
    N.of_nat (path_id_to_coord path_boundaries (p + 1) - path_id_to_coord path_boundaries p).
Proof.
  intros Hp1 Hp2 Hlen. unfold coord_to_path_id, path_id_to_coord, path_length.
  assert (Hs : forall x, rank1 path_boundaries x = p <->
     select1 path_boundaries p <= x < select1 path_boundaries (p + 1)).
  { intros x. pose proof (rank_select path_boundaries p x ltac:(lia)) as [A1 A2].
    pose proof (rank_select path_boundaries (p + 1) x ltac:(lia)) as [B1 B2].
    split; [intros Hx; split; [apply A1; lia|]|intros [Hx1 Hx2]].
    - destruct (decide (select1 path_boundaries (p + 1) <= x)) as [Hle|]; [|lia].
      apply B2 in Hle. lia.
    - apply A2 in Hx1. destruct (decide (p + 1 <= rank1 path_boundaries x)) as [Hle|]; [|lia].
      apply B1 in Hle. lia. }
  assert (Hlt : select1 path_boundaries p < select1 path_boundaries (p + 1)).
  { destruct (select1_spec path_boundaries p ltac:(lia)) as [_ Hr].
    destruct (decide (select1 path_boundaries (p + 1) <= select1 path_boundaries p)) as [Hle|]; [|lia].
    apply (rank_select _ (p + 1)) in Hle; lia. }
  pose proof (select1_lt_length path_boundaries (p + 1) ltac:(lia)).
  split_and!; [exact Hs | apply Hs; lia | exact Hlt |].
  rewrite sub64_le; unfold path_id_to_coord; [symmetry; apply Nat2N.inj_sub | lia |].
  eapply N.lt_trans; [|exact Hlen]. lia.
Qed.

(** [get_superbubble_terminus(0)] decrements [path_id] to [size_t(-1)],
    which is past [is_superbubble_start_]: two different paths that are
    not in a superbubble (recorded source 0) are at distance
    [numeric_limits<size_t>::max()] *)
Theorem get_dist_outside_superbubbles (is_superbubble_start : bv)
    (superbubble_sources superbubble_termini : list N)
    (is_superbubble_source can_reach_superbubble_terminus : N -> bool)
    (fuel : nat) (path_id_1 path_id_2 max_dist : N) :
  (N.of_nat (length is_superbubble_start) < 2 ^ 64)%N ->
  path_id_1 <> path_id_2 -> path_id_1 <> 0%N -> path_id_2 <> 0%N ->
  (get_superbubble_and_dist is_superbubble_start superbubble_sources path_id_1).1 = 0%N ->
  (get_superbubble_and_dist is_superbubble_start superbubble_sources path_id_2).1 = 0%N ->
  PathIndex.get_dist
    (get_superbubble_and_dist is_superbubble_start superbubble_sources)
    (get_superbubble_terminus is_superbubble_start superbubble_termini)
    is_superbubble_source can_reach_superbubble_terminus
    fuel path_id_1 path_id_2 max_dist = Some size_max.
Proof.
  intros Hlen H12 H1 H2 Hs1 Hs2. unfold PathIndex.get_dist.
  rewrite (proj2 (N.eqb_neq _ _) H12).
  destruct (get_superbubble_and_dist is_superbubble_start superbubble_sources path_id_1)
    as [sb1 d1]. destruct (get_superbubble_and_dist is_superbubble_start
    superbubble_sources path_id_2) as [sb2 d2]. cbn in Hs1, Hs2. subst sb1 sb2.
  replace (0 =? path_id_1)%N with false by (symmetry; apply N.eqb_neq; done).
  rewrite andb_false_r, N.eqb_refl.
  assert (Ht : get_superbubble_terminus is_superbubble_start superbubble_termini 0%N = (0%N, 0%N)).
  { unfold get_superbubble_terminus. replace (sub64 0 1) with (2 ^ 64 - 1)%N by reflexivity.
    replace (2 ^ 64 - 1 <? N.of_nat (length is_superbubble_start))%N with false
      by (symmetry; apply N.ltb_ge; lia).
    reflexivity. }
  rewrite Ht. replace (0 =? path_id_2)%N with false by (symmetry; apply N.eqb_neq; done).
  reflexivity.
Qed.

Definition ex_boundaries : bv := [true; false; true; true; false; true].

Lemma path_coords_witness :
  path_length ex_boundaries 2 = 1%N /\ coord_to_path_id ex_boundaries 2 = 2 /\
  path_length ex_boundaries 2 =
    N.of_nat (path_id_to_coord ex_boundaries 3 - path_id_to_coord ex_boundaries 2).
Proof.
  split_and!; [reflexivity | reflexivity |].
  apply (path_coords ex_boundaries 2); [lia | vm_compute; lia | vm_compute; reflexivity].
Defined.

Lemma get_dist_outside_superbubbles_witness :
  PathIndex.get_dist
    (get_superbubble_and_dist [false; false] [0; 0; 0; 0]%N)
    (get_superbubble_terminus [false; false] [])
    (fun _ => true) (fun _ => true) 5 1%N 2%N 100%N = Some size_max.
Proof.
  apply get_dist_outside_superbubbles; [vm_compute; reflexivity | discriminate | discriminate
    | discriminate | reflexivity | reflexivity].
Defined.

End PathIndexFacts.

Module IntRowDiffFacts.
Import IntRowDiff RowValuesSemantics RowValuesFacts.

(** [IntRowDiff::add_diff] on rows sorted by column with nonzero values
    gives such a row, whose value in every column is the [uint64_t] sum of
    the two values (an absent column counting as 0, a zero sum dropped) *)
Theorem add_diff_sum (diff row : RowValues) :
  canon diff -> canon row ->
  canon (add_diff diff row) /\
  (forall c, val (add_diff diff row) c = ((val diff c + val row c) mod u64)%N).
Proof. intros Hd Hr. exact (add_diff_canon diff row Hd Hr). Qed.

Lemma add_diff_sum_witness :
  add_diff [(0, 3); (2, 2 ^ 64 - 1)]%N [(0, 5); (2, 1); (3, 4)]%N = [(0, 8); (3, 4)]%N /\
  val (add_diff [(0, 3); (2, 2 ^ 64 - 1)]%N [(0, 5); (2, 1); (3, 4)]%N) 2%N =
    ((val [(0, 3); (2, 2 ^ 64 - 1)]%N 2 + val [(0, 5); (2, 1); (3, 4)]%N 2) mod u64)%N.
Proof.
  split; [vm_compute; reflexivity|].
  apply (add_diff_sum [(0, 3); (2, 2 ^ 64 - 1)]%N [(0, 5); (2, 1); (3, 4)]%N).
  - split; repeat constructor; unfold col_lt, u64; cbn; lia.
  - split; repeat constructor; unfold col_lt, u64; cbn; lia.
Defined.

End IntRowDiffFacts.
